(** * Tracklet reconstruction: a shallow embedding of
      [h5flow_modules/combined/tracklet_reco.py]

    The development follows the Python module function by function:
    - [F8]: the numeric values held by the [f8] fields and coordinate arrays;
    - [Np]: the numpy array idioms the module relies on (boolean-mask
      selection and assignment, [np.unique], reductions);
    - [Exec]: the effect monad: exceptions, over a state that holds the
      random generator and a log of what the reconstruction did;
    - the data model ([Hit], [event], [Track], [config]) and the static
      helpers ([xyp], [projected_limits], [track_residual]);
    - section [TrackletReconstruction]: [hit_xyz], [_do_dbscan],
      [_do_ransac], [find_tracks], [do_pca], [calc_tracks] and [run], first
      the part that precedes the writes, then as far as the arguments of
      its writes to the data manager, followed by the facts proved about
      them.

    DBSCAN (scikit-learn), RANSAC (scikit-image), PCA (scikit-learn), the
    transcendental functions and the [Geometry]/[LArData]/[RunData]
    resources are not part of the module; they are parameters of the
    embedding.  Arrays of shape [(N, M)] are lists of [N] rows. *)

From Stdlib Require Import List ZArith QArith Qcanon Bool Lia Arith.
From Stdlib Require Import Sorting.Sorted.
Import ListNotations.

Set Implicit Arguments.

(* ================================================================== *)
(** ** Values of [f8] fields *)
(* ================================================================== *)

Module F8.

(** A float64 is idealised as an exact rational, extended with the three
    non-finite values a float64 array can hold.  Rounding and signed zeros
    are not represented; the special values follow IEEE-754. *)
Inductive f8 : Type :=
| Fin (q : Qc)
| PInf
| NInf
| NaN.

Definition zero : f8 := Fin 0%Qc.

Definition is_finite (a : f8) : bool :=
  match a with Fin _ => true | _ => false end.

(** [inf neg] is the infinity of the given sign. *)
Definition inf (neg : bool) : f8 := if neg then NInf else PInf.

Definition opp (a : f8) : f8 :=
  match a with
  | Fin q => Fin (- q)%Qc
  | PInf => NInf
  | NInf => PInf
  | NaN => NaN
  end.

Definition add (a b : f8) : f8 :=
  match a, b with
  | NaN, _ | _, NaN => NaN
  | Fin p, Fin q => Fin (p + q)%Qc
  | PInf, NInf | NInf, PInf => NaN
  | PInf, _ | _, PInf => PInf
  | NInf, _ | _, NInf => NInf
  end.

Definition sub (a b : f8) : f8 := add a (opp b).

(** Sign of a finite value, as the infinity it scales another infinity to:
    [None] for zero. *)
Definition sign_neg (q : Qc) : option bool :=
  match (q ?= 0)%Qc with
  | Eq => None
  | Lt => Some true
  | Gt => Some false
  end.

Definition scale_inf (neg : bool) (q : Qc) : f8 :=
  match sign_neg q with
  | None => NaN
  | Some s => inf (xorb neg s)
  end.

Definition mul (a b : f8) : f8 :=
  match a, b with
  | NaN, _ | _, NaN => NaN
  | Fin p, Fin q => Fin (p * q)%Qc
  | Fin p, PInf | PInf, Fin p => scale_inf false p
  | Fin p, NInf | NInf, Fin p => scale_inf true p
  | PInf, PInf | NInf, NInf => PInf
  | PInf, NInf | NInf, PInf => NInf
  end.

(** numpy float division: a zero divisor gives an infinity or [nan] (with a
    warning), never an exception. *)
Definition div (a b : f8) : f8 :=
  match a, b with
  | NaN, _ | _, NaN => NaN
  | Fin p, Fin q =>
      if Qc_eq_dec q 0 then
        match sign_neg p with
        | None => NaN
        | Some s => inf s
        end
      else Fin (p / q)%Qc
  | Fin _, (PInf | NInf) => Fin 0%Qc
  | PInf, Fin q => inf (match sign_neg q with Some true => true | _ => false end)
  | NInf, Fin q => inf (match sign_neg q with Some true => false | _ => true end)
  | (PInf | NInf), (PInf | NInf) => NaN
  end.

(** [a == b] on floats: [nan] is equal to nothing. *)
Definition eqb (a b : f8) : bool :=
  match a, b with
  | Fin p, Fin q => if Qc_eq_dec p q then true else false
  | PInf, PInf | NInf, NInf => true
  | _, _ => false
  end.

(** [a < b] on floats. *)
Definition ltb (a b : f8) : bool :=
  match a, b with
  | NaN, _ | _, NaN => false
  | Fin p, Fin q => match (p ?= q)%Qc with Lt => true | _ => false end
  | NInf, (Fin _ | PInf) => true
  | Fin _, PInf => true
  | _, _ => false
  end.

(** [a <= b] on floats. *)
Definition leb (a b : f8) : bool :=
  match a, b with
  | NaN, _ | _, NaN => false
  | Fin p, Fin q => match (p ?= q)%Qc with Gt => false | _ => true end
  | NInf, _ => true
  | _, PInf => true
  | _, _ => false
  end.

(** [np.minimum] / [np.maximum]: a [nan] operand propagates. *)
Definition minimum (a b : f8) : f8 :=
  match a, b with
  | NaN, _ | _, NaN => NaN
  | _, _ => if ltb b a then b else a
  end.

Definition maximum (a b : f8) : f8 :=
  match a, b with
  | NaN, _ | _, NaN => NaN
  | _, _ => if ltb a b then b else a
  end.

Definition abs (a : f8) : f8 :=
  match a with
  | Fin q => if ltb a zero then Fin (- q)%Qc else a
  | PInf | NInf => PInf
  | NaN => NaN
  end.

(** An integer (a count, a length) as a float. *)
Definition of_Z (n : Z) : f8 := Fin (Q2Qc (inject_Z n)).

End F8.

Declare Scope f8_scope.
Delimit Scope f8_scope with f8.
Bind Scope f8_scope with F8.f8.
Infix "+" := F8.add : f8_scope.
Infix "-" := F8.sub : f8_scope.
Infix "*" := F8.mul : f8_scope.
Infix "/" := F8.div : f8_scope.
Notation "- x" := (F8.opp x) : f8_scope.
Infix "==" := F8.eqb (at level 70, no associativity) : f8_scope.

(* ================================================================== *)
(** ** numpy idioms *)
(* ================================================================== *)

Module Np.

Section Arrays.
Context {A : Type}.

(** Selection of the entries at which a boolean mask is set, with no shape
    check. *)
Fixpoint pick (a : list A) (mask : list bool) : list A :=
  match a, mask with
  | x :: a', m :: mask' => if m then x :: pick a' mask' else pick a' mask'
  | _, _ => []
  end.

(** [a[mask]]: numpy raises [IndexError] when the boolean index does not
    have the length of the indexed axis. *)
Definition select (a : list A) (mask : list bool) : option (list A) :=
  if length a =? length mask then Some (pick a mask) else None.

(** The array [a] with [v] stored wherever [mask] is set. *)
Fixpoint store (a : list A) (mask : list bool) (v : A) : list A :=
  match a, mask with
  | x :: a', m :: mask' => (if m then v else x) :: store a' mask' v
  | _, _ => a
  end.

(** [a[mask] = v] for a scalar [v]. *)
Definition set_where (a : list A) (mask : list bool) (v : A)
  : option (list A) :=
  if length a =? length mask then Some (store a mask v) else None.

(** The array [a] with the successive values of [vals] stored at the
    successive set positions of [mask]. *)
Fixpoint scatter (a : list A) (mask : list bool) (vals : list A) : list A :=
  match a, mask with
  | x :: a', m :: mask' =>
      if m then
        match vals with
        | v :: vals' => v :: scatter a' mask' vals'
        | [] => x :: scatter a' mask' []
        end
      else x :: scatter a' mask' vals
  | _, _ => a
  end.
End Arrays.

(** [np.sum(mask)], [np.count_nonzero(mask)] on a boolean array. *)
Definition count (mask : list bool) : nat := length (filter (fun b => b) mask).
Definition sum (mask : list bool) : Z := Z.of_nat (count mask).

(** [a[mask] = vals] for an array [vals]: the values must number the set
    positions of [mask], or be a single value, which is broadcast;
    anything else is a [ValueError]. *)
Definition put_mask {A} (a : list A) (mask : list bool) (vals : list A)
  : option (list A) :=
  if negb (length a =? length mask) then None
  else if length vals =? count mask then Some (scatter a mask vals)
  else match vals with
       | [v] => Some (store a mask v)
       | _ => None
       end.

Definition any (mask : list bool) : bool := existsb (fun b => b) mask.
Definition all (mask : list bool) : bool := forallb (fun b => b) mask.

(** [a == v] for an integer array and a scalar. *)
Definition eq_scalar (a : list Z) (v : Z) : list bool :=
  map (fun x => x =? v)%Z a.

(** Elementwise [a & b] of two rows.  The rows combined in this module
    have the length of a row of [hits]; operands of different lengths are
    the shape error numpy raises for them (the broadcast of a row of length
    1 is not represented). *)
Definition logical_and (a b : list bool) : option (list bool) :=
  if length a =? length b then Some (map (fun p => fst p && snd p) (combine a b))
  else None.

Definition logical_not (a : list bool) : list bool := map negb a.

(** [np.unique]: the distinct values, in increasing order. *)
Fixpoint insert_unique (x : Z) (l : list Z) : list Z :=
  match l with
  | [] => [x]
  | y :: l' =>
      match (x ?= y)%Z with
      | Lt => x :: l
      | Eq => l
      | Gt => y :: insert_unique x l'
      end
  end.

Definition unique (l : list Z) : list Z := fold_right insert_unique [] l.

(** Reductions over float arrays.  [np.min]/[np.max] of an empty array
    raise [ValueError]. *)
Definition fsum (l : list F8.f8) : F8.f8 := fold_left F8.add l F8.zero.

Definition amin (l : list F8.f8) : option F8.f8 :=
  match l with
  | [] => None
  | x :: l' => Some (fold_left F8.minimum l' x)
  end.

Definition amax (l : list F8.f8) : option F8.f8 :=
  match l with
  | [] => None
  | x :: l' => Some (fold_left F8.maximum l' x)
  end.

Definition mean (l : list F8.f8) : F8.f8 :=
  F8.div (fsum l) (F8.of_Z (Z.of_nat (length l))).

(** Maximum of an integer array; [None] on an empty one. *)
Definition zmax (l : list Z) : option Z :=
  match l with
  | [] => None
  | x :: l' => Some (fold_left Z.max l' x)
  end.

(** [np.clip(x, lo, hi)]. *)
Definition clip (x lo hi : F8.f8) : F8.f8 := F8.minimum (F8.maximum x lo) hi.

(** [np.r_[s]] for a slice [s = (start, stop)]: the integers from [start]
    up to [stop - 1]. *)
Definition r_ (s : Z * Z) : list Z :=
  map (fun k => (fst s + Z.of_nat k)%Z) (seq 0 (Z.to_nat (snd s - fst s))).

(** [v.astype('u4')] on an integer. *)
Definition u4 (v : Z) : Z := (v mod 2 ^ 32)%Z.

(** An entry of a masked array is not masked. *)
Definition is_set {A} (o : option A) : bool :=
  match o with Some _ => true | None => false end.

(** The list of the values, when none is missing. *)
Fixpoint all_some {A} (l : list (option A)) : option (list A) :=
  match l with
  | [] => Some []
  | o :: l' =>
      match o, all_some l' with
      | Some x, Some r => Some (x :: r)
      | _, _ => None
      end
  end.

(** [np.place(arr, mask, vals)] for a column [arr] of a masked array
    that is set nowhere yet, seen row by row; [k] counts the positions
    filled in the rows before.  The set positions of [mask] receive, in
    row-major order, the successive values of [vals], which are taken
    again from the start when they run out; the other positions stay
    masked ([None]).  numpy raises [ValueError] when [vals] is empty and
    some position is to be filled. *)
Fixpoint place_row {A} (vals : list A) (k : nat) (mask : list bool)
  : list (option A) * nat :=
  match mask with
  | [] => ([], k)
  | m :: mask' =>
      if m then
        let r := place_row vals (S k) mask' in
        (nth_error vals (k mod length vals) :: fst r, snd r)
      else
        let r := place_row vals k mask' in
        (None :: fst r, snd r)
  end.

Fixpoint place_rows {A} (vals : list A) (k : nat) (masks : list (list bool))
  : list (list (option A)) :=
  match masks with
  | [] => []
  | m :: masks' =>
      let r := place_row vals k m in
      fst r :: place_rows vals (snd r) masks'
  end.

Definition place {A} (masks : list (list bool)) (vals : list A)
  : option (list (list (option A))) :=
  if (length vals =? 0)%nat && existsb any masks then None
  else Some (place_rows vals 0 masks).

(** [row[v]] for an integer index: a negative index counts from the end,
    and an index outside [-len(row) .. len(row) - 1] is an [IndexError]. *)
Definition take {A} (row : list A) (v : Z) : option A :=
  let n := Z.of_nat (length row) in
  if ((- n <=? v) && (v <? n))%Z then nth_error row (Z.to_nat (v mod n))
  else None.

(** [np.take_along_axis(arr, indices, axis=-1)] for two arrays with the
    same number of rows. *)
Definition take_along_axis {A} (arr : list (list A)) (indices : list (list Z))
  : option (list (list A)) :=
  if (length arr =? length indices)%nat then
    all_some (map (fun p => all_some (map (take (fst p)) (snd p)))
                  (combine arr indices))
  else None.

(** [np.broadcast_to(np.expand_dims(col, axis=-1), (n, m))], as the list
    of the values of its [n] rows: [col] must have [n] entries, or one. *)
Definition broadcast_rows {A} (col : list A) (n : nat) : option (list A) :=
  if (length col =? n)%nat then Some col
  else match col with
       | [x] => Some (repeat x n)
       | _ => None
       end.

End Np.

(* ================================================================== *)
(** ** Exceptions, state and the call log *)
(* ================================================================== *)

Module Exec.

(** A computation over a state [S]: it returns a value or raises ([None]),
    and in both cases leaves the state it reached. *)
Definition exec (S A : Type) : Type := S -> option A * S.

Definition ret {S A} (a : A) : exec S A := fun s => (Some a, s).

Definition raise {S A} : exec S A := fun s => (None, s).

Definition bind {S A B} (m : exec S A) (k : A -> exec S B) : exec S B :=
  fun s => match m s with
           | (Some a, s') => k a s'
           | (None, s') => (None, s')
           end.

(** A pure operation that may raise. *)
Definition lift {S A} (o : option A) : exec S A := fun s => (o, s).

(** [for x in l: st = body(x, st)]. *)
Fixpoint for_each {S A St} (l : list A) (body : A -> St -> exec S St) (st : St)
  : exec S St :=
  match l with
  | [] => ret st
  | x :: l' => bind (body x st) (for_each l' body)
  end.

(** [[f(i, x) for i, x in enumerate(l, start)]], stopping at the first
    exception. *)
Fixpoint for_rows {S A B} (f : nat -> A -> exec S B) (i : nat) (l : list A)
  : exec S (list B) :=
  match l with
  | [] => ret []
  | x :: l' =>
      bind (f i x) (fun y => bind (for_rows f (Datatypes.S i) l')
                                  (fun ys => ret (y :: ys)))
  end.

End Exec.

Declare Scope exec_scope.
Delimit Scope exec_scope with exec.
Notation "x <- m ;; k" := (Exec.bind m (fun x => k))
  (at level 100, m at next level, right associativity) : exec_scope.
Notation "' p <- m ;; k" := (Exec.bind m (fun p => k))
  (at level 100, p pattern, m at next level, right associativity) : exec_scope.
Notation "m ;;; k" := (Exec.bind m (fun _ => k))
  (at level 100, right associativity) : exec_scope.

(* ================================================================== *)
(** ** Data model *)
(* ================================================================== *)

Import F8.

(** A row of an [(n, 3)] coordinate array. *)
Record vec3 : Type := V3 { vx : f8; vy : f8; vz : f8 }.

(** One slot of the [charge/hits] masked array.  [masked] is
    [hits['id'].mask]: the slot holds no hit. *)
Module Hit.
Record t : Type := Build {
  masked : bool;
  ts : f8;
  q : f8;
  iogroup : Z;
  iochannel : Z;
  px : f8;
  py : f8
}.
End Hit.

(** One event of the source slice: the row of [t0] (shape [(N, 1)]) and the
    row of [hits] (shape [(N, M)]) that belong to it. *)
Record event : Type := Event {
  t0_ts : f8;
  hits : list Hit.t
}.

(** The [tracklets] record, without the [id] column that [run] fills in
    from the slice reserved in the output dataset. *)
Module Track.
Record t : Type := Build {
  theta : f8;
  phi : f8;
  xp : f8;
  yp : f8;
  nhit : Z;
  q : f8;
  ts_start : f8;
  ts_end : f8;
  residual : vec3;
  length : f8;
  start : vec3;
  end_ : vec3
}.
End Track.

(** Constructor parameters of [TrackletReconstruction]. *)
Record config : Type := Config {
  dbscan_eps : f8;
  dbscan_min_samples : Z;
  ransac_min_samples : Z;
  ransac_residual_threshold : f8;
  ransac_max_trials : Z;
  max_iterations : Z
}.

(** The defaults of the class. *)
Definition default_config : config :=
  {| dbscan_eps := of_Z 25;
     dbscan_min_samples := 5;
     ransac_min_samples := 2;
     ransac_residual_threshold := of_Z 8;
     ransac_max_trials := 100;
     max_iterations := 100 |}.

(** What the reconstruction does that is observable from outside: the calls
    into the fitting libraries with the points handed over, and two
    markers for the writes of [find_tracks] (the labels each round of an
    event starts from, and each [track_id[i, mask] = current_track_id]). *)
Inductive action : Type :=
| CallDbscan (pts : list vec3)
| CallRansac (pts : list vec3)
| CallPca (pts : list vec3)
| Round (i : nat) (labels : list Z)
| Assign (i : nat) (id : Z) (mask : list bool).

(** Componentwise arithmetic on coordinate rows. *)
Definition v_sub (a b : vec3) : vec3 :=
  V3 (vx a - vx b) (vy a - vy b) (vz a - vz b).
Definition v_add (a b : vec3) : vec3 :=
  V3 (vx a + vx b) (vy a + vy b) (vz a + vz b).
Definition v_scale (a : vec3) (s : f8) : vec3 :=
  V3 (vx a * s) (vy a * s) (vz a * s).
Definition v_abs (a : vec3) : vec3 :=
  V3 (F8.abs (vx a)) (F8.abs (vy a)) (F8.abs (vz a)).
Definition v_dot (a b : vec3) : f8 :=
  (vx a * vx b + vy a * vy b + vz a * vz b)%f8.
Definition v_clip (a lo hi : vec3) : vec3 :=
  V3 (Np.clip (vx a) (vx lo) (vx hi))
     (Np.clip (vy a) (vy lo) (vy hi))
     (Np.clip (vz a) (vz lo) (vz hi)).
Definition v_finite (a : vec3) : bool :=
  is_finite (vx a) && is_finite (vy a) && is_finite (vz a).

(** Reductions along axis 0 of an [(n, 3)] array. *)
Definition mean0 (pts : list vec3) : vec3 :=
  V3 (Np.mean (map vx pts)) (Np.mean (map vy pts)) (Np.mean (map vz pts)).

Definition amin0 (pts : list vec3) : option vec3 :=
  match Np.amin (map vx pts), Np.amin (map vy pts), Np.amin (map vz pts) with
  | Some a, Some b, Some c => Some (V3 a b c)
  | _, _, _ => None
  end.

Definition amax0 (pts : list vec3) : option vec3 :=
  match Np.amax (map vx pts), Np.amax (map vy pts), Np.amax (map vz pts) with
  | Some a, Some b, Some c => Some (V3 a b c)
  | _, _, _ => None
  end.

(* ================================================================== *)
(** ** The static geometric helpers *)
(* ================================================================== *)

(** [xyp(axis, centroid)]. *)
Definition xyp (axis centroid : vec3) : f8 * f8 :=
  if (vz axis == zero)%f8 then (vx centroid, vy centroid)
  else
    let s := (- vz centroid / vz axis)%f8 in
    let p := v_add centroid (v_scale axis s) in
    (vx p, vy p).

(** The point at parameter [t] of the line through [centroid] along
    [axis]. *)
Definition line_point (centroid axis : vec3) (t : f8) : vec3 :=
  v_add centroid (v_scale axis t).

(** [np.dot((xyz - centroid), axis)]. *)
Definition projections (centroid axis : vec3) (xyz : list vec3) : list f8 :=
  map (fun p => v_dot (v_sub p centroid) axis) xyz.

(** [projected_limits(centroid, axis, xyz)], returning [(r_min, r_max)]. *)
Definition projected_limits (centroid axis : vec3) (xyz : list vec3)
  : option (vec3 * vec3) :=
  let s := projections centroid axis xyz in
  match amin0 xyz, amax0 xyz, Np.amax s, Np.amin s with
  | Some xyz_min, Some xyz_max, Some s_max, Some s_min =>
      let r_max := v_clip (v_add centroid (v_scale axis s_max)) xyz_min xyz_max in
      let r_min := v_clip (v_add centroid (v_scale axis s_min)) xyz_min xyz_max in
      Some (r_min, r_max)
  | _, _, _, _ => None
  end.

(** [r] lies in the bounding box of the points [xyz]: each of its
    coordinates is between the values of that coordinate at two of the
    points. *)
Definition in_box (xyz : list vec3) (r : vec3) : Prop :=
  forall c : vec3 -> f8,
    In c [vx; vy; vz] ->
    exists p q, In p xyz /\ In q xyz /\
                leb (c p) (c r) = true /\ leb (c r) (c q) = true.

(** [track_residual(centroid, axis, xyz)]; row [k] of [np.outer(s, axis)] is
    [s[k] * axis]. *)
Definition track_residual (centroid axis : vec3) (xyz : list vec3) : vec3 :=
  let res :=
    map (fun p =>
           let s := v_dot (v_sub p centroid) axis in
           v_abs (v_sub p (v_add centroid
                             (V3 (s * vx axis) (s * vy axis) (s * vz axis)))))
        xyz in
  mean0 res.

(* ================================================================== *)
(** ** [TrackletReconstruction] *)
(* ================================================================== *)

(** The ambient state of a run: the state of the random generator RANSAC
    draws its samples from, and the log of actions so far, oldest first. *)
Record world (rng : Type) : Type := World {
  rng_state : rng;
  log : list action
}.

(** Per-event state of [find_tracks]: row [i] of [iter_mask] and of
    [track_id], and [current_track_id]. *)
Record row_state : Type := RowState {
  iter_mask : list bool;
  track_id : list Z;
  current_track_id : Z
}.

(* ================================================================== *)
(** ** Reading the log *)
(* ================================================================== *)

(** The ids stored at position [j] of row [i] of [track_id], oldest
    first. *)
Definition writes (i j : nat) (acts : list action) : list Z :=
  flat_map (fun a => match a with
                     | Assign i' k mask =>
                         if (i' =? i)%nat && nth j mask false then [k] else []
                     | _ => []
                     end) acts.

(** The successive values of [current_track_id] stored into row [i]. *)
Definition assigned_ids (i : nat) (acts : list action) : list Z :=
  flat_map (fun a => match a with
                     | Assign i' k _ => if (i' =? i)%nat then [k] else []
                     | _ => []
                     end) acts.

(** The labels of the successive rounds of event [i]. *)
Definition rounds_of (i : nat) (acts : list action) : list (list Z) :=
  flat_map (fun a => match a with
                     | Round i' labels => if (i' =? i)%nat then [labels] else []
                     | _ => []
                     end) acts.

(** The point sets handed to RANSAC. *)
Definition ransac_inputs (acts : list action) : list (list vec3) :=
  flat_map (fun a => match a with CallRansac pts => [pts] | _ => [] end) acts.

(** The point sets handed to DBSCAN. *)
Definition dbscan_inputs (acts : list action) : list (list vec3) :=
  flat_map (fun a => match a with CallDbscan pts => [pts] | _ => [] end) acts.

(** [c + 1, c + 2, ..., c + n]. *)
Definition ids_from (c : Z) (n : nat) : list Z :=
  map (fun k => (c + 1 + Z.of_nat k)%Z) (seq 0 n).

(** The markers among [acts] all concern row [i]. *)
Definition only_row (i : nat) (acts : list action) : Prop :=
  Forall (fun a => match a with
                   | Assign i' _ _ | Round i' _ => i' = i
                   | _ => True
                   end) acts.

Definition not_assign (a : action) : Prop :=
  match a with Assign _ _ _ => False | _ => True end.

Definition not_round (a : action) : Prop :=
  match a with Round _ _ => False | _ => True end.

(** What a stretch of [find_tracks] on event [i] has done to the row state,
    given the actions [acts] it logged: the counter advanced by the number
    of ids handed out, which are consecutive; and every position [j] was
    either left alone, or was eligible, lies in [P], and was stored to
    exactly once, with an id handed out in this stretch, and made
    ineligible. *)
Definition effect (i : nat) (P : nat -> Prop) (st st' : row_state)
    (acts : list action) : Prop :=
  length (track_id st') = length (track_id st) /\
  length (iter_mask st') = length (iter_mask st) /\
  only_row i acts /\
  (exists n, current_track_id st' = (current_track_id st + Z.of_nat n)%Z /\
             assigned_ids i acts = ids_from (current_track_id st) n) /\
  forall j,
    (writes i j acts = [] /\
     nth j (track_id st') (-1)%Z = nth j (track_id st) (-1)%Z /\
     nth j (iter_mask st') false = nth j (iter_mask st) false)
    \/
    (P j /\ nth j (iter_mask st) false = true /\
     exists k, writes i j acts = [k] /\
               nth j (track_id st') (-1)%Z = k /\
               nth j (iter_mask st') false = false /\
               (current_track_id st < k <= current_track_id st')%Z).

(** The markers among [acts] concern rows [i0] and later. *)
Definition rows_from (i0 : nat) (acts : list action) : Prop :=
  Forall (fun a => match a with
                   | Assign i' _ _ | Round i' _ => (i0 <= i')%nat
                   | _ => True
                   end) acts.

(** What [find_tracks] has done for event [i], whose hits are [hs], when it
    returns [row] as row [i] of [track_id], as seen in the log [acts]:
    - the ids handed out are [0, 1, ..., n - 1], in this order;
    - each position was stored to at most once and holds the id stored, or
      was never stored to and holds [-1]; only positions of unmasked hits
      were stored to;
    - there were at most [n_max] rounds, and if fewer, then the last round
      found only noise or every unmasked hit has an id. *)
Definition event_outcome (n_max i : nat) (hs : list Hit.t) (row : list Z)
    (acts : list action) : Prop :=
  length row = length hs /\
  (exists n, assigned_ids i acts = ids_from (-1) n) /\
  (forall j,
      (writes i j acts = [] /\ nth j row (-1)%Z = (-1)%Z)
      \/
      (nth j (map Hit.masked hs) true = false /\
       exists k, writes i j acts = [k] /\ nth j row (-1)%Z = k /\ (0 <= k)%Z)) /\
  (length (rounds_of i acts) <= n_max)%nat /\
  ((length (rounds_of i acts) < n_max)%nat ->
   (exists rs labels,
       rounds_of i acts = rs ++ [labels] /\
       Np.all (Np.eq_scalar labels (-1)) = true)
   \/
   (forall j, nth j (map Hit.masked hs) true = false ->
              nth j row (-1)%Z <> (-1)%Z)).

(** A property of the log that only reads the markers of row [i]. *)
Definition row_local {A B} (R : nat -> A -> B -> list action -> Prop) : Prop :=
  forall i x y acts acts',
    (forall j, writes i j acts' = writes i j acts) ->
    assigned_ids i acts' = assigned_ids i acts ->
    rounds_of i acts' = rounds_of i acts ->
    R i x y acts -> R i x y acts'.

(** [m] has the shape of [good] and is set only where [good] is. *)
Definition submask (m good : list bool) : Prop :=
  length m = length good /\
  forall j, nth j m false = true -> nth j good false = true.

(** The positions of the unmasked hits of a row: [~hits['id'].mask[i]]. *)
Definition unmasked (hs : list Hit.t) : list bool :=
  map (fun h => negb (Hit.masked h)) hs.

(** The actions of [find_tracks] on an event with coordinates [xyz] whose
    unmasked hits are at the positions [good]: the points handed to DBSCAN
    and to RANSAC are those of a selection among [good], which for DBSCAN
    is not empty; every store reaches at least one position; PCA is not
    run. *)
Definition selected_action (xyz : list vec3) (good : list bool) (a : action)
  : Prop :=
  match a with
  | CallDbscan pts =>
      exists m, submask m good /\ Np.any m = true /\ pts = Np.pick xyz m
  | CallRansac pts => exists m, submask m good /\ pts = Np.pick xyz m
  | CallPca _ => False
  | Round _ _ => True
  | Assign _ _ mask => Np.any mask = true
  end.

(* ================================================================== *)
(** ** What [run] hands to the data manager *)
(* ================================================================== *)

(** The arguments of the three writes of [run]: the slice reserved in the
    tracklet dataset and the records written to it, with their [id]; the
    (track id, hit id) references; the (event id, track id) references. *)
Record output : Type := Output {
  tracks_slice : Z * Z;
  written : list (Z * Track.t);
  track_hit_ref : list (Z * Z);
  event_track_ref : list (Z * Z)
}.

(** The unmasked entries of a row of a masked array. *)
Definition compressed {A} (row : list (option A)) : list A :=
  flat_map (fun o => match o with Some x => [x] | None => [] end) row.

(** [tracks[tracks_mask]], each record with the [id] placed in it. *)
Definition with_ids (ids : list (list (option Z)))
    (tracks : list (list (option Track.t))) : list (Z * Track.t) :=
  concat (map (fun p =>
                 flat_map (fun q => match q with
                                    | (Some id, Some t) => [(id, t)]
                                    | _ => []
                                    end)
                          (combine (fst p) (snd p)))
              (combine ids tracks)).

(** One row of
    [(~track_ref_id.mask) & (track_ids != -1) & (~hits['id'].mask)].
    The data of the masked comparison [track_ids != -1] is [True] at the
    masked entries of [track_ids]. *)
Definition ref_mask (ref_row : list (option Z)) (tids : list (Z * bool))
    (hs : list Hit.t) : option (list bool) :=
  match Np.logical_and (map Np.is_set ref_row)
                       (map (fun p => snd p || negb (fst p =? -1)%Z) tids) with
  | Some m => Np.logical_and m (unmasked hs)
  | None => None
  end.

(** One row of [np.c_[track_ref_id[mask], hits['id'][mask]]].  The [id]
    column of [hits], which the reconstruction reads nowhere else, is kept
    apart from [Hit.t]: [hit_id i k] is [hits['id'][i, k]].  The entries
    of [track_ref_id] that [mask] selects are not masked. *)
Definition track_hit_ref_row (hit_id : nat -> nat -> Z) (i : nat)
    (ref_row : list (option Z)) (tids : list (Z * bool)) (hs : list Hit.t)
  : option (list (Z * Z)) :=
  match ref_mask ref_row tids hs with
  | None => None
  | Some mask =>
      match Np.select ref_row mask,
            Np.select (map (hit_id i) (seq 0 (length hs))) mask with
      | Some a, Some b => Some (compressed (map (fun p => match fst p with
                                                          | Some t => Some (t, snd p)
                                                          | None => None
                                                          end) (combine a b)))
      | _, _ => None
      end
  end.

(** [np.c_[ev_id[tracks_mask], tracks['id'][tracks_mask]]], where row [i]
    of [ev_id] holds [ev_ids[i]] throughout. *)
Definition event_track_refs (ev_ids : list Z) (ids : list (list (option Z)))
  : list (Z * Z) :=
  concat (map (fun p => map (fun t => (fst p, t)) (compressed (snd p)))
              (combine ev_ids ids)).

(** The actions of [calc_tracks]: fits of PCA to two or more points, and
    nothing else. *)
Definition pca_action (a : action) : Prop :=
  match a with
  | CallPca pts => (2 <= length pts)%nat
  | _ => False
  end.

(* ================================================================== *)
(** ** What the libraries answered *)
(* ================================================================== *)

(** What a call of RANSAC or of PCA returned.  The module passes neither
    of them a seed or a generator, so their answers are the only way in
    which the state of the generator they draw from reaches a run. *)
Inductive answer : Type :=
| RansacReturned (inliers : option (list bool))
| PcaReturned (component : vec3).

Section Transcript.

Variable rng : Type.
Variable ransac_fit :
  Z -> f8 -> Z -> list vec3 -> rng -> option (option (list bool) * rng).
Variable pca_fit : list vec3 -> rng -> option (vec3 * rng).

(** [transcript] reads, off the state of the libraries, the answers they
    have given so far, oldest first: a call that returns appends its
    answer. *)
Definition keeps_transcript (transcript : rng -> list answer) : Prop :=
  (forall min_samples residual_threshold max_trials pts g inliers g',
      ransac_fit min_samples residual_threshold max_trials pts g =
      Some (inliers, g') ->
      transcript g' = transcript g ++ [RansacReturned inliers]) /\
  (forall pts g c g',
      pca_fit pts g = Some (c, g') ->
      transcript g' = transcript g ++ [PcaReturned c]).

(** The same libraries, with the transcript of their answers kept next to
    their state. *)
Definition recorded_ransac (min_samples : Z) (residual_threshold : f8)
    (max_trials : Z) (pts : list vec3) (s : rng * list answer)
  : option (option (list bool) * (rng * list answer)) :=
  match ransac_fit min_samples residual_threshold max_trials pts (fst s) with
  | Some (inliers, g) => Some (inliers, (g, snd s ++ [RansacReturned inliers]))
  | None => None
  end.

Definition recorded_pca (pts : list vec3) (s : rng * list answer)
  : option (vec3 * (rng * list answer)) :=
  match pca_fit pts (fst s) with
  | Some (c, g) => Some (c, (g, snd s ++ [PcaReturned c]))
  | None => None
  end.

(** The state a run with the recording libraries starts from: nothing
    answered yet. *)
Definition unanswered (w : world rng) : world (rng * list answer) :=
  World (rng_state w, []) (log w).

End Transcript.

Section TwoLibraries.

Variables rngA rngB : Type.

(** Two libraries answer alike from states that [R] relates, and leave
    states that [R] relates. *)
Definition answer_alike (R : rngA -> rngB -> Prop)
    (ransacA :
       Z -> f8 -> Z -> list vec3 -> rngA -> option (option (list bool) * rngA))
    (ransacB :
       Z -> f8 -> Z -> list vec3 -> rngB -> option (option (list bool) * rngB))
    (pcaA : list vec3 -> rngA -> option (vec3 * rngA))
    (pcaB : list vec3 -> rngB -> option (vec3 * rngB)) : Prop :=
  (forall min_samples residual_threshold max_trials pts gA gB,
      R gA gB ->
      match ransacA min_samples residual_threshold max_trials pts gA,
            ransacB min_samples residual_threshold max_trials pts gB with
      | Some (a, gA'), Some (b, gB') => a = b /\ R gA' gB'
      | None, None => True
      | _, _ => False
      end) /\
  (forall pts gA gB,
      R gA gB ->
      match pcaA pts gA, pcaB pts gB with
      | Some (a, gA'), Some (b, gB') => a = b /\ R gA' gB'
      | None, None => True
      | _, _ => False
      end).

(** [mA] and [mB] return the same value, or raise both, from states that
    [R] relates, and leave states that [R] relates. *)
Definition simulates {A} (R : rngA -> rngB -> Prop)
    (mA : Exec.exec (world rngA) A) (mB : Exec.exec (world rngB) A) : Prop :=
  forall wA wB,
    R (rng_state wA) (rng_state wB) ->
    fst (mA wA) = fst (mB wB) /\
    R (rng_state (snd (mA wA))) (rng_state (snd (mB wB))).

(** [mA] and [mB] proceed alike for as long as their libraries answer
    alike.  [nA] and [nB] are the answers the two get; when one of the
    lists, followed by anything, is the other one followed by anything,
    the two have returned the same value on the same answers, or raised
    both, or the one that raised was given fewer answers than the lists
    compared. *)
Definition in_step {A} (tA : rngA -> list answer) (tB : rngB -> list answer)
    (mA : Exec.exec (world rngA) A) (mB : Exec.exec (world rngB) A) : Prop :=
  forall wA wB,
    exists nA nB,
      tA (rng_state (snd (mA wA))) = tA (rng_state wA) ++ nA /\
      tB (rng_state (snd (mB wB))) = tB (rng_state wB) ++ nB /\
      forall restA restB,
        nA ++ restA = nB ++ restB ->
        match fst (mA wA), fst (mB wB) with
        | Some a, Some b => a = b /\ nA = nB
        | None, None => True
        | None, Some _ => restA <> []
        | Some _, None => restB <> []
        end.

End TwoLibraries.

(* ================================================================== *)
(** ** Stand-ins for the libraries and sample inputs *)
(* ================================================================== *)

(** Concrete instances of the parameters of the embedding, used to run it on
    sample events. *)
Module Sample.

(** A generator state that counts the calls made to RANSAC. *)
Definition rng : Type := nat.

Definition v_drift : f8 := of_Z 2.
Definition crs_ticks : f8 := of_Z 1.

(** A geometry whose lookup table covers channels [0 .. 63] and holds [nan]
    elsewhere; the anode of every io group is at [z = 0]. *)
Definition get_z_coordinate (iogroup iochannel : Z) (drift : f8) : f8 :=
  if ((0 <=? iochannel) && (iochannel <? 64))%Z then drift else NaN.

(** DBSCAN on a point set that [eps] spans: every point is a core point as
    soon as there are [min_samples] points, and all are noise otherwise.
    As scikit-learn does, it raises on an empty array and on a non-finite
    entry. *)
Definition dbscan_fit (eps : f8) (min_samples : Z) (pts : list vec3)
  : option (list Z) :=
  match pts with
  | [] => None
  | _ :: _ =>
      if forallb v_finite pts then
        Some (repeat (if (min_samples <=? Z.of_nat (length pts))%Z
                      then 0%Z else (-1)%Z) (length pts))
      else None
  end.

(** RANSAC on points that all lie within the threshold of one line: every
    point is an inlier.  As scikit-image does, it raises unless
    [0 < min_samples <= len(pts)]. *)
Definition ransac_fit (min_samples : Z) (residual_threshold : f8)
    (max_trials : Z) (pts : list vec3) (g : rng)
  : option (option (list bool) * rng) :=
  if ((0 <? min_samples) && (min_samples <=? Z.of_nat (length pts)))%Z
  then Some (Some (repeat true (length pts)), S g)
  else None.

(** RANSAC that finds no inlier at all (a zero threshold): scikit-image
    then returns [None] for the mask. *)
Definition ransac_none (min_samples : Z) (residual_threshold : f8)
    (max_trials : Z) (pts : list vec3) (g : rng)
  : option (option (list bool) * rng) :=
  if ((0 <? min_samples) && (min_samples <=? Z.of_nat (length pts)))%Z
  then Some (None, S g)
  else None.

(** PCA on points spread along the x axis, by the exact solver, which
    leaves the generator alone. *)
Definition pca_fit (pts : list vec3) (g : rng) : option (vec3 * rng) :=
  match pts with
  | [] => None
  | _ :: _ =>
      if forallb v_finite pts then Some (V3 (of_Z 1) (of_Z 0) (of_Z 0), g)
      else None
  end.

(** Placeholders for [np.sqrt] and [np.arctan2]; they agree with the real
    functions at the arguments [0] and [1] resp. [(0, 1)] that arise for a
    unit vector along x, which no statement below depends on. *)
Definition np_sqrt (a : f8) : f8 := a.
Definition arctan2 (y x : f8) : f8 := of_Z 0.

Definition cfg : config :=
  {| dbscan_eps := of_Z 25;
     dbscan_min_samples := 3;
     ransac_min_samples := 2;
     ransac_residual_threshold := of_Z 8;
     ransac_max_trials := 100;
     max_iterations := 5 |}.

Definition hit (masked : bool) (x : Z) (channel : Z) : Hit.t :=
  {| Hit.masked := masked;
     Hit.ts := of_Z 10;
     Hit.q := of_Z 1;
     Hit.iogroup := 1;
     Hit.iochannel := channel;
     Hit.px := of_Z x;
     Hit.py := of_Z 0 |}.

(** Three hits in a row and an empty slot. *)
Definition line_event : event :=
  {| t0_ts := of_Z 10;
     hits := [hit false 0 1; hit false 1 2; hit false 2 3; hit true 0 0] |}.

(** One hit and three empty slots. *)
Definition single_event : event :=
  {| t0_ts := of_Z 10;
     hits := [hit true 0 0; hit false 1 2; hit true 0 0; hit true 0 0] |}.

(** One hit on a channel that the geometry does not cover. *)
Definition unmapped_event : event :=
  {| t0_ts := of_Z 10;
     hits := [hit false 1 70] |}.

Definition w0 : world rng := World 0%nat [].

(** A slice of two events, and the track ids [find_tracks] returns for
    it with the stand-ins above. *)
Definition two_events : list event := [line_event; single_event].

Definition two_events_ids : list (list (Z * bool)) :=
  [[(0, false); (0, false); (0, false); (-1, true)];
   [(-1, true); (-1, false); (-1, true); (-1, true)]]%Z.

(** Two hits next to each other, with a configuration under which they
    form a cluster that is too small for RANSAC: every round finds the
    same cluster and skips it, up to the cap of [max_iterations]. *)
Definition pair_event : event :=
  {| t0_ts := of_Z 10;
     hits := [hit false 0 1; hit false 1 2] |}.

Definition cfg_small : config :=
  {| dbscan_eps := of_Z 25;
     dbscan_min_samples := 1;
     ransac_min_samples := 2;
     ransac_residual_threshold := of_Z 8;
     ransac_max_trials := 100;
     max_iterations := 5 |}.

(** The row state [find_tracks] starts the first event from. *)
Definition st0 : row_state :=
  RowState [true; true; true; false] [-1; -1; -1; -1]%Z (-1).

(** The same state, with something already in the log. *)
Definition w1 : world rng := World 0%nat [CallPca []].

(** A centroid, and two unit axes, one of them in the plane z = 0. *)
Definition centroid : vec3 := V3 (of_Z 1) (of_Z 2) (of_Z 3).
Definition axis_z : vec3 := V3 (of_Z 0) (of_Z 0) (of_Z 1).
Definition axis_x : vec3 := V3 (of_Z 1) (of_Z 0) (of_Z 0).

(** An event whose slots are all empty. *)
Definition empty_event : event :=
  {| t0_ts := of_Z 10;
     hits := [hit true 0 0; hit true 0 0] |}.

(** A configuration that allows no round. *)
Definition cfg_idle : config :=
  {| dbscan_eps := of_Z 25;
     dbscan_min_samples := 3;
     ransac_min_samples := 2;
     ransac_residual_threshold := of_Z 8;
     ransac_max_trials := 100;
     max_iterations := 0 |}.

(** A data manager whose tracklet dataset already holds 100 records. *)
Definition reserve_data (n : nat) : Z * Z := (100, 100 + Z.of_nat n)%Z.

(** The hits of event [i] are numbered from [10 * i]. *)
Definition hit_id (i k : nat) : Z := (10 * Z.of_nat i + Z.of_nat k)%Z.

(** The source slice of [two_events]. *)
Definition source_slice : Z * Z := (7, 9)%Z.

(** Two points of the line through [centroid] along [axis_x], and two
    points off it. *)
Definition on_line : list vec3 :=
  [V3 (of_Z 3) (of_Z 2) (of_Z 3); V3 (of_Z (-4)) (of_Z 2) (of_Z 3)].

Definition off_line : list vec3 :=
  [V3 (of_Z 0) (of_Z 0) (of_Z 0); V3 (of_Z 2) (of_Z 5) (of_Z 6)].

(** Four hits at the corners (0, 10), (0, 0), (10, 0) and (20, 0) of the
    plane z = 0: the last three lie on a line, and so do the first two. *)
Definition hit_at (x y : Z) (channel : Z) : Hit.t :=
  {| Hit.masked := false;
     Hit.ts := of_Z 10;
     Hit.q := of_Z 1;
     Hit.iogroup := 1;
     Hit.iochannel := channel;
     Hit.px := of_Z x;
     Hit.py := of_Z y |}.

Definition corner_event : event :=
  {| t0_ts := of_Z 10;
     hits := [hit_at 0 10 1; hit_at 0 0 2; hit_at 10 0 3; hit_at 20 0 4] |}.

(** A configuration with a single RANSAC trial and a threshold below the
    spacing of the hits of [corner_event]. *)
Definition cfg_draw : config :=
  {| dbscan_eps := of_Z 25;
     dbscan_min_samples := 2;
     ransac_min_samples := 2;
     ransac_residual_threshold := of_Z 1;
     ransac_max_trials := 1;
     max_iterations := 3 |}.

Definition v_cross (a b : vec3) : vec3 :=
  V3 (vy a * vz b - vz a * vy b)
     (vz a * vx b - vx a * vz b)
     (vx a * vy b - vy a * vx b).

(** One trial of RANSAC with a sample of two points, which the generator
    picks: state [g] draws the points number [g mod n] and, among the
    others, number [(g / n) mod (n - 1)] after it.  The inliers are the
    points closer than the threshold to the line through the sample
    (distances are compared squared); without any, the mask is [None].
    The call raises unless [0 < min_samples <= len(pts)]. *)
Definition ransac_draw (min_samples : Z) (residual_threshold : f8)
    (max_trials : Z) (pts : list vec3) (g : rng)
  : option (option (list bool) * rng) :=
  if ((0 <? min_samples) && (min_samples <=? Z.of_nat (length pts)))%Z
  then
    let n := length pts in
    let i := (g mod n)%nat in
    let j := ((i + 1 + (g / n) mod (n - 1)) mod n)%nat in
    let a := nth i pts (V3 zero zero zero) in
    let d := v_sub (nth j pts (V3 zero zero zero)) a in
    let inliers :=
      map (fun p =>
             let c := v_cross d (v_sub p a) in
             F8.ltb (v_dot c c)
                    (residual_threshold * residual_threshold * v_dot d d)%f8)
          pts in
    Some (if existsb (fun b => b) inliers then Some inliers else None, S g)
  else None.

(** PCA on centred points that lie along the x axis or along the y axis:
    the unit vector of that axis; the exact solver leaves the generator
    alone. *)
Definition pca_axis (pts : list vec3) (g : rng) : option (vec3 * rng) :=
  match pts with
  | [] => None
  | _ :: _ =>
      if forallb v_finite pts then
        Some (if existsb (fun p => negb (vx p == zero)%f8) pts
              then V3 (of_Z 1) (of_Z 0) (of_Z 0)
              else V3 (of_Z 0) (of_Z 1) (of_Z 0), g)
      else None
  end.

End Sample.

Section TrackletReconstruction.

(** [resources['LArData'].v_drift], [resources['RunData'].crs_ticks] and
    [resources['Geometry'].get_z_coordinate], applied elementwise. *)
Variable v_drift : f8.
Variable crs_ticks : f8.
Variable get_z_coordinate : Z -> Z -> f8 -> f8.

(** [np.sqrt] and [np.arctan2]. *)
Variable np_sqrt : f8 -> f8.
Variable arctan2 : f8 -> f8 -> f8.

(** The random generator behind [skimage.measure.ransac]. *)
Variable rng : Type.

(** [cluster.DBSCAN(eps, min_samples).fit(pts).labels_]; [None] when [fit]
    raises. *)
Variable dbscan_fit : f8 -> Z -> list vec3 -> option (list Z).

(** [ransac(pts, LineModelND, min_samples, residual_threshold, max_trials)]:
    the second component of the result ([None] inside when skimage returns
    no inlier mask) and the generator state it leaves; [None] outside when
    the call raises. *)
Variable ransac_fit :
  Z -> f8 -> Z -> list vec3 -> rng -> option (option (list bool) * rng).

(** [dcomp.PCA(n_components=1).fit(pts).components_[0]] and the generator
    state the fit leaves (the randomized solver that some releases of
    scikit-learn select for large point sets draws from the same
    generator); [None] when [fit] raises. *)
Variable pca_fit : list vec3 -> rng -> option (vec3 * rng).

(** [self]. *)
Variable cfg : config.

Definition M : Type -> Type := Exec.exec (world rng).

Local Open Scope exec_scope.

Definition record (a : action) : M unit :=
  fun w => (Some tt, World (rng_state w) (log w ++ [a])).

(** *** hit_xyz *)

Definition drift_d (h : Hit.t) (t0 : f8) : f8 :=
  let drift_t := (Hit.ts h - t0)%f8 in
  (drift_t * (v_drift * crs_ticks))%f8.

(** One row of the last axis of [hit_xyz(hits, t0)]. *)
Definition hit_xyz1 (h : Hit.t) (t0 : f8) : vec3 :=
  let z := get_z_coordinate (Hit.iogroup h) (Hit.iochannel h) (drift_d h t0) in
  V3 (Hit.px h) (Hit.py h) z.

Definition hit_xyz (evs : list event) : list (list vec3) :=
  map (fun e => map (fun h => hit_xyz1 h (t0_ts e)) (hits e)) evs.

(** *** The calls into the libraries *)

Definition dbscan (pts : list vec3) : M (list Z) :=
  record (CallDbscan pts) ;;;
  Exec.lift (dbscan_fit (dbscan_eps cfg) (dbscan_min_samples cfg) pts).

Definition ransac (pts : list vec3) : M (option (list bool)) :=
  record (CallRansac pts) ;;;
  fun w =>
    match ransac_fit (ransac_min_samples cfg) (ransac_residual_threshold cfg)
                     (ransac_max_trials cfg) pts (rng_state w) with
    | Some (inliers, g) => (Some inliers, World g (log w))
    | None => (None, w)
    end.

Definition pca (pts : list vec3) : M vec3 :=
  record (CallPca pts) ;;;
  fun w =>
    match pca_fit pts (rng_state w) with
    | Some (c, g) => (Some c, World g (log w))
    | None => (None, w)
    end.

(** *** _do_dbscan, _do_ransac *)

Definition _do_dbscan (xyz : list vec3) (mask : list bool) : M (list Z) :=
  pts <- Exec.lift (Np.select xyz mask) ;;
  labels_ <- dbscan pts ;;
  let track_ids := repeat (-1)%Z (length mask) in
  Exec.lift (Np.put_mask track_ids mask labels_).

Definition _do_ransac (xyz : list vec3) (mask : list bool)
  : M (option (list bool)) :=
  pts <- Exec.lift (Np.select xyz mask) ;;
  ransac pts.

(** *** find_tracks *)

(** [mask[mask] = inliers]; a [None] stored into a boolean array is
    [False]. *)
Definition keep_inliers (mask : list bool) (inliers : option (list bool))
  : option (list bool) :=
  match inliers with
  | Some v => Np.put_mask mask mask v
  | None => Np.set_where mask mask false
  end.

(** Body of [for id_ in np.unique(final_track_ids)]. *)
Definition assign_track (i : nat) (final_track_ids : list Z) (id_ : Z)
    (st : row_state) : M row_state :=
  if (id_ =? -1)%Z then Exec.ret st
  else
    let mask := Np.eq_scalar final_track_ids id_ in
    let current := (current_track_id st + 1)%Z in
    track_id' <- Exec.lift (Np.set_where (track_id st) mask current) ;;
    record (Assign i current mask) ;;;
    iter_mask' <- Exec.lift (Np.set_where (iter_mask st) mask false) ;;
    Exec.ret (RowState iter_mask' track_id' current).

(** Body of [for id_ in np.unique(track_ids)]. *)
Definition fit_cluster (i : nat) (xyz : list vec3) (track_ids : list Z)
    (id_ : Z) (st : row_state) : M row_state :=
  if (id_ =? -1)%Z then Exec.ret st
  else
    let mask := Np.eq_scalar track_ids id_ in
    if (Np.sum mask <=? ransac_min_samples cfg)%Z then Exec.ret st
    else
      inliers <- _do_ransac xyz mask ;;
      mask' <- Exec.lift (keep_inliers mask inliers) ;;
      if (Np.sum mask' <? 1)%Z then Exec.ret st
      else
        final_track_ids <- _do_dbscan xyz mask' ;;
        Exec.for_each (Np.unique final_track_ids)
                      (assign_track i final_track_ids) st.

(** One pass of the body of [for _ in range(self.max_iterations)], up to
    the test that ends the loop; it returns the labels of the pass. *)
Definition iteration (i : nat) (xyz : list vec3) (st : row_state)
  : M (list Z * row_state) :=
  track_ids <- _do_dbscan xyz (iter_mask st) ;;
  record (Round i track_ids) ;;;
  st' <- Exec.for_each (Np.unique track_ids) (fit_cluster i xyz track_ids) st ;;
  Exec.ret (track_ids, st').

(** [np.all(track_ids == -1) or not np.any(iter_mask[i])]. *)
Definition stop (track_ids : list Z) (st : row_state) : bool :=
  Np.all (Np.eq_scalar track_ids (-1)) || negb (Np.any (iter_mask st)).

(** [for _ in range(n): ...; if ...: break]. *)
Fixpoint iterations (n : nat) (i : nat) (xyz : list vec3) (st : row_state)
  : M row_state :=
  match n with
  | O => Exec.ret st
  | S n' =>
      r <- iteration i xyz st ;;
      if stop (fst r) (snd r) then Exec.ret (snd r)
      else iterations n' i xyz (snd r)
  end.

(** Body of [for i in range(hits.shape[0])]: it returns row [i] of
    [track_id]. *)
Definition find_tracks_event (i : nat) (xyz : list vec3) (hs : list Hit.t)
  : M (list Z) :=
  let iter_mask0 := map (fun h => true && negb (Hit.masked h)) hs in
  let track_id0 := repeat (-1)%Z (length hs) in
  if negb (Np.any iter_mask0) then Exec.ret track_id0
  else
    st <- iterations (Z.to_nat (max_iterations cfg)) i xyz
                     (RowState iter_mask0 track_id0 (-1)) ;;
    Exec.ret (track_id st).

(** [find_tracks(hits, t0)]: the masked array [ma.array(track_id,
    mask=hits['id'].mask)], each entry with its mask bit. *)
Definition find_tracks (evs : list event) : M (list (list (Z * bool))) :=
  let xyz := hit_xyz evs in
  track_id <- Exec.for_rows
                (fun i ex => find_tracks_event i (snd ex) (hits (fst ex)))
                0 (combine evs xyz) ;;
  Exec.ret (map (fun er => combine (snd er) (map Hit.masked (hits (fst er))))
                (combine evs track_id)).

(** *** do_pca, theta, phi *)

(** [np.linalg.norm] of a vector given by its components. *)
Definition norm (v : list f8) : f8 :=
  np_sqrt (Np.fsum (map (fun a => (F8.abs a * F8.abs a)%f8) v)).

Definition do_pca (xyz : list vec3) (mask : list bool) : M (vec3 * vec3) :=
  pts <- Exec.lift (Np.select xyz mask) ;;
  let centroid := mean0 pts in
  c0 <- pca (map (fun p => v_sub p centroid) pts) ;;
  let n := norm [vx c0; vy c0; vz c0] in
  let axis := V3 (vx c0 / n) (vy c0 / n) (vz c0 / n) in
  Exec.ret (centroid, axis).

Definition theta (axis : vec3) : f8 :=
  arctan2 (norm [vx axis; vy axis]) (vz axis).

Definition phi (axis : vec3) : f8 :=
  arctan2 (vy axis) (vx axis).

(** *** calc_tracks *)

(** [n_tracks]: one more than the largest unmasked id, at least 1. *)
Definition n_tracks (track_ids : list (list (Z * bool))) : nat :=
  let unmasked := filter (fun p => negb (snd p)) (concat track_ids) in
  match Np.zmax (map fst unmasked) with
  | Some m => Z.to_nat (Z.max 1 (m + 1))
  | None => 1%nat
  end.

(** The mask of the hits of track [j] in one event:
    [(track_ids[i] == j) & (~track_ids.mask[i]) & (~hits['id'].mask[i])]. *)
Definition track_mask (tids : list (Z * bool)) (hs : list Hit.t) (j : Z)
  : option (list bool) :=
  match Np.logical_and (Np.eq_scalar (map fst tids) j)
                       (Np.logical_not (map snd tids)) with
  | Some m => Np.logical_and m (Np.logical_not (map Hit.masked hs))
  | None => None
  end.

(** Body of [for j in range(tracks.shape[1])]: entry [(i, j)] of the
    result, [None] when it stays masked. *)
Definition calc_track (xyz : list vec3) (hs : list Hit.t)
    (tids : list (Z * bool)) (j : nat) : M (option Track.t) :=
  mask <- Exec.lift (track_mask tids hs (Z.of_nat j)) ;;
  if (Np.count mask <? 2)%nat then Exec.ret None
  else
    ca <- do_pca xyz mask ;;
    let centroid := fst ca in
    let axis := snd ca in
    pts <- Exec.lift (Np.select xyz mask) ;;
    lim <- Exec.lift (projected_limits centroid axis pts) ;;
    let r_min := fst lim in
    let r_max := snd lim in
    let residual := track_residual centroid axis pts in
    let xyp_ := xyp axis centroid in
    members <- Exec.lift (Np.select hs mask) ;;
    ts_start <- Exec.lift (Np.amin (map Hit.ts members)) ;;
    ts_end <- Exec.lift (Np.amax (map Hit.ts members)) ;;
    let d := v_sub r_max r_min in
    Exec.ret (Some
      {| Track.theta := theta axis;
         Track.phi := phi axis;
         Track.xp := fst xyp_;
         Track.yp := snd xyp_;
         Track.nhit := Z.of_nat (Np.count mask);
         Track.q := Np.fsum (map Hit.q members);
         Track.ts_start := ts_start;
         Track.ts_end := ts_end;
         Track.residual := residual;
         Track.length := norm [vx d; vy d; vz d];
         Track.start := r_min;
         Track.end_ := r_max |}).

(** Body of [for i in range(tracks.shape[0])]: row [i] of the result;
    [track_ids[i]] raises [IndexError] when the row is missing. *)
Definition calc_tracks_event (track_ids : list (list (Z * bool))) (i : nat)
    (ex : event * list vec3) : M (list (option Track.t)) :=
  tids <- Exec.lift (nth_error track_ids i) ;;
  Exec.for_rows (fun _ j => calc_track (snd ex) (hits (fst ex)) tids j)
                0 (seq 0 (n_tracks track_ids)).

(** [calc_tracks(hits, t0, track_ids)]: the masked array of tracklets. *)
Definition calc_tracks (evs : list event) (track_ids : list (list (Z * bool)))
  : M (list (list (option Track.t))) :=
  let xyz := hit_xyz evs in
  Exec.for_rows (calc_tracks_event track_ids) 0 (combine evs xyz).

(** *** run *)

(** [tracks[tracks_mask]]: the records that are written. *)
Definition unmasked_tracks (tracks : list (list (option Track.t)))
  : list Track.t :=
  concat (map (fun row => concat (map (fun o => match o with
                                                 | Some t => [t]
                                                 | None => []
                                                 end) row)) tracks).

(** The part of [run] that precedes the writes to the data manager: the
    track ids of the hits, the tracklets and their number. *)
Definition run (evs : list event)
  : M (list (list (Z * bool)) * list (list (option Track.t)) * nat) :=
  track_ids <- find_tracks evs ;;
  tracks <- calc_tracks evs track_ids ;;
  let n := List.length (unmasked_tracks tracks) in
  Exec.ret (track_ids, tracks, n).

(** The (track id, hit id) references of [run], row after row. *)
Definition track_hit_refs (hit_id : nat -> nat -> Z)
    (track_ref_id : list (list (option Z)))
    (track_ids : list (list (Z * bool))) (evs : list event)
  : M (list (Z * Z)) :=
  if negb (length track_ids =? length evs)%nat then Exec.raise
  else
    rows <- Exec.for_rows
              (fun i x =>
                 Exec.lift (track_hit_ref_row hit_id i (fst x) (fst (snd x))
                                              (hits (snd (snd x)))))
              0 (combine track_ref_id (combine track_ids evs)) ;;
    Exec.ret (concat rows).

(** [run(source_name, source_slice, cache)], as far as the arguments of
    its writes.  [reserve_data n] is the slice that
    [data_manager.reserve_data(tracklet_dset_name, n)] returns. *)
Definition run_writes (reserve_data : nat -> Z * Z)
    (hit_id : nat -> nat -> Z) (source_slice : Z * Z) (evs : list event)
  : M output :=
  r <- run evs ;;
  let track_ids := fst (fst r) in
  let tracks := snd (fst r) in
  let n_tracks := snd r in
  let tracks_mask := map (map Np.is_set) tracks in
  let slice := reserve_data n_tracks in
  ids <- Exec.lift (Np.place tracks_mask (map Np.u4 (Np.r_ slice))) ;;
  track_ref_id <- Exec.lift (Np.take_along_axis ids (map (map fst) track_ids)) ;;
  ref <- track_hit_refs hit_id track_ref_id track_ids evs ;;
  ev_id <- Exec.lift (Np.broadcast_rows (Np.r_ source_slice) (length tracks)) ;;
  Exec.ret {| tracks_slice := slice;
              written := with_ids ids tracks;
              track_hit_ref := ref;
              event_track_ref := event_track_refs ev_id ids |}.

(** What [calc_tracks] relies on from PCA: the fit of one component to
    two or more finite points returns. *)
Definition pca_total : Prop :=
  forall pts g,
    (2 <= length pts)%nat -> forallb v_finite pts = true ->
    exists c g', pca_fit pts g = Some (c, g').

(** What [run] relies on from the data manager: the slice it reserves for
    [n] records has [n] indices, which fit the [u4] column [id]. *)
Definition reserves (reserve_data : nat -> Z * Z) (n : nat) : Prop :=
  (0 <= fst (reserve_data n))%Z /\
  snd (reserve_data n) = (fst (reserve_data n) + Z.of_nat n)%Z /\
  (snd (reserve_data n) <= 2 ^ 32)%Z.

(** The rows of [track_ids] have the shape of the rows of [hits]. *)
Definition same_shape (track_ids : list (list (Z * bool)))
    (evs : list event) : Prop :=
  length track_ids = length evs /\
  forall i tids e,
    nth_error track_ids i = Some tids -> nth_error evs i = Some e ->
    length tids = length (hits e).

(** *** Properties of the log *)

(** Whatever the state it starts from, and whether it returns or raises,
    [m] only appends to the log, and only actions that satisfy [Q]. *)
Definition emits {A} (m : M A) (Q : action -> Prop) : Prop :=
  forall w, exists acts, log (snd (m w)) = log w ++ acts /\ Forall Q acts.

(** The actions [find_tracks] may take: RANSAC is only run on more than
    [ransac_min_samples] points, and PCA is not run at all. *)
Definition fit_action (a : action) : Prop :=
  match a with
  | CallRansac pts => (ransac_min_samples cfg < Z.of_nat (length pts))%Z
  | CallPca _ => False
  | _ => True
  end.

(** What [find_tracks] relies on from the libraries, for point sets made of
    points that satisfy [accept]: DBSCAN labels every point of a non-empty
    set; RANSAC, given more than [ransac_min_samples] points, returns no
    mask or a mask with one entry per point. *)
Definition dbscan_total (accept : vec3 -> bool) : Prop :=
  forall pts,
    pts <> [] -> forallb accept pts = true ->
    exists labels,
      dbscan_fit (dbscan_eps cfg) (dbscan_min_samples cfg) pts = Some labels /\
      length labels = length pts.

Definition ransac_total (accept : vec3 -> bool) : Prop :=
  forall pts g,
    (ransac_min_samples cfg < Z.of_nat (length pts))%Z ->
    forallb accept pts = true ->
    exists inliers g',
      ransac_fit (ransac_min_samples cfg) (ransac_residual_threshold cfg)
                 (ransac_max_trials cfg) pts g = Some (inliers, g') /\
      forall v, inliers = Some v -> length v = length pts.

(** The projected points of the unmasked hits of [evs] satisfy [accept]. *)
Definition inputs_accepted (accept : vec3 -> bool) (evs : list event) : Prop :=
  forall e h,
    In e evs -> In h (hits e) -> Hit.masked h = false ->
    accept (hit_xyz1 h (t0_ts e)) = true.

(** Whatever the state it starts from, the first thing [m] does is [a]. *)
Definition starts_with {A} (m : M A) (a : action) : Prop :=
  forall w, exists rest, log (snd (m w)) = log w ++ a :: rest.

(** RANSAC returned no inlier: no mask at all, or a mask with no entry
    set. *)
Definition no_inliers (inliers : option (list bool)) : Prop :=
  match inliers with
  | None => True
  | Some v => Np.any v = false
  end.

(** The actions of one cluster of event [i]: as [fit_action], and no round
    begins; the stores go to row [i]. *)
Definition cluster_action (i : nat) (a : action) : Prop :=
  match a with
  | CallRansac pts => (ransac_min_samples cfg < Z.of_nat (length pts))%Z
  | CallDbscan _ => True
  | Assign i' _ _ => i' = i
  | Round _ _ | CallPca _ => False
  end.

(** The actions of event [i]: as [fit_action], with every marker on row
    [i]. *)
Definition row_action (i : nat) (a : action) : Prop :=
  match a with
  | CallRansac pts => (ransac_min_samples cfg < Z.of_nat (length pts))%Z
  | CallDbscan _ => True
  | Assign i' _ _ | Round i' _ => i' = i
  | CallPca _ => False
  end.

(** Whatever the state it starts from, and whether it returns or raises,
    [m] begins at most [n] rounds of event [i]. *)
Definition bounded_rounds {A} (m : M A) (i n : nat) : Prop :=
  forall w, exists acts,
    log (snd (m w)) = log w ++ acts /\ (length (rounds_of i acts) <= n)%nat.

(** [st'] has the shape of [st] and no more eligible positions. *)
Definition shrinks (st st' : row_state) : Prop :=
  length (track_id st') = length (track_id st) /\
  length (iter_mask st') = length (iter_mask st) /\
  forall j, nth j (iter_mask st') false = true ->
            nth j (iter_mask st) false = true.

(** [selected_action], for some event of [evs]. *)
Definition event_action (evs : list event) (a : action) : Prop :=
  exists e,
    In e evs /\
    selected_action (map (fun h => hit_xyz1 h (t0_ts e)) (hits e))
                    (unmasked (hits e)) a.

Set Default Proof Using "Type".

(** Drops from the context the parameters of the embedding that the goal
    does not mention. *)
Ltac forget_unused :=
  try clear pca_fit; try clear ransac_fit; try clear dbscan_fit;
  try clear cfg; try clear arctan2; try clear np_sqrt;
  try clear get_z_coordinate; try clear crs_ticks; try clear v_drift;
  try clear rng.

(* ================================================================== *)
(** ** Facts about [f8] arithmetic *)
(* ================================================================== *)

Lemma sign_neg_zero : sign_neg 0%Qc = None.
Proof. reflexivity. Qed.

Lemma sign_neg_pos (p : Qc) : (0 < p)%Qc -> sign_neg p = Some false.
Proof.
  intros H. unfold sign_neg.
  assert (E : (p ?= 0)%Qc = Gt) by (apply Qcgt_alt; exact H).
  now rewrite E.
Qed.

Lemma sign_neg_neg (p : Qc) : (p < 0)%Qc -> sign_neg p = Some true.
Proof.
  intros H. unfold sign_neg.
  assert (E : (p ?= 0)%Qc = Lt) by (apply Qclt_alt; exact H).
  now rewrite E.
Qed.

Lemma Qc_opp_pos (p : Qc) : (p < 0)%Qc -> (0 < - p)%Qc.
Proof.
  intros H. apply Qclt_minus_iff in H. now rewrite Qcplus_0_l in H.
Qed.

Lemma Qc_mult_pos_pos (p q : Qc) : (0 < p)%Qc -> (0 < q)%Qc -> (0 < p * q)%Qc.
Proof.
  intros Hp Hq.
  replace 0%Qc with (0 * q)%Qc by ring.
  now apply Qcmult_lt_compat_r.
Qed.

Lemma Qc_mult_neg_pos (p q : Qc) : (p < 0)%Qc -> (0 < q)%Qc -> (p * q < 0)%Qc.
Proof.
  intros Hp Hq.
  replace 0%Qc with (0 * q)%Qc by ring.
  now apply Qcmult_lt_compat_r.
Qed.

(** The sign of a product of finite values. *)
Lemma sign_neg_mult (p q : Qc) :
  sign_neg (p * q) =
  match sign_neg p, sign_neg q with
  | Some a, Some b => Some (xorb a b)
  | _, _ => None
  end.
Proof.
  destruct (Qc_dec p 0) as [[Hp | Hp] | Hp], (Qc_dec q 0) as [[Hq | Hq] | Hq];
    try (subst; rewrite ?Qcmult_0_l, ?Qcmult_0_r, sign_neg_zero;
         try destruct (sign_neg _); reflexivity).
  - rewrite (sign_neg_neg Hp), (sign_neg_neg Hq). simpl.
    apply sign_neg_pos.
    replace (p * q)%Qc with ((- p) * (- q))%Qc by ring.
    apply Qc_mult_pos_pos; now apply Qc_opp_pos.
  - rewrite (sign_neg_neg Hp), (sign_neg_pos Hq). simpl.
    apply sign_neg_neg. now apply Qc_mult_neg_pos.
  - rewrite (sign_neg_pos Hp), (sign_neg_neg Hq). simpl.
    apply sign_neg_neg. rewrite Qcmult_comm. now apply Qc_mult_neg_pos.
  - rewrite (sign_neg_pos Hp), (sign_neg_pos Hq). simpl.
    apply sign_neg_pos. now apply Qc_mult_pos_pos.
Qed.

(** Multiplication of [f8] values is associative, special values
    included. *)
Lemma f8_mul_assoc (a b c : f8) : (a * (b * c) = a * b * c)%f8.
Proof.
  destruct a as [p| | |], b as [q| | |], c as [r| | |]; simpl;
    try reflexivity;
    try (now rewrite Qcmult_assoc);
    unfold scale_inf; rewrite ?sign_neg_mult;
    repeat (simpl; unfold scale_inf;
            match goal with
            | H : sign_neg ?x = _ |- context [sign_neg ?x] => rewrite H
            | |- context [sign_neg ?x] =>
                let E := fresh "E" in destruct (sign_neg x) as [[|]|] eqn:E
            end); reflexivity.
Qed.

(* ================================================================== *)
(** ** Facts about the numpy idioms *)
(* ================================================================== *)

Lemma count_cons (b : bool) (m : list bool) :
  Np.count (b :: m) = ((if b then 1 else 0) + Np.count m)%nat.
Proof. unfold Np.count. simpl. now destruct b. Qed.

Lemma pick_length {A} (a : list A) (mask : list bool) :
  length a = length mask -> length (Np.pick a mask) = Np.count mask.
Proof.
  revert mask. induction a as [|x a IH]; intros [|m mask] H;
    try discriminate; [reflexivity |].
  simpl in H. injection H as H. rewrite count_cons. simpl.
  destruct m; simpl; now rewrite IH.
Qed.

Lemma select_Some {A} (a : list A) (mask : list bool) (r : list A) :
  Np.select a mask = Some r ->
  length a = length mask /\ r = Np.pick a mask /\ length r = Np.count mask.
Proof.
  unfold Np.select. destruct (length a =? length mask)%nat eqn:E;
    [|discriminate].
  apply Nat.eqb_eq in E. intros [= <-]. auto using pick_length.
Qed.

Lemma select_ok {A} (a : list A) (mask : list bool) :
  length a = length mask -> Np.select a mask = Some (Np.pick a mask).
Proof.
  intros H. unfold Np.select. now rewrite H, Nat.eqb_refl.
Qed.

Lemma store_length {A} (a : list A) (mask : list bool) (v : A) :
  length (Np.store a mask v) = length a.
Proof.
  revert mask. induction a as [|x a IH]; intros [|m mask]; simpl; auto.
Qed.

Lemma store_nth {A} (a : list A) (mask : list bool) (v d : A) (j : nat) :
  length a = length mask ->
  nth j (Np.store a mask v) d = if nth j mask false then v else nth j a d.
Proof.
  revert mask j. induction a as [|x a IH]; intros [|m mask] j H;
    try discriminate.
  - now destruct j.
  - simpl in H. injection H as H. destruct j; simpl; [reflexivity | auto].
Qed.

Lemma set_where_Some {A} (a : list A) (mask : list bool) (v : A) (r : list A) :
  Np.set_where a mask v = Some r ->
  length a = length mask /\ r = Np.store a mask v.
Proof.
  unfold Np.set_where. destruct (length a =? length mask)%nat eqn:E;
    [|discriminate].
  apply Nat.eqb_eq in E. now intros [= <-].
Qed.

Lemma set_where_ok {A} (a : list A) (mask : list bool) (v : A) :
  length a = length mask -> Np.set_where a mask v = Some (Np.store a mask v).
Proof.
  intros H. unfold Np.set_where. now rewrite H, Nat.eqb_refl.
Qed.

Lemma scatter_length {A} (a : list A) (mask : list bool) (vals : list A) :
  length (Np.scatter a mask vals) = length a.
Proof.
  revert mask vals. induction a as [|x a IH]; intros [|m mask] vals; simpl;
    auto.
  destruct m; [destruct vals|]; simpl; auto.
Qed.

Lemma scatter_nth_unset {A} (a : list A) (mask : list bool) (vals : list A)
    (d : A) (j : nat) :
  nth j mask false = false ->
  nth j (Np.scatter a mask vals) d = nth j a d.
Proof.
  revert mask vals j. induction a as [|x a IH]; intros [|m mask] vals j H;
    try reflexivity.
  destruct j; simpl in *.
  - subst m. reflexivity.
  - destruct m; [destruct vals|]; simpl; auto.
Qed.

Lemma put_mask_Some {A} (a : list A) (mask : list bool) (vals r : list A) :
  Np.put_mask a mask vals = Some r ->
  length a = length mask /\ length r = length a /\
  forall d j, nth j mask false = false -> nth j r d = nth j a d.
Proof.
  unfold Np.put_mask. destruct (length a =? length mask)%nat eqn:E;
    [|discriminate]. apply Nat.eqb_eq in E. simpl.
  destruct (length vals =? Np.count mask)%nat.
  - intros [= <-]. split; [assumption|]. split; [apply scatter_length|].
    intros d j Hj. now apply scatter_nth_unset.
  - destruct vals as [|v [|]]; try discriminate. intros [= <-].
    split; [assumption|]. split; [apply store_length|].
    intros d j Hj. rewrite store_nth by assumption. now rewrite Hj.
Qed.

Lemma put_mask_ok {A} (a : list A) (mask : list bool) (vals : list A) :
  length a = length mask -> length vals = Np.count mask ->
  Np.put_mask a mask vals = Some (Np.scatter a mask vals).
Proof.
  intros H1 H2. unfold Np.put_mask. now rewrite H1, H2, !Nat.eqb_refl.
Qed.

Lemma eq_scalar_length (l : list Z) (v : Z) :
  length (Np.eq_scalar l v) = length l.
Proof. apply length_map. Qed.

Lemma eq_scalar_nth (l : list Z) (v : Z) (j : nat) :
  v <> (-1)%Z ->
  nth j (Np.eq_scalar l v) false = (nth j l (-1) =? v)%Z.
Proof.
  intros Hv. unfold Np.eq_scalar.
  pose proof (map_nth (fun x => (x =? v)%Z) l (-1)%Z j) as H.
  cbv beta in H.
  assert (E : (-1 =? v)%Z = false) by (apply Z.eqb_neq; congruence).
  now rewrite E in H.
Qed.

Lemma any_true_iff (mask : list bool) :
  Np.any mask = true <-> exists j, nth j mask false = true.
Proof.
  unfold Np.any. induction mask as [|b mask IH]; simpl.
  - split; [discriminate | intros [[|j] H]; discriminate].
  - rewrite orb_true_iff, IH. split.
    + intros [-> | [j H]]; [now exists 0%nat | now exists (S j)].
    + intros [[|j] H]; [now left | right; now exists j].
Qed.

Lemma any_false_nth (mask : list bool) (j : nat) :
  Np.any mask = false -> nth j mask false = false.
Proof.
  intros H. destruct (nth j mask false) eqn:E; [|reflexivity].
  assert (Np.any mask = true) by (apply any_true_iff; eauto). congruence.
Qed.

Lemma any_count (mask : list bool) :
  Np.any mask = true <-> (0 < Np.count mask)%nat.
Proof.
  unfold Np.any. induction mask as [|b mask IH]; simpl.
  - unfold Np.count. simpl. split; [discriminate | lia].
  - rewrite count_cons. destruct b; simpl; [split; [lia | reflexivity]|].
    exact IH.
Qed.

(** [np.unique] returns each value of the array once. *)
Lemma insert_unique_In (x y : Z) (l : list Z) :
  In y (Np.insert_unique x l) <-> y = x \/ In y l.
Proof.
  induction l as [|z l IH]; simpl.
  - split; [intros [<- | []]; now left | intros [-> | []]; now left].
  - destruct (x ?= z)%Z eqn:E; simpl.
    + apply Z.compare_eq in E. subst.
      split; [now right | intros [-> | H]; [now left | exact H]].
    + split; [intros [<- | H]; auto | intros [-> | H]; auto].
    + rewrite IH.
      split; [intros [<- | [-> | H]]; auto | intros [-> | [<- | H]]; auto].
Qed.

Lemma unique_In (x : Z) (l : list Z) : In x (Np.unique l) <-> In x l.
Proof.
  unfold Np.unique. induction l as [|y l IH]; simpl; [reflexivity|].
  rewrite insert_unique_In, IH. split; intros [-> | H]; auto.
Qed.

Lemma insert_unique_sorted (x : Z) (l : list Z) :
  StronglySorted Z.lt l -> StronglySorted Z.lt (Np.insert_unique x l).
Proof.
  induction 1 as [|z l Hs IH Hz]; simpl.
  - repeat constructor.
  - destruct (x ?= z)%Z eqn:E.
    + now constructor.
    + rewrite Z.compare_lt_iff in E. constructor; [now constructor|].
      constructor; [assumption|].
      rewrite Forall_forall in *. intros y Hy. specialize (Hz y Hy). lia.
    + rewrite Z.compare_gt_iff in E. constructor; [assumption|].
      rewrite Forall_forall in *. intros y Hy.
      apply insert_unique_In in Hy as [-> | Hy]; auto.
Qed.

Lemma unique_sorted (l : list Z) : StronglySorted Z.lt (Np.unique l).
Proof.
  unfold Np.unique. induction l; simpl; [constructor|].
  now apply insert_unique_sorted.
Qed.

Lemma sorted_NoDup (l : list Z) : StronglySorted Z.lt l -> NoDup l.
Proof.
  induction 1 as [|z l Hs IH Hz]; constructor; [|assumption].
  intros Hin. rewrite Forall_forall in Hz. specialize (Hz z Hin). lia.
Qed.

Lemma unique_NoDup (l : list Z) : NoDup (Np.unique l).
Proof. apply sorted_NoDup, unique_sorted. Qed.

(* ================================================================== *)
(** ** Facts about the effect monad and the log *)
(* ================================================================== *)

Lemma bind_Some {S A B} (m : Exec.exec S A) (k : A -> Exec.exec S B)
    (s s' : S) (b : B) :
  Exec.bind m k s = (Some b, s') ->
  exists a s1, m s = (Some a, s1) /\ k a s1 = (Some b, s').
Proof.
  unfold Exec.bind. destruct (m s) as [[a|] s1]; [eauto | discriminate].
Qed.

Lemma bind_ok {S A B} (m : Exec.exec S A) (k : A -> Exec.exec S B)
    (s s1 : S) (a : A) :
  m s = (Some a, s1) -> Exec.bind m k s = k a s1.
Proof. unfold Exec.bind. now intros ->. Qed.

Lemma lift_Some {S A} (o : option A) (s s' : S) (a : A) :
  Exec.lift o s = (Some a, s') -> o = Some a /\ s' = s.
Proof. unfold Exec.lift. now intros [= -> ->]. Qed.

Lemma ret_Some {S A} (a b : A) (s s' : S) :
  Exec.ret a s = (Some b, s') -> b = a /\ s' = s.
Proof. unfold Exec.ret. now intros [= -> ->]. Qed.

Lemma record_Some (a : action) (w w' : world rng) (u : unit) :
  record a w = (Some u, w') ->
  rng_state w' = rng_state w /\ log w' = log w ++ [a].
Proof. unfold record. now intros [= _ <-]. Qed.

(** Decomposition of the hypotheses stating that a computation returned. *)
Ltac exec_inv :=
  repeat match goal with
         | H : Exec.bind _ _ _ = (Some _, _) |- _ =>
             let H1 := fresh "H" in
             apply bind_Some in H as (? & ? & H1 & H)
         | H : Exec.ret _ _ = (Some _, _) |- _ =>
             apply ret_Some in H as [? ?]; subst
         | H : Exec.lift _ _ = (Some _, _) |- _ =>
             apply lift_Some in H as [H ?]; subst
         | H : record _ _ = (Some _, _) |- _ =>
             apply record_Some in H as [? ?]
         end.

Lemma writes_app (i j : nat) (l1 l2 : list action) :
  writes i j (l1 ++ l2) = writes i j l1 ++ writes i j l2.
Proof. apply flat_map_app. Qed.

Lemma assigned_ids_app (i : nat) (l1 l2 : list action) :
  assigned_ids i (l1 ++ l2) = assigned_ids i l1 ++ assigned_ids i l2.
Proof. apply flat_map_app. Qed.

Lemma rounds_of_app (i : nat) (l1 l2 : list action) :
  rounds_of i (l1 ++ l2) = rounds_of i l1 ++ rounds_of i l2.
Proof. apply flat_map_app. Qed.

Lemma only_row_app (i : nat) (l1 l2 : list action) :
  only_row i l1 -> only_row i l2 -> only_row i (l1 ++ l2).
Proof. unfold only_row. intros. now apply Forall_app. Qed.

Lemma only_row_writes (i i' j : nat) (l : list action) :
  only_row i l -> i' <> i -> writes i' j l = [].
Proof.
  intros H Hne. induction H as [|a l Ha _ IH]; [reflexivity|].
  simpl. rewrite IH. destruct a; try reflexivity.
  subst. apply Nat.eqb_neq in Hne. rewrite Nat.eqb_sym in Hne.
  now rewrite Hne.
Qed.

Lemma only_row_assigned (i i' : nat) (l : list action) :
  only_row i l -> i' <> i -> assigned_ids i' l = [].
Proof.
  intros H Hne. induction H as [|a l Ha _ IH]; [reflexivity|].
  simpl. rewrite IH. destruct a; try reflexivity.
  subst. apply Nat.eqb_neq in Hne. rewrite Nat.eqb_sym in Hne.
  now rewrite Hne.
Qed.

Lemma only_row_rounds (i i' : nat) (l : list action) :
  only_row i l -> i' <> i -> rounds_of i' l = [].
Proof.
  intros H Hne. induction H as [|a l Ha _ IH]; [reflexivity|].
  simpl. rewrite IH. destruct a; try reflexivity.
  subst. apply Nat.eqb_neq in Hne. rewrite Nat.eqb_sym in Hne.
  now rewrite Hne.
Qed.

Lemma map_seq_from {B} (f : nat -> B) (a m : nat) :
  map f (seq a m) = map (fun k => f (a + k)%nat) (seq 0 m).
Proof.
  revert a f. induction m as [|m IH]; intros a f; [reflexivity|].
  simpl. rewrite Nat.add_0_r. f_equal.
  rewrite (IH (S a)), (IH 1%nat). apply map_ext. intros k.
  f_equal. lia.
Qed.

Lemma ids_from_app (c : Z) (n m : nat) :
  ids_from c n ++ ids_from (c + Z.of_nat n) m = ids_from c (n + m).
Proof.
  unfold ids_from. rewrite seq_app, map_app. f_equal.
  rewrite (map_seq_from _ (0 + n) m). apply map_ext. intros k. lia.
Qed.

Lemma not_assign_writes (i j : nat) (l : list action) :
  Forall not_assign l -> writes i j l = [].
Proof.
  induction 1 as [|a l Ha _ IH]; [reflexivity|].
  simpl. rewrite IH. now destruct a.
Qed.

Lemma not_assign_assigned (i : nat) (l : list action) :
  Forall not_assign l -> assigned_ids i l = [].
Proof.
  induction 1 as [|a l Ha _ IH]; [reflexivity|].
  simpl. rewrite IH. now destruct a.
Qed.

Lemma not_round_rounds (i : nat) (l : list action) :
  Forall not_round l -> rounds_of i l = [].
Proof.
  induction 1 as [|a l Ha _ IH]; [reflexivity|].
  simpl. rewrite IH. now destruct a.
Qed.

Lemma effect_quiet (i : nat) (P : nat -> Prop) (st : row_state)
    (acts : list action) :
  Forall not_assign acts -> only_row i acts -> effect i P st st acts.
Proof.
  intros H R. unfold effect. repeat split; auto.
  - exists 0%nat. rewrite not_assign_assigned by assumption.
    split; [lia | reflexivity].
  - intros j. left. now rewrite not_assign_writes.
Qed.

Lemma effect_weaken (i : nat) (P Q : nat -> Prop) (st st' : row_state)
    (acts : list action) :
  (forall j, P j -> Q j) -> effect i P st st' acts -> effect i Q st st' acts.
Proof.
  intros HPQ (H1 & H2 & H3 & H4 & H5). unfold effect.
  repeat split; auto.
  intros j. destruct (H5 j) as [F | (Pj & W)]; [now left | right; auto].
Qed.

(** Two stretches in sequence: a position stored to by the first is no
    longer eligible for the second. *)
Lemma effect_trans (i : nat) (P Q : nat -> Prop) (st st1 st2 : row_state)
    (acts1 acts2 : list action) :
  effect i P st st1 acts1 ->
  effect i Q st1 st2 acts2 ->
  effect i (fun j => P j \/ Q j) st st2 (acts1 ++ acts2).
Proof.
  intros (L1 & M1 & R1 & (n1 & C1 & A1) & W1)
         (L2 & M2 & R2 & (n2 & C2 & A2) & W2).
  unfold effect. split; [congruence|]. split; [congruence|].
  split; [now apply only_row_app|]. split.
  - exists (n1 + n2)%nat. split; [lia|].
    rewrite assigned_ids_app, A1, A2, C1. apply ids_from_app.
  - intros j. rewrite writes_app.
    destruct (W1 j) as [(a1 & b1 & c1) | (Pj & e1 & k & a1 & b1 & c1 & d1)];
      destruct (W2 j) as [(a2 & b2 & c2) | (Qj & e2 & k' & a2 & b2 & c2 & d2)].
    + left. rewrite a1, a2. split; [reflexivity|]. split; congruence.
    + right. split; [now right|]. split; [congruence|].
      exists k'. rewrite a1, a2. repeat split; auto; lia.
    + right. split; [now left|]. split; [assumption|].
      exists k. rewrite a1, a2. repeat split; auto; try congruence; lia.
    + congruence.
Qed.

Lemma effect_nil (i : nat) (P : nat -> Prop) (st : row_state) :
  effect i P st st [].
Proof. apply effect_quiet; [constructor | unfold only_row; constructor]. Qed.

Lemma effect_after (i : nat) (P : nat -> Prop) (st st' : row_state)
    (pre acts : list action) :
  Forall not_assign pre -> only_row i pre ->
  effect i P st st' acts -> effect i P st st' (pre ++ acts).
Proof. forget_unused.
  intros H R E.
  apply effect_weaken with (P := fun j => P j \/ P j); [tauto|].
  eapply effect_trans; [apply effect_quiet; eassumption | exact E].
Qed.

(* ================================================================== *)
(** ** [find_tracks]: what a run that returns has done *)
(* ================================================================== *)

Lemma do_dbscan_Some (xyz : list vec3) (mask : list bool) (labels : list Z)
    (w w' : world rng) :
  _do_dbscan xyz mask w = (Some labels, w') ->
  Np.select xyz mask = Some (Np.pick xyz mask) /\
  log w' = log w ++ [CallDbscan (Np.pick xyz mask)] /\
  rng_state w' = rng_state w /\
  length labels = length mask /\
  forall j, nth j mask false = false -> nth j labels (-1)%Z = (-1)%Z.
Proof.
  unfold _do_dbscan, dbscan. intros H. exec_inv.
  destruct (select_Some _ _ H0) as (_ & -> & _).
  apply put_mask_Some in H as (_ & Hlen & Hnth).
  rewrite repeat_length in Hlen.
  repeat split; auto.
  intros j Hj. rewrite Hnth by assumption. apply nth_repeat.
Qed.

Lemma ransac_Some (pts : list vec3) (inliers : option (list bool))
    (w w' : world rng) :
  ransac pts w = (Some inliers, w') -> log w' = log w ++ [CallRansac pts].
Proof.
  unfold ransac. intros H. exec_inv.
  destruct (ransac_fit _ _ _ _ _) as [[r g]|]; [|discriminate].
  injection H as _ <-. assumption.
Qed.

Lemma do_ransac_Some (xyz : list vec3) (mask : list bool)
    (inliers : option (list bool)) (w w' : world rng) :
  _do_ransac xyz mask w = (Some inliers, w') ->
  Np.select xyz mask = Some (Np.pick xyz mask) /\
  log w' = log w ++ [CallRansac (Np.pick xyz mask)].
Proof.
  unfold _do_ransac. intros H. exec_inv.
  destruct (select_Some _ _ H0) as (_ & -> & _).
  split; [assumption | now apply ransac_Some in H].
Qed.

(** [mask[mask] = inliers] only clears entries. *)
Lemma keep_inliers_Some (mask mask' : list bool) (inliers : option (list bool)) :
  keep_inliers mask inliers = Some mask' ->
  length mask' = length mask /\
  forall j, nth j mask false = false -> nth j mask' false = false.
Proof.
  destruct inliers as [v|]; simpl; intros H.
  - apply put_mask_Some in H as (_ & Hlen & Hnth). split; [assumption|].
    intros j Hj. now rewrite Hnth.
  - apply set_where_Some in H as [_ ->]. split; [apply store_length|].
    intros j Hj. rewrite store_nth by reflexivity. now rewrite Hj.
Qed.

Lemma assign_track_effect (i : nat) (labels : list Z) (id_ : Z)
    (st st' : row_state) (w w' : world rng) :
  assign_track i labels id_ st w = (Some st', w') ->
  (forall j, nth j labels (-1)%Z = id_ -> id_ <> (-1)%Z ->
             nth j (iter_mask st) false = true) ->
  exists acts,
    log w' = log w ++ acts /\
    Forall not_round acts /\
    effect i (fun j => nth j labels (-1)%Z = id_ /\ id_ <> (-1)%Z) st st' acts.
Proof.
  unfold assign_track. intros H Hel.
  destruct (id_ =? -1)%Z eqn:Eid.
  - exec_inv. exists []. rewrite app_nil_r.
    split; [reflexivity|]. split; [constructor | apply effect_nil].
  - apply Z.eqb_neq in Eid. exec_inv.
    match goal with
    | H : Np.set_where (track_id st) _ _ = Some _ |- _ =>
        apply set_where_Some in H as [Lt ->]
    end.
    match goal with
    | H : Np.set_where (iter_mask st) _ _ = Some _ |- _ =>
        apply set_where_Some in H as [Lm ->]
    end.
    exists [Assign i (current_track_id st + 1) (Np.eq_scalar labels id_)].
    split; [assumption|]. split; [repeat constructor|].
    unfold effect, only_row; simpl. rewrite !store_length, Nat.eqb_refl.
    split; [reflexivity|]. split; [reflexivity|].
    split; [repeat constructor|]. split.
    + exists 1%nat. split; [lia|]. unfold ids_from. simpl. f_equal. lia.
    + intros j. rewrite !store_nth by assumption. simpl.
      rewrite app_nil_r.
      destruct (nth j (Np.eq_scalar labels id_) false) eqn:Ej.
      * right. rewrite eq_scalar_nth in Ej by assumption.
        apply Z.eqb_eq in Ej. split; [auto|]. split; [auto|].
        exists (current_track_id st + 1)%Z. repeat split; auto; lia.
      * left. auto.
Qed.

(** A loop over distinct labels whose body only stores to the positions
    carrying its label: positions with a label still to come stay
    eligible until their turn. *)
Lemma for_each_effect (i : nat) (labels : list Z) (Q : action -> Prop)
    (body : Z -> row_state -> M row_state) :
  (forall id_ st st' w w',
      body id_ st w = (Some st', w') ->
      (forall j, nth j labels (-1)%Z = id_ -> id_ <> (-1)%Z ->
                 nth j (iter_mask st) false = true) ->
      exists acts,
        log w' = log w ++ acts /\ Forall Q acts /\
        effect i (fun j => nth j labels (-1)%Z = id_ /\ id_ <> (-1)%Z)
               st st' acts) ->
  forall ids st st' w w',
    NoDup ids ->
    Exec.for_each ids body st w = (Some st', w') ->
    (forall j, In (nth j labels (-1)%Z) ids -> nth j labels (-1)%Z <> (-1)%Z ->
               nth j (iter_mask st) false = true) ->
    exists acts,
      log w' = log w ++ acts /\ Forall Q acts /\
      effect i (fun j => In (nth j labels (-1)%Z) ids /\
                         nth j labels (-1)%Z <> (-1)%Z) st st' acts.
Proof.
  intros Hbody ids. induction ids as [|id_ ids IH]; intros st st' w w' Hnd H Hel.
  - simpl in H. exec_inv. exists []. rewrite app_nil_r.
    split; [reflexivity|]. split; [constructor | apply effect_nil].
  - simpl in H. exec_inv. inversion Hnd as [|? ? Hnotin Hnd']; subst.
    destruct (Hbody _ _ _ _ _ H0) as (acts1 & L1 & Q1 & E1).
    { intros j Hj Hne. apply Hel; [left; congruence | congruence]. }
    destruct (IH _ _ _ _ Hnd' H) as (acts2 & L2 & Q2 & E2).
    { intros j Hin Hne.
      destruct E1 as (_ & _ & _ & _ & W1).
      destruct (W1 j) as [(_ & _ & ->) | ((Hj & _) & _)].
      - apply Hel; [now right | assumption].
      - exfalso. apply Hnotin. now rewrite <- Hj. }
    exists (acts1 ++ acts2). split; [rewrite L2, L1; now rewrite app_assoc|].
    split; [now apply Forall_app|].
    eapply effect_weaken; [|eapply effect_trans; eassumption].
    simpl. intros j [[Hj Hne] | [Hin Hne]].
    + split; [now left | congruence].
    + split; [now right | assumption].
Qed.


Lemma fit_cluster_effect (i : nat) (xyz : list vec3) (track_ids : list Z)
    (id_ : Z) (st st' : row_state) (w w' : world rng) :
  fit_cluster i xyz track_ids id_ st w = (Some st', w') ->
  (forall j, nth j track_ids (-1)%Z = id_ -> id_ <> (-1)%Z ->
             nth j (iter_mask st) false = true) ->
  exists acts,
    log w' = log w ++ acts /\
    Forall not_round acts /\
    effect i (fun j => nth j track_ids (-1)%Z = id_ /\ id_ <> (-1)%Z)
           st st' acts.
Proof.
  unfold fit_cluster. intros H Hel.
  destruct (id_ =? -1)%Z eqn:Eid.
  { exec_inv. exists []. rewrite app_nil_r.
    split; [reflexivity|]. split; [constructor | apply effect_nil]. }
  apply Z.eqb_neq in Eid.
  destruct (Np.sum (Np.eq_scalar track_ids id_) <=? ransac_min_samples cfg)%Z.
  { exec_inv. exists []. rewrite app_nil_r.
    split; [reflexivity|]. split; [constructor | apply effect_nil]. }
  apply bind_Some in H as (inliers & w1 & Hr & H).
  apply do_ransac_Some in Hr as (_ & L1).
  apply bind_Some in H as (mask' & w2 & Hk & H).
  apply lift_Some in Hk as [Hk ->].
  apply keep_inliers_Some in Hk as (Lk & Hsub).
  destruct (Np.sum mask' <? 1)%Z.
  { exec_inv. eexists. split; [exact L1|].
    split; [repeat constructor|].
    apply effect_quiet; [|unfold only_row]; repeat constructor. }
  apply bind_Some in H as (final_track_ids & w3 & Hd & H).
  apply do_dbscan_Some in Hd as (_ & L2 & _ & Lf & Hout).
  destruct (@for_each_effect i final_track_ids not_round
              (assign_track i final_track_ids)
              (@assign_track_effect i final_track_ids)
              (Np.unique final_track_ids) st st' w3 w'
              (unique_NoDup _) H) as (acts & L3 & Q3 & E3).
  { intros j _ Hne. apply Hel; [|assumption].
    destruct (nth j mask' false) eqn:Em;
      [|now specialize (Hout j Em)].
    destruct (nth j (Np.eq_scalar track_ids id_) false) eqn:Ec;
      [|specialize (Hsub j Ec); congruence].
    rewrite eq_scalar_nth in Ec by assumption. now apply Z.eqb_eq. }
  exists ([CallRansac (Np.pick xyz (Np.eq_scalar track_ids id_))] ++
          [CallDbscan (Np.pick xyz mask')] ++ acts).
  split; [rewrite L3, L2, L1, <- !app_assoc; reflexivity|].
  split; [repeat constructor; assumption|].
  apply effect_after; [repeat constructor | unfold only_row; repeat constructor|].
  apply effect_after; [repeat constructor | unfold only_row; repeat constructor|].
  eapply effect_weaken; [|exact E3].
  simpl. intros j [_ Hne]. split; [|assumption].
  destruct (nth j mask' false) eqn:Em;
    [|now specialize (Hout j Em)].
  destruct (nth j (Np.eq_scalar track_ids id_) false) eqn:Ec;
    [|specialize (Hsub j Ec); congruence].
  rewrite eq_scalar_nth in Ec by assumption. now apply Z.eqb_eq.
Qed.

(** One round: every store goes to a position that was eligible when the
    round began. *)
Lemma iteration_effect (i : nat) (xyz : list vec3) (st st' : row_state)
    (track_ids : list Z) (w w' : world rng) :
  iteration i xyz st w = (Some (track_ids, st'), w') ->
  exists acts,
    log w' = log w ++ acts /\
    rounds_of i acts = [track_ids] /\
    effect i (fun _ => True) st st' acts.
Proof.
  unfold iteration. intros H.
  apply bind_Some in H as (labels & w1 & Hd & H).
  apply do_dbscan_Some in Hd as (_ & L1 & _ & Ll & Hout).
  apply bind_Some in H as (u & w2 & Hr & H).
  apply record_Some in Hr as [_ L2].
  apply bind_Some in H as (st1 & w3 & Hf & H).
  apply ret_Some in H as [[= -> ->] ->].
  destruct (@for_each_effect i labels not_round (fit_cluster i xyz labels)
              (@fit_cluster_effect i xyz labels)
              (Np.unique labels) st st1 w2 w3
              (unique_NoDup _) Hf) as (acts & L3 & Q3 & E3).
  { intros j _ Hne.
    destruct (nth j (iter_mask st) false) eqn:Em; [reflexivity|].
    now specialize (Hout j Em). }
  exists ([CallDbscan (Np.pick xyz (iter_mask st)); Round i labels] ++ acts).
  split; [rewrite L3, L2, L1, <- !app_assoc; reflexivity|].
  split.
  - rewrite rounds_of_app, (not_round_rounds i Q3). simpl.
    now rewrite Nat.eqb_refl.
  - apply effect_after; [repeat constructor | unfold only_row; repeat constructor|].
    eapply effect_weaken; [|exact E3]. auto.
Qed.

Lemma effect_True_trans (i : nat) (st st1 st2 : row_state)
    (acts1 acts2 : list action) :
  effect i (fun _ => True) st st1 acts1 ->
  effect i (fun _ => True) st1 st2 acts2 ->
  effect i (fun _ => True) st st2 (acts1 ++ acts2).
Proof.
  intros E1 E2. eapply effect_weaken; [|eapply effect_trans; eassumption].
  auto.
Qed.

(** The rounds of an event: there are at most [n], and when there are
    fewer, the last one met the test that ends the loop. *)
Lemma iterations_effect (n i : nat) (xyz : list vec3) (st st' : row_state)
    (w w' : world rng) :
  iterations n i xyz st w = (Some st', w') ->
  exists acts,
    log w' = log w ++ acts /\
    effect i (fun _ => True) st st' acts /\
    (length (rounds_of i acts) <= n)%nat /\
    ((length (rounds_of i acts) < n)%nat ->
     exists rs track_ids,
       rounds_of i acts = rs ++ [track_ids] /\ stop track_ids st' = true).
Proof.
  revert st w. induction n as [|n IH]; intros st w H; simpl in H.
  - exec_inv. exists []. rewrite app_nil_r.
    split; [reflexivity|]. split; [apply effect_nil|]. simpl. split; lia.
  - apply bind_Some in H as ([track_ids st1] & w1 & Hi & H). simpl in H.
    apply iteration_effect in Hi as (acts1 & L1 & R1 & E1).
    destruct (stop track_ids st1) eqn:Es.
    + exec_inv. exists acts1. split; [assumption|]. split; [assumption|].
      rewrite R1. simpl. split; [lia|]. intros _.
      exists [], track_ids. auto.
    + apply IH in H as (acts2 & L2 & E2 & B2 & S2).
      exists (acts1 ++ acts2).
      split; [rewrite L2, L1, app_assoc; reflexivity|].
      split; [eapply effect_True_trans; eassumption|].
      rewrite rounds_of_app, R1. simpl. split; [lia|].
      intros Hlt. destruct S2 as (rs & t & -> & Hs); [lia|].
      exists (track_ids :: rs), t. auto.
Qed.

Lemma iter_mask0_nth (hs : list Hit.t) (j : nat) :
  nth j (map (fun h => true && negb (Hit.masked h)) hs) false =
  negb (nth j (map Hit.masked hs) true).
Proof.
  revert j. induction hs as [|h hs IH]; intros [|j]; simpl; auto.
Qed.

(** What one event's pass of [find_tracks] has done when it returns. *)
Lemma find_tracks_event_outcome (i : nat) (xyz : list vec3) (hs : list Hit.t)
    (row : list Z) (w w' : world rng) :
  find_tracks_event i xyz hs w = (Some row, w') ->
  exists acts,
    log w' = log w ++ acts /\
    only_row i acts /\
    event_outcome (Z.to_nat (max_iterations cfg)) i hs row acts.
Proof.
  unfold find_tracks_event. intros H.
  set (im0 := map (fun h => true && negb (Hit.masked h)) hs) in *.
  destruct (negb (Np.any im0)) eqn:Eany.
  - exec_inv. exists []. rewrite app_nil_r. split; [reflexivity|].
    split; [constructor|]. unfold event_outcome. simpl.
    split; [apply repeat_length|]. split; [now exists 0%nat|].
    split; [intros j; left; split; [reflexivity | apply nth_repeat]|].
    split; [lia|]. intros _. right. intros j Hj. exfalso.
    apply negb_true_iff in Eany.
    pose proof (any_false_nth im0 j Eany) as Hf.
    unfold im0 in Hf. rewrite iter_mask0_nth, Hj in Hf. discriminate.
  - apply bind_Some in H as (st & w1 & Hit & H).
    apply ret_Some in H as [-> ->].
    apply iterations_effect in Hit
      as (acts & L & (Lt & Lm & R & (n & C & A) & W) & B & S).
    simpl in *. exists acts. split; [assumption|]. split; [assumption|].
    unfold event_outcome.
    split; [now rewrite Lt, repeat_length|].
    split; [now exists n|].
    assert (Wj : forall j,
               (writes i j acts = [] /\ nth j (track_id st) (-1)%Z = (-1)%Z /\
                nth j (iter_mask st) false = nth j im0 false)
               \/
               (nth j (map Hit.masked hs) true = false /\
                exists k, writes i j acts = [k] /\
                          nth j (track_id st) (-1)%Z = k /\ (0 <= k)%Z)).
    { intros j. destruct (W j) as [(a & b & c) | (_ & e & k & a & b & c & d)].
      - left. rewrite b, nth_repeat. auto.
      - right. unfold im0 in e. rewrite iter_mask0_nth in e.
        apply negb_true_iff in e. split; [assumption|].
        exists k. repeat split; auto; lia. }
    split.
    { intros j. destruct (Wj j) as [(a & b & _) | Hw]; [left | right]; auto. }
    split; [assumption|].
    intros Hlt. destruct (S Hlt) as (rs & labels & Hr & Hs).
    unfold stop in Hs. apply orb_true_iff in Hs as [Hs | Hs].
    + left. now exists rs, labels.
    + right. intros j Hj. apply negb_true_iff in Hs.
      destruct (Wj j) as [(_ & _ & c) | (_ & k & _ & b & d)]; [|lia].
      exfalso. rewrite (any_false_nth _ j Hs) in c.
      unfold im0 in c. rewrite iter_mask0_nth, Hj in c. discriminate.
Qed.

Lemma only_row_rows_from (i : nat) (acts : list action) :
  only_row i acts -> rows_from i acts.
Proof.
  unfold only_row, rows_from. apply Forall_impl.
  intros [ | | | |]; intros; subst; auto.
Qed.

Lemma rows_from_le (i i' : nat) (acts : list action) :
  (i <= i')%nat -> rows_from i' acts -> rows_from i acts.
Proof.
  intros Hle. unfold rows_from. apply Forall_impl.
  intros [ | | | |]; intros; auto; lia.
Qed.

Lemma rows_from_writes (i i0 j : nat) (acts : list action) :
  rows_from i0 acts -> (i < i0)%nat -> writes i j acts = [].
Proof.
  intros H Hlt. induction H as [|a l Ha _ IH]; [reflexivity|].
  simpl. rewrite IH. destruct a as [ | | |i' l'|i' k m]; try reflexivity;
    simpl in Ha;
    assert (E : (i' =? i)%nat = false) by (apply Nat.eqb_neq; lia);
    now rewrite E.
Qed.

Lemma rows_from_assigned (i i0 : nat) (acts : list action) :
  rows_from i0 acts -> (i < i0)%nat -> assigned_ids i acts = [].
Proof.
  intros H Hlt. induction H as [|a l Ha _ IH]; [reflexivity|].
  simpl. rewrite IH. destruct a as [ | | |i' l'|i' k m]; try reflexivity;
    simpl in Ha;
    assert (E : (i' =? i)%nat = false) by (apply Nat.eqb_neq; lia);
    now rewrite E.
Qed.

Lemma rows_from_rounds (i i0 : nat) (acts : list action) :
  rows_from i0 acts -> (i < i0)%nat -> rounds_of i acts = [].
Proof.
  intros H Hlt. induction H as [|a l Ha _ IH]; [reflexivity|].
  simpl. rewrite IH. destruct a as [ | | |i' l'|i' k m]; try reflexivity;
    simpl in Ha;
    assert (E : (i' =? i)%nat = false) by (apply Nat.eqb_neq; lia);
    now rewrite E.
Qed.

(** Rows are processed one after the other, each leaving only markers of
    its own index: what holds of the log of one row holds of the log of
    the whole loop. *)
Lemma for_rows_outcome {A B} (f : nat -> A -> M B)
    (R : nat -> A -> B -> list action -> Prop) :
  row_local R ->
  (forall i x y w w',
      f i x w = (Some y, w') ->
      exists acts, log w' = log w ++ acts /\ only_row i acts /\ R i x y acts) ->
  forall l i0 ys w w',
    Exec.for_rows f i0 l w = (Some ys, w') ->
    exists acts,
      log w' = log w ++ acts /\
      rows_from i0 acts /\
      length ys = length l /\
      forall p x, nth_error l p = Some x ->
                  exists y, nth_error ys p = Some y /\ R (i0 + p)%nat x y acts.
Proof.
  intros Hloc Hf l. induction l as [|x l IH]; intros i0 ys w w' H; simpl in H.
  - exec_inv. exists []. rewrite app_nil_r. split; [reflexivity|].
    split; [constructor|]. split; [reflexivity|].
    intros [|p] x Hx; discriminate.
  - apply bind_Some in H as (y & w1 & Hy & H).
    apply bind_Some in H as (ys' & w2 & Hys & H).
    apply ret_Some in H as [-> ->].
    apply Hf in Hy as (a1 & L1 & O1 & R1).
    apply IH in Hys as (a2 & L2 & F2 & Len & R2).
    exists (a1 ++ a2). split; [rewrite L2, L1, app_assoc; reflexivity|].
    split.
    { apply Forall_app. split; [now apply only_row_rows_from|].
      apply rows_from_le with (i' := S i0); [lia | assumption]. }
    split; [simpl; now rewrite Len|].
    intros [|p] x' Hx; simpl in Hx.
    + injection Hx as <-. exists y. split; [reflexivity|].
      rewrite Nat.add_0_r. apply Hloc with (acts := a1); [| | |assumption].
      * intros j. rewrite writes_app, (rows_from_writes j F2) by lia.
        apply app_nil_r.
      * rewrite assigned_ids_app, (rows_from_assigned F2) by lia.
        apply app_nil_r.
      * rewrite rounds_of_app, (rows_from_rounds F2) by lia.
        apply app_nil_r.
    + destruct (R2 p x' Hx) as (y' & Hy' & Ry').
      exists y'. split; [assumption|].
      rewrite Nat.add_succ_r. apply Hloc with (acts := a2); [| | |assumption].
      * intros j. rewrite writes_app.
        now rewrite (only_row_writes (i' := S (i0 + p)) j O1) by lia.
      * rewrite assigned_ids_app.
        now rewrite (only_row_assigned (i' := S (i0 + p)) O1) by lia.
      * rewrite rounds_of_app.
        now rewrite (only_row_rounds (i' := S (i0 + p)) O1) by lia.
Qed.

Lemma event_outcome_local (n_max : nat) :
  row_local (fun i (ex : event * list vec3) row acts =>
               event_outcome n_max i (hits (fst ex)) row acts).
Proof.
  intros i ex row acts acts' Hw Ha Hr. unfold event_outcome.
  rewrite Ha, Hr. intros (H1 & H2 & H3 & H4).
  split; [assumption|]. split; [assumption|]. split; [|assumption].
  intros j. rewrite Hw. apply H3.
Qed.

Lemma nth_error_combine {A B} (a : list A) (b : list B) (p : nat) (x : A)
    (y : B) :
  nth_error a p = Some x -> nth_error b p = Some y ->
  nth_error (combine a b) p = Some (x, y).
Proof.
  revert b p. induction a as [|x' a IH]; intros [|y' b] [|p]; simpl;
    try discriminate.
  - now intros [= ->] [= ->].
  - apply IH.
Qed.

Lemma nth_error_combine_inv {A B} (a : list A) (b : list B) (p : nat) (x : A)
    (y : B) :
  nth_error (combine a b) p = Some (x, y) ->
  nth_error a p = Some x /\ nth_error b p = Some y.
Proof.
  revert b p. induction a as [|x' a IH]; intros [|y' b] [|p]; simpl;
    try discriminate.
  - now intros [= -> ->].
  - apply IH.
Qed.

(** What a run of [find_tracks] that returns has done, event by event. *)
Lemma find_tracks_outcome (evs : list event) (res : list (list (Z * bool)))
    (w w' : world rng) :
  find_tracks evs w = (Some res, w') ->
  exists acts,
    log w' = log w ++ acts /\
    length res = length evs /\
    forall i e,
      nth_error evs i = Some e ->
      exists row,
        nth_error res i = Some (combine row (map Hit.masked (hits e))) /\
        event_outcome (Z.to_nat (max_iterations cfg)) i (hits e) row acts.
Proof.
  unfold find_tracks. intros H.
  apply bind_Some in H as (track_id & w1 & Hrows & H).
  apply ret_Some in H as [-> ->].
  eapply for_rows_outcome in Hrows as (acts & L & _ & Len & Hrow);
    [| apply (@event_outcome_local (Z.to_nat (max_iterations cfg)))
     | intros i ex row w0 w0' Hev;
       apply find_tracks_event_outcome in Hev; exact Hev].
  exists acts. split; [assumption|].
  assert (Lc : length (combine evs (hit_xyz evs)) = length evs).
  { rewrite length_combine. unfold hit_xyz. rewrite length_map. lia. }
  split.
  { rewrite length_map, length_combine. lia. }
  intros i e He.
  assert (Hx : nth_error (combine evs (hit_xyz evs)) i =
               Some (e, map (fun h => hit_xyz1 h (t0_ts e)) (hits e))).
  { apply nth_error_combine; [assumption|].
    unfold hit_xyz. now rewrite nth_error_map, He. }
  destruct (Hrow i _ Hx) as (row & Hr & Ho). simpl in Ho.
  exists row. split; [|assumption].
  rewrite nth_error_map, (nth_error_combine _ _ _ He Hr). reflexivity.
Qed.

Lemma returned {S A} (m : Exec.exec S A) (s : S) (a : A) :
  fst (m s) = Some a -> m s = (Some a, snd (m s)).
Proof. destruct (m s) as [o s']. simpl. now intros ->. Qed.

Lemma ids_from_sorted (c : Z) (n : nat) : StronglySorted Z.lt (ids_from c n).
Proof.
  revert c. induction n as [|n IH]; intros c; [constructor|].
  replace (S n) with (1 + n)%nat by reflexivity.
  rewrite <- ids_from_app. simpl. constructor.
  - replace (c + 1)%Z with (c + Z.of_nat 1)%Z by lia. apply IH.
  - apply Forall_forall. intros x Hx. unfold ids_from in Hx.
    apply in_map_iff in Hx as (k & <- & _). lia.
Qed.

Lemma ids_from_seq (n : nat) : ids_from (-1) n = map Z.of_nat (seq 0 n).
Proof. unfold ids_from. apply map_ext. intros k. lia. Qed.

(* ================================================================== *)
(** ** The track-id assignment *)
(* ================================================================== *)

(** C1: in a run of [find_tracks] that returns, every position of the
    track-id array falls in one of two cases.  Either no id was ever stored
    at it, and it holds the sentinel [-1]; or it belongs to an unmasked hit,
    exactly one id was stored at it during the whole run, and the array
    returned holds that id, which is not negative.  So a hit has at most one
    id, an id once stored is neither changed nor removed, and no hit
    appears under two ids. *)
Theorem track_id_stored_once (evs : list event)
    (res : list (list (Z * bool))) (w : world rng) :
  fst (find_tracks evs w) = Some res ->
  exists acts,
    log (snd (find_tracks evs w)) = log w ++ acts /\
    forall i row j v m,
      nth_error res i = Some row ->
      nth_error row j = Some (v, m) ->
      (writes i j acts = [] /\ v = (-1)%Z)
      \/
      (m = false /\ writes i j acts = [v] /\ (0 <= v)%Z).
Proof.
  intros H. apply returned in H.
  apply find_tracks_outcome in H as (acts & L & Len & Hev).
  exists acts. split; [assumption|].
  intros i row j v m Hrow Hj.
  assert (Hi : (i < length evs)%nat).
  { rewrite <- Len. apply nth_error_Some. congruence. }
  destruct (nth_error evs i) as [e|] eqn:He;
    [|apply nth_error_None in He; lia].
  destruct (Hev i e He) as (row' & Hrow' & _ & _ & Hw & _).
  rewrite Hrow in Hrow'. injection Hrow' as ->.
  apply nth_error_combine_inv in Hj as [Hv Hm].
  apply (nth_error_nth _ _ (-1)%Z) in Hv.
  apply (nth_error_nth _ _ true) in Hm.
  destruct (Hw j) as [(a & b) | (a & k & b & c & d)].
  - left. split; [assumption | congruence].
  - right. split; [congruence|]. split; [congruence | lia].
Qed.

(** C2: in a run of [find_tracks] that returns, the ids handed out for one
    event are, in the order in which they were stored, [0, 1, 2, ...]: they
    start at 0, increase strictly, and none is used twice. *)
Theorem track_ids_increase (evs : list event)
    (res : list (list (Z * bool))) (w : world rng) :
  fst (find_tracks evs w) = Some res ->
  exists acts,
    log (snd (find_tracks evs w)) = log w ++ acts /\
    forall i e,
      nth_error evs i = Some e ->
      StronglySorted Z.lt (assigned_ids i acts) /\
      exists n, assigned_ids i acts = map Z.of_nat (seq 0 n).
Proof.
  intros H. apply returned in H.
  apply find_tracks_outcome in H as (acts & L & Len & Hev).
  exists acts. split; [assumption|].
  intros i e He.
  destruct (Hev i e He) as (row & _ & _ & (n & Hn) & _).
  rewrite Hn. split; [apply ids_from_sorted|].
  exists n. apply ids_from_seq.
Qed.

(** C10: in a run of [find_tracks] that returns, the entry of a masked hit
    is [-1], is masked in the array returned, and no id was stored at its
    position at any moment of the run. *)
Theorem masked_hit_unassigned (evs : list event)
    (res : list (list (Z * bool))) (w : world rng) :
  fst (find_tracks evs w) = Some res ->
  exists acts,
    log (snd (find_tracks evs w)) = log w ++ acts /\
    forall i e j h,
      nth_error evs i = Some e ->
      nth_error (hits e) j = Some h ->
      Hit.masked h = true ->
      (exists row, nth_error res i = Some row /\
                   nth_error row j = Some ((-1)%Z, true)) /\
      writes i j acts = [].
Proof.
  intros H. apply returned in H.
  apply find_tracks_outcome in H as (acts & L & Len & Hev).
  exists acts. split; [assumption|].
  intros i e j h He Hh Hm.
  destruct (Hev i e He) as (row & Hrow & Hlen & _ & Hw & _).
  assert (Hmj : nth_error (map Hit.masked (hits e)) j = Some true).
  { now rewrite nth_error_map, Hh, <- Hm. }
  assert (Hjlt : (j < length row)%nat).
  { rewrite Hlen. apply nth_error_Some. congruence. }
  destruct (nth_error row j) as [v|] eqn:Hv;
    [|apply nth_error_None in Hv; lia].
  pose proof (nth_error_nth _ _ (-1)%Z Hv) as Hv'.
  pose proof (nth_error_nth _ _ true Hmj) as Hm'.
  destruct (Hw j) as [(a & b) | (a & _)]; [|congruence].
  split; [|assumption].
  exists (combine row (map Hit.masked (hits e))). split; [assumption|].
  apply nth_error_combine; [|assumption]. congruence.
Qed.

(* ================================================================== *)
(** ** What [find_tracks] hands to the libraries, in every run *)
(* ================================================================== *)

Lemma emits_ret {A} (a : A) (Q : action -> Prop) : emits (Exec.ret a) Q.
Proof. intros w. exists []. simpl. now rewrite app_nil_r. Qed.

Lemma emits_lift {A} (o : option A) (Q : action -> Prop) :
  emits (Exec.lift o) Q.
Proof. intros w. exists []. simpl. now rewrite app_nil_r. Qed.

Lemma emits_record (a : action) (Q : action -> Prop) :
  Q a -> emits (record a) Q.
Proof. intros H w. exists [a]. simpl. auto. Qed.

Lemma emits_bind {A B} (m : M A) (k : A -> M B) (Q : action -> Prop) :
  emits m Q ->
  (forall a w w', m w = (Some a, w') -> emits (k a) Q) ->
  emits (Exec.bind m k) Q.
Proof.
  intros Hm Hk w. unfold Exec.bind.
  destruct (Hm w) as (acts1 & L1 & Q1).
  destruct (m w) as [[a|] w1] eqn:E; simpl in *.
  - destruct (Hk a w w1 E w1) as (acts2 & L2 & Q2).
    exists (acts1 ++ acts2). rewrite L2, L1, app_assoc.
    split; [reflexivity | now apply Forall_app].
  - exists acts1. auto.
Qed.

Lemma emits_weaken {A} (m : M A) (Q Q' : action -> Prop) :
  (forall a, Q a -> Q' a) -> emits m Q -> emits m Q'.
Proof.
  intros HQ H w. destruct (H w) as (acts & L & F).
  exists acts. split; [assumption|]. revert F. now apply Forall_impl.
Qed.

Lemma emits_for_each {A St} (body : A -> St -> M St) (Q : action -> Prop)
    (l : list A) :
  (forall x st, In x l -> emits (body x st) Q) ->
  forall st, emits (Exec.for_each l body st) Q.
Proof.
  induction l as [|x l IH]; intros Hb st; simpl.
  - apply emits_ret.
  - apply emits_bind; [apply Hb; now left|].
    intros st1 _ _ _. apply IH. intros y st2 Hy. apply Hb. now right.
Qed.

Lemma emits_for_rows {A B} (f : nat -> A -> M B) (Q : action -> Prop)
    (l : list A) :
  (forall i x, emits (f i x) Q) ->
  forall i0, emits (Exec.for_rows f i0 l) Q.
Proof.
  intros Hf. induction l as [|x l IH]; intros i0; simpl.
  - apply emits_ret.
  - apply emits_bind; [apply Hf|]. intros y _ _ _.
    apply emits_bind; [apply IH|]. intros ys _ _ _. apply emits_ret.
Qed.

Lemma emits_dbscan (pts : list vec3) (Q : action -> Prop) :
  Q (CallDbscan pts) -> emits (dbscan pts) Q.
Proof.
  intros H. unfold dbscan. apply emits_bind; [now apply emits_record|].
  intros. apply emits_lift.
Qed.

Lemma emits_ransac (pts : list vec3) (Q : action -> Prop) :
  Q (CallRansac pts) -> emits (ransac pts) Q.
Proof.
  intros H. unfold ransac. apply emits_bind; [now apply emits_record|].
  intros _ _ _ _ w. exists []. rewrite app_nil_r.
  split; [|constructor].
  now destruct (ransac_fit _ _ _ _ _) as [[r g]|].
Qed.

Lemma cluster_row_action (i : nat) (a : action) :
  cluster_action i a -> row_action i a.
Proof. forget_unused. destruct a; simpl; tauto. Qed.

Lemma row_fit_action (i : nat) (a : action) : row_action i a -> fit_action a.
Proof. forget_unused. destruct a; simpl; tauto. Qed.

Lemma emits_do_dbscan (xyz : list vec3) (mask : list bool)
    (Q : action -> Prop) :
  (forall pts, Q (CallDbscan pts)) -> emits (_do_dbscan xyz mask) Q.
Proof.
  intros HQ. unfold _do_dbscan. apply emits_bind; [apply emits_lift|].
  intros pts _ _ _. apply emits_bind; [now apply emits_dbscan|].
  intros. apply emits_lift.
Qed.

Lemma emits_do_ransac (xyz : list vec3) (mask : list bool)
    (Q : action -> Prop) :
  (forall pts, length pts = Np.count mask -> Q (CallRansac pts)) ->
  emits (_do_ransac xyz mask) Q.
Proof.
  intros HQ. unfold _do_ransac. apply emits_bind; [apply emits_lift|].
  intros pts w w' H. apply lift_Some in H as [H _].
  apply select_Some in H as (_ & _ & Hlen).
  apply emits_ransac. now apply HQ.
Qed.

Lemma emits_assign_track (i : nat) (labels : list Z) (id_ : Z)
    (st : row_state) :
  emits (assign_track i labels id_ st) (cluster_action i).
Proof.
  unfold assign_track. destruct (id_ =? -1)%Z; [apply emits_ret|].
  apply emits_bind; [apply emits_lift|]. intros.
  apply emits_bind; [now apply emits_record|]. intros.
  apply emits_bind; [apply emits_lift|]. intros. apply emits_ret.
Qed.

Lemma emits_fit_cluster (i : nat) (xyz : list vec3) (track_ids : list Z)
    (id_ : Z) (st : row_state) :
  emits (fit_cluster i xyz track_ids id_ st) (cluster_action i).
Proof.
  unfold fit_cluster. destruct (id_ =? -1)%Z; [apply emits_ret|].
  destruct (Np.sum (Np.eq_scalar track_ids id_) <=? ransac_min_samples cfg)%Z
    eqn:Esz; [apply emits_ret|].
  apply Z.leb_gt in Esz.
  apply emits_bind.
  { apply emits_do_ransac. intros pts Hlen. simpl.
    unfold Np.sum in Esz. now rewrite Hlen. }
  intros inliers _ _ _.
  apply emits_bind; [apply emits_lift|]. intros mask' _ _ _.
  destruct (Np.sum mask' <? 1)%Z; [apply emits_ret|].
  apply emits_bind; [now apply emits_do_dbscan|].
  intros final_track_ids _ _ _.
  apply emits_for_each. intros. apply emits_assign_track.
Qed.

Lemma emits_clusters (i : nat) (xyz : list vec3) (track_ids : list Z)
    (ids : list Z) (st : row_state) :
  emits (Exec.for_each ids (fit_cluster i xyz track_ids) st)
        (cluster_action i).
Proof. apply emits_for_each. intros. apply emits_fit_cluster. Qed.

Lemma emits_iteration (i : nat) (xyz : list vec3) (st : row_state) :
  emits (iteration i xyz st) (row_action i).
Proof.
  unfold iteration. apply emits_bind; [now apply emits_do_dbscan|].
  intros track_ids _ _ _.
  apply emits_bind; [now apply emits_record|]. intros.
  apply emits_bind; [|intros; apply emits_ret].
  eapply emits_weaken; [apply cluster_row_action | apply emits_clusters].
Qed.

Lemma emits_iterations (n i : nat) (xyz : list vec3) (st : row_state) :
  emits (iterations n i xyz st) (row_action i).
Proof.
  revert st. induction n as [|n IH]; intros st; simpl; [apply emits_ret|].
  apply emits_bind; [apply emits_iteration|]. intros r _ _ _.
  destruct (stop (fst r) (snd r)); [apply emits_ret | apply IH].
Qed.

Lemma emits_find_tracks_event (i : nat) (xyz : list vec3) (hs : list Hit.t) :
  emits (find_tracks_event i xyz hs) (row_action i).
Proof.
  unfold find_tracks_event.
  destruct (negb _); [apply emits_ret|].
  apply emits_bind; [apply emits_iterations | intros; apply emits_ret].
Qed.

Lemma emits_find_tracks (evs : list event) :
  emits (find_tracks evs) fit_action.
Proof.
  unfold find_tracks. apply emits_bind; [|intros; apply emits_ret].
  apply emits_for_rows. intros i ex.
  eapply emits_weaken; [apply row_fit_action|].
  apply emits_find_tracks_event.
Qed.

Lemma fit_action_ransac_inputs (acts : list action) (pts : list vec3) :
  Forall fit_action acts ->
  In pts (ransac_inputs acts) ->
  (ransac_min_samples cfg < Z.of_nat (length pts))%Z.
Proof. forget_unused.
  induction 1 as [|a acts Ha _ IH]; simpl; [tauto|].
  rewrite in_app_iff. intros [Hin | Hin]; [|auto].
  destruct a; simpl in Hin; try tauto.
  destruct Hin as [<- | []]. exact Ha.
Qed.

Lemma store_self_false (mask : list bool) :
  Np.count (Np.store mask mask false) = 0%nat.
Proof.
  induction mask as [|m mask IH]; [reflexivity|].
  simpl. rewrite count_cons, IH. now destruct m.
Qed.

Lemma scatter_no_inliers (mask vals : list bool) :
  Np.any vals = false ->
  length vals = Np.count mask ->
  Np.count (Np.scatter mask mask vals) = 0%nat.
Proof.
  revert vals. induction mask as [|m mask IH]; intros vals Hv Hlen;
    [reflexivity|].
  rewrite count_cons in Hlen. simpl. destruct m.
  - destruct vals as [|v vals]; [discriminate|].
    simpl in Hv. apply orb_false_iff in Hv as [-> Hv].
    rewrite count_cons. simpl. apply IH; [assumption|].
    simpl in Hlen. lia.
  - rewrite count_cons. simpl. now apply IH.
Qed.

(** Storing an empty inlier mask leaves no entry set. *)
Lemma keep_no_inliers (mask mask' : list bool) (inliers : option (list bool)) :
  keep_inliers mask inliers = Some mask' ->
  no_inliers inliers ->
  Np.sum mask' = 0%Z.
Proof.
  unfold Np.sum. destruct inliers as [v|]; simpl; intros H Hv.
  - unfold Np.put_mask in H. rewrite Nat.eqb_refl in H. simpl in H.
    destruct (length v =? Np.count mask)%nat eqn:E.
    + apply Nat.eqb_eq in E. injection H as <-.
      now rewrite scatter_no_inliers.
    + destruct v as [|b [|]]; try discriminate. injection H as <-.
      simpl in Hv. apply orb_false_iff in Hv as [-> _].
      now rewrite store_self_false.
  - apply set_where_Some in H as [_ ->]. now rewrite store_self_false.
Qed.

(** C5: (1) in every run of [find_tracks], whether it returns or raises,
    each point set handed to RANSAC has more than [ransac_min_samples]
    points; (2) a cluster with the noise label, or with at most
    [ransac_min_samples] members, is skipped: nothing is called, and the
    track ids and the eligibility of the hits are left as they were;
    (3) on any other cluster RANSAC is run on the points of the cluster,
    and when it returns no inlier the cluster is dropped: the state is left
    as it was and the call to RANSAC is all that happened. *)
Theorem ransac_only_on_large_clusters :
  (forall evs w,
      exists acts,
        log (snd (find_tracks evs w)) = log w ++ acts /\
        forall pts, In pts (ransac_inputs acts) ->
                    (ransac_min_samples cfg < Z.of_nat (length pts))%Z) /\
  (forall i xyz track_ids id_ st w,
      id_ = (-1)%Z \/
      (Np.sum (Np.eq_scalar track_ids id_) <= ransac_min_samples cfg)%Z ->
      fit_cluster i xyz track_ids id_ st w = (Some st, w)) /\
  (forall i xyz track_ids id_ st w inliers w1 mask',
      id_ <> (-1)%Z ->
      (ransac_min_samples cfg < Np.sum (Np.eq_scalar track_ids id_))%Z ->
      _do_ransac xyz (Np.eq_scalar track_ids id_) w = (Some inliers, w1) ->
      keep_inliers (Np.eq_scalar track_ids id_) inliers = Some mask' ->
      no_inliers inliers ->
      fit_cluster i xyz track_ids id_ st w = (Some st, w1) /\
      log w1 =
      log w ++ [CallRansac (Np.pick xyz (Np.eq_scalar track_ids id_))]).
Proof.
  split; [|split].
  - intros evs w. destruct (emits_find_tracks evs w) as (acts & L & F).
    exists acts. split; [assumption|].
    intros pts. now apply fit_action_ransac_inputs.
  - intros i xyz track_ids id_ st w Hskip. unfold fit_cluster.
    destruct (id_ =? -1)%Z eqn:Eid; [reflexivity|].
    apply Z.eqb_neq in Eid. destruct Hskip as [? | Hsz]; [contradiction|].
    apply Z.leb_le in Hsz. now rewrite Hsz.
  - intros i xyz track_ids id_ st w inliers w1 mask' Hid Hsz Hr Hk Hempty.
    split; [|now apply do_ransac_Some in Hr].
    unfold fit_cluster.
    apply Z.eqb_neq in Hid. rewrite Hid.
    apply Z.leb_gt in Hsz. rewrite Hsz.
    erewrite bind_ok by exact Hr. unfold Exec.bind at 1.
    unfold Exec.lift at 1. rewrite Hk.
    rewrite (@keep_no_inliers _ _ _ Hk Hempty). reflexivity.
Qed.

Lemma starts_with_bind {A B} (m : M A) (k : A -> M B) (a : action)
    (Q : action -> Prop) :
  starts_with m a -> (forall x, emits (k x) Q) ->
  starts_with (Exec.bind m k) a.
Proof.
  intros Hm Hk w. unfold Exec.bind.
  destruct (Hm w) as (rest & L). destruct (m w) as [[x|] w1]; simpl in *.
  - destruct (Hk x w1) as (acts & L2 & _).
    exists (rest ++ acts). rewrite L2, L, <- app_assoc. reflexivity.
  - now exists rest.
Qed.

Lemma starts_with_record (a : action) : starts_with (record a) a.
Proof. intros w. now exists []. Qed.

Lemma starts_with_lift_bind {A B} (x : A) (k : A -> M B) (a : action) :
  starts_with (k x) a -> starts_with (Exec.bind (Exec.lift (Some x)) k) a.
Proof. intros H w. exact (H w). Qed.

Lemma starts_with_do_dbscan (xyz : list vec3) (mask : list bool) :
  length xyz = length mask ->
  starts_with (_do_dbscan xyz mask) (CallDbscan (Np.pick xyz mask)).
Proof.
  intros Hlen. unfold _do_dbscan. rewrite (select_ok _ _ Hlen).
  apply starts_with_lift_bind.
  apply starts_with_bind with (Q := fit_action); [|intros; apply emits_lift].
  unfold dbscan.
  apply starts_with_bind with (Q := fit_action); [|intros; apply emits_lift].
  apply starts_with_record.
Qed.

Lemma starts_with_iterations (n i : nat) (xyz : list vec3) (st : row_state) :
  length xyz = length (iter_mask st) ->
  starts_with (iterations (S n) i xyz st)
              (CallDbscan (Np.pick xyz (iter_mask st))).
Proof.
  intros Hlen. simpl.
  apply starts_with_bind with (Q := row_action i).
  - unfold iteration.
    apply starts_with_bind with (Q := row_action i);
      [now apply starts_with_do_dbscan|].
    intros track_ids.
    apply emits_bind; [now apply emits_record|]. intros.
    apply emits_bind; [|intros; apply emits_ret].
    eapply emits_weaken; [apply cluster_row_action | apply emits_clusters].
  - intros r. destruct (stop (fst r) (snd r));
      [apply emits_ret | apply emits_iterations].
Qed.

(* ================================================================== *)
(** ** Non-finite coordinates *)
(* ================================================================== *)

(** C9, as amended: [find_tracks] applies no test of finiteness.  For every
    event that has an unmasked hit, and with [max_iterations] at least 1,
    the first thing it does, whatever the libraries answer, is to hand the
    projected points of all the unmasked hits of the event, finite or not,
    to DBSCAN. *)
Theorem unmasked_points_reach_dbscan (i : nat) (xyz : list vec3)
    (hs : list Hit.t) :
  length xyz = length hs ->
  Np.any (map (fun h => negb (Hit.masked h)) hs) = true ->
  (0 < max_iterations cfg)%Z ->
  starts_with (find_tracks_event i xyz hs)
              (CallDbscan (Np.pick xyz (map (fun h => negb (Hit.masked h)) hs))).
Proof.
  intros Hlen Hany Hmax. unfold find_tracks_event.
  assert (E : map (fun h => true && negb (Hit.masked h)) hs =
              map (fun h => negb (Hit.masked h)) hs)
    by (apply map_ext; reflexivity).
  rewrite E, Hany. simpl negb. cbv iota.
  destruct (Z.to_nat (max_iterations cfg)) as [|n] eqn:En; [lia|].
  apply starts_with_bind with (Q := fit_action); [|intros; apply emits_ret].
  apply (starts_with_iterations n i xyz
           (RowState (map (fun h => negb (Hit.masked h)) hs)
                     (repeat (-1)%Z (length hs)) (-1))).
  simpl. now rewrite length_map.
Qed.

(* ================================================================== *)
(** ** The number of rounds, in every run *)
(* ================================================================== *)

Lemma row_action_only_row (i : nat) (acts : list action) :
  Forall (row_action i) acts -> only_row i acts.
Proof.
  unfold only_row. apply Forall_impl. intros a. destruct a; simpl; auto.
Qed.

Lemma row_action_rows_from (i : nat) (acts : list action) :
  Forall (row_action i) acts -> rows_from i acts.
Proof. intros H. now apply only_row_rows_from, row_action_only_row. Qed.

Lemma bounded_of_emits {A} (m : M A) (i : nat) (Q : action -> Prop) :
  (forall a, Q a -> not_round a) -> emits m Q -> bounded_rounds m i 0.
Proof.
  intros HQ Hm w. destruct (Hm w) as (acts & L & F).
  exists acts. split; [assumption|].
  rewrite not_round_rounds; [reflexivity|].
  revert F. apply Forall_impl. exact HQ.
Qed.

Lemma bounded_ret {A} (a : A) (i n : nat) : bounded_rounds (Exec.ret a) i n.
Proof. intros w. exists []. simpl. rewrite app_nil_r. split; [auto | lia]. Qed.

Lemma bounded_record (a : action) (i : nat) : bounded_rounds (record a) i 1.
Proof.
  intros w. exists [a]. split; [reflexivity|].
  destruct a; simpl; try lia. destruct (_ =? _)%nat; simpl; lia.
Qed.

Lemma bounded_bind {A B} (m : M A) (k : A -> M B) (i n1 n2 : nat) :
  bounded_rounds m i n1 -> (forall a, bounded_rounds (k a) i n2) ->
  bounded_rounds (Exec.bind m k) i (n1 + n2).
Proof.
  intros Hm Hk w. unfold Exec.bind.
  destruct (Hm w) as (acts1 & L1 & B1).
  destruct (m w) as [[a|] w1]; simpl in *.
  - destruct (Hk a w1) as (acts2 & L2 & B2).
    exists (acts1 ++ acts2). rewrite L2, L1, app_assoc.
    split; [reflexivity|]. rewrite rounds_of_app, length_app. lia.
  - exists acts1. split; [assumption | lia].
Qed.

Lemma bounded_weaken {A} (m : M A) (i n n' : nat) :
  (n <= n')%nat -> bounded_rounds m i n -> bounded_rounds m i n'.
Proof.
  intros Hle H w. destruct (H w) as (acts & L & B).
  exists acts. split; [assumption | lia].
Qed.

Lemma bounded_iteration (i i' : nat) (xyz : list vec3) (st : row_state) :
  bounded_rounds (iteration i xyz st) i' 1.
Proof.
  unfold iteration.
  apply (@bounded_bind _ _ _ _ i' 0 1).
  { apply bounded_of_emits with (Q := not_round); [auto|].
    now apply emits_do_dbscan. }
  intros track_ids.
  apply (@bounded_bind _ _ _ _ i' 1 0); [apply bounded_record|].
  intros _.
  apply (@bounded_bind _ _ _ _ i' 0 0); [|intros; apply bounded_ret].
  apply bounded_of_emits with (Q := cluster_action i);
    [|apply emits_clusters].
  intros a. destruct a; simpl; auto.
Qed.

Lemma bounded_iterations (n i i' : nat) (xyz : list vec3) (st : row_state) :
  bounded_rounds (iterations n i xyz st) i' n.
Proof.
  revert st. induction n as [|n IH]; intros st; simpl; [apply bounded_ret|].
  apply (@bounded_bind _ _ _ _ i' 1 n); [apply bounded_iteration|].
  intros r. destruct (stop (fst r) (snd r)); [apply bounded_ret | apply IH].
Qed.

Lemma bounded_find_tracks_event (i i' : nat) (xyz : list vec3)
    (hs : list Hit.t) :
  bounded_rounds (find_tracks_event i xyz hs) i'
                 (Z.to_nat (max_iterations cfg)).
Proof.
  unfold find_tracks_event. destruct (negb _); [apply bounded_ret|].
  apply bounded_weaken with (n := (Z.to_nat (max_iterations cfg) + 0)%nat);
    [lia|].
  apply bounded_bind; [apply bounded_iterations | intros; apply bounded_ret].
Qed.

Lemma emits_rows_from {A B} (f : nat -> A -> M B) (l : list A) :
  (forall i x, emits (f i x) (row_action i)) ->
  forall i0 w, exists acts,
    log (snd (Exec.for_rows f i0 l w)) = log w ++ acts /\ rows_from i0 acts.
Proof.
  intros Hf. induction l as [|x l IH]; intros i0 w; simpl.
  - exists []. rewrite app_nil_r. split; [reflexivity | constructor].
  - unfold Exec.bind at 1. destruct (Hf i0 x w) as (acts1 & L1 & F1).
    apply row_action_rows_from in F1.
    destruct (f i0 x w) as [[y|] w1]; simpl in *; [|now exists acts1].
    unfold Exec.bind. destruct (IH (S i0) w1) as (acts2 & L2 & F2).
    exists (acts1 ++ acts2). split.
    + destruct (Exec.for_rows f (S i0) l w1) as [[ys|] w2]; simpl in *;
        rewrite L2, L1, app_assoc; reflexivity.
    + apply Forall_app. split; [assumption|].
      apply rows_from_le with (i' := S i0); [lia | assumption].
Qed.

(** A loop over rows, each beginning at most [n] rounds of its own event
    and leaving markers of its own row only, begins at most [n] rounds of
    any one event. *)
Lemma bounded_for_rows {A B} (f : nat -> A -> M B) (n : nat) (l : list A) :
  (forall i x, emits (f i x) (row_action i)) ->
  (forall i x, bounded_rounds (f i x) i n) ->
  forall i0 i, bounded_rounds (Exec.for_rows f i0 l) i n.
Proof.
  intros He Hb. induction l as [|x l IH]; intros i0 i w; simpl.
  - exists []. rewrite app_nil_r. split; [reflexivity | simpl; lia].
  - unfold Exec.bind at 1.
    destruct (He i0 x w) as (acts1 & L1 & F1).
    destruct (Hb i0 x w) as (acts1' & L1' & B1).
    assert (acts1' = acts1)
      by (apply (app_inv_head (log w)); congruence).
    subst acts1'. apply row_action_only_row in F1.
    assert (B1i : (length (rounds_of i acts1) <= n)%nat).
    { destruct (Nat.eq_dec i i0) as [-> | Hne]; [assumption|].
      rewrite (only_row_rounds F1 Hne). simpl. lia. }
    destruct (f i0 x w) as [[y|] w1]; simpl in *; [|now exists acts1].
    unfold Exec.bind.
    destruct (emits_rows_from f l He (S i0) w1) as (acts2 & L2 & F2).
    destruct (IH (S i0) i w1) as (acts2' & L2' & B2).
    assert (acts2' = acts2)
      by (apply (app_inv_head (log w1)); congruence).
    subst acts2'.
    exists (acts1 ++ acts2). split.
    + destruct (Exec.for_rows f (S i0) l w1) as [[ys|] w2]; simpl in *;
        rewrite L2, L1, app_assoc; reflexivity.
    + rewrite rounds_of_app, length_app.
      destruct (Nat.eq_dec i i0) as [-> | Hne].
      * rewrite (rows_from_rounds F2) by lia. simpl. lia.
      * rewrite (only_row_rounds F1 Hne). simpl. lia.
Qed.

(** Whatever the libraries do, [find_tracks] begins at most
    [max_iterations] rounds of each event. *)
Lemma bounded_find_tracks (evs : list event) (i : nat) :
  bounded_rounds (find_tracks evs) i (Z.to_nat (max_iterations cfg)).
Proof.
  unfold find_tracks.
  apply bounded_weaken with (n := (Z.to_nat (max_iterations cfg) + 0)%nat);
    [lia|].
  apply bounded_bind; [|intros; apply bounded_ret].
  apply bounded_for_rows.
  - intros i' ex. apply emits_find_tracks_event.
  - intros i' ex. apply bounded_find_tracks_event.
Qed.

(* ================================================================== *)
(** ** [find_tracks] returns *)
(* ================================================================== *)

Lemma pick_forallb {A} (accept : A -> bool) (a : list A) (mask : list bool) :
  (forall j, nth j mask false = true -> nth j (map accept a) false = true) ->
  forallb accept (Np.pick a mask) = true.
Proof.
  revert mask. induction a as [|x a IH]; intros [|m mask] H; try reflexivity.
  simpl. assert (Ht : forallb accept (Np.pick a mask) = true).
  { apply IH. intros j Hj. exact (H (S j) Hj). }
  destruct m; [|assumption]. simpl. rewrite Ht.
  pose proof (H 0%nat eq_refl) as H0. simpl in H0. now rewrite H0.
Qed.

Lemma pick_nonempty {A} (a : list A) (mask : list bool) :
  length a = length mask -> (0 < Np.count mask)%nat -> Np.pick a mask <> [].
Proof.
  intros Hlen Hc E. apply pick_length in Hlen. rewrite E in Hlen.
  simpl in Hlen. lia.
Qed.

Lemma shrinks_refl (st : row_state) : shrinks st st.
Proof. unfold shrinks. auto. Qed.

Lemma shrinks_trans (st st1 st2 : row_state) :
  shrinks st st1 -> shrinks st1 st2 -> shrinks st st2.
Proof.
  intros (a1 & b1 & c1) (a2 & b2 & c2). unfold shrinks.
  split; [congruence|]. split; [congruence | auto].
Qed.

Section Returns.

Variable accept : vec3 -> bool.
Hypothesis Hdbscan : dbscan_total accept.
Hypothesis Hransac : ransac_total accept.

Lemma do_dbscan_ok (xyz : list vec3) (mask : list bool) (w : world rng) :
  length xyz = length mask ->
  (0 < Np.count mask)%nat ->
  (forall j, nth j mask false = true -> nth j (map accept xyz) false = true) ->
  exists labels w', _do_dbscan xyz mask w = (Some labels, w').
Proof using Hdbscan.
  intros Hlen Hc Hacc. unfold _do_dbscan.
  rewrite (select_ok _ _ Hlen).
  destruct (Hdbscan (pick_nonempty _ _ Hlen Hc) (pick_forallb _ _ _ Hacc))
    as (labels & Hfit & Hl).
  unfold Exec.bind, Exec.lift, dbscan, record. simpl. rewrite Hfit.
  rewrite put_mask_ok; [eauto | now rewrite repeat_length |].
  rewrite Hl. now apply pick_length.
Qed.

Lemma do_ransac_ok (xyz : list vec3) (mask : list bool) (w : world rng) :
  length xyz = length mask ->
  (ransac_min_samples cfg < Np.sum mask)%Z ->
  (forall j, nth j mask false = true -> nth j (map accept xyz) false = true) ->
  exists inliers w',
    _do_ransac xyz mask w = (Some inliers, w') /\
    forall v, inliers = Some v -> length v = Np.count mask.
Proof using Hransac.
  intros Hlen Hmin Hacc. unfold _do_ransac.
  rewrite (select_ok _ _ Hlen).
  pose proof (pick_length _ _ Hlen) as Hpl.
  destruct (Hransac (Np.pick xyz mask) (rng_state w))
    as (inliers & g' & Hfit & Hv).
  { unfold Np.sum in Hmin. now rewrite Hpl. }
  { now apply pick_forallb. }
  unfold ransac, record, Exec.bind, Exec.lift. simpl. rewrite Hfit.
  exists inliers. eexists. split; [reflexivity|].
  intros v Ev. now rewrite (Hv v Ev).
Qed.

Lemma keep_inliers_ok (mask : list bool) (inliers : option (list bool)) :
  (forall v, inliers = Some v -> length v = Np.count mask) ->
  exists mask', keep_inliers mask inliers = Some mask'.
Proof.
  intros Hv. destruct inliers as [v|]; simpl.
  - rewrite put_mask_ok; eauto.
  - rewrite set_where_ok; eauto.
Qed.

Lemma assign_track_ok (i : nat) (labels : list Z) (id_ : Z) (st : row_state)
    (w : world rng) :
  length (track_id st) = length labels ->
  length (iter_mask st) = length labels ->
  exists st' w',
    assign_track i labels id_ st w = (Some st', w') /\ shrinks st st'.
Proof.
  intros Ht Hm. unfold assign_track.
  destruct (id_ =? -1)%Z.
  { exists st, w. split; [reflexivity | apply shrinks_refl]. }
  unfold Exec.bind, Exec.lift, record, Exec.ret.
  rewrite !set_where_ok by (now rewrite eq_scalar_length). simpl.
  eexists. eexists. split; [reflexivity|].
  unfold shrinks. simpl. rewrite !store_length.
  split; [reflexivity|]. split; [reflexivity|].
  intros j. rewrite store_nth by (now rewrite eq_scalar_length).
  now destruct (nth j (Np.eq_scalar labels id_) false).
Qed.

(** A loop whose body returns and keeps the shape of the state returns. *)
Lemma for_each_ok {A} (body : A -> row_state -> M row_state) (l : list A)
    (st0 : row_state) :
  (forall x st w,
      shrinks st0 st ->
      exists st' w', body x st w = (Some st', w') /\ shrinks st st') ->
  forall st w,
    shrinks st0 st ->
    exists st' w',
      Exec.for_each l body st w = (Some st', w') /\ shrinks st0 st'.
Proof.
  intros Hb. induction l as [|x l IH]; intros st w Hs; simpl.
  - exists st, w. auto.
  - destruct (Hb x st w Hs) as (st1 & w1 & E1 & S1).
    destruct (IH st1 w1 (shrinks_trans Hs S1)) as (st2 & w2 & E2 & S2).
    exists st2, w2. split; [|assumption].
    unfold Exec.bind. now rewrite E1.
Qed.

Lemma fit_cluster_ok (i : nat) (xyz : list vec3) (track_ids : list Z)
    (id_ : Z) (st : row_state) (w : world rng) :
  length xyz = length track_ids ->
  length (track_id st) = length track_ids ->
  length (iter_mask st) = length track_ids ->
  (forall j, nth j track_ids (-1)%Z <> (-1)%Z ->
             nth j (map accept xyz) false = true) ->
  exists st' w',
    fit_cluster i xyz track_ids id_ st w = (Some st', w') /\ shrinks st st'.
Proof using Hdbscan Hransac.
  intros Hx Ht Hm Hacc. unfold fit_cluster.
  destruct (id_ =? -1)%Z eqn:Eid.
  { exists st, w. split; [reflexivity | apply shrinks_refl]. }
  apply Z.eqb_neq in Eid.
  set (mask := Np.eq_scalar track_ids id_).
  assert (Lmask : length mask = length track_ids)
    by apply eq_scalar_length.
  assert (Amask : forall j, nth j mask false = true ->
                            nth j (map accept xyz) false = true).
  { intros j Hj. apply Hacc. unfold mask in Hj.
    rewrite eq_scalar_nth in Hj by assumption.
    apply Z.eqb_eq in Hj. congruence. }
  destruct (Np.sum mask <=? ransac_min_samples cfg)%Z eqn:Esz.
  { exists st, w. split; [reflexivity | apply shrinks_refl]. }
  apply Z.leb_gt in Esz.
  destruct (do_ransac_ok xyz mask w) as (inliers & w1 & Er & Hv);
    [congruence | assumption | assumption |].
  destruct (@keep_inliers_ok mask inliers Hv) as (mask' & Ek).
  erewrite bind_ok by exact Er.
  unfold Exec.bind at 1. unfold Exec.lift at 1. rewrite Ek.
  destruct (Np.sum mask' <? 1)%Z eqn:Ec.
  { exists st, w1. split; [reflexivity | apply shrinks_refl]. }
  apply Z.ltb_ge in Ec.
  apply keep_inliers_Some in Ek as (Lk & Hsub).
  destruct (do_dbscan_ok xyz mask' w1) as (final_track_ids & w2 & Ed).
  { congruence. }
  { unfold Np.sum in Ec. lia. }
  { intros j Hj. apply Amask.
    destruct (nth j mask false) eqn:E; [reflexivity|].
    specialize (Hsub j E). congruence. }
  erewrite bind_ok by exact Ed.
  apply do_dbscan_Some in Ed as (_ & _ & _ & Lf & _).
  apply for_each_ok; [|apply shrinks_refl].
  intros x st1 w3 (a & b & _). apply assign_track_ok; congruence.
Qed.

Lemma iteration_ok (i : nat) (xyz : list vec3) (st : row_state)
    (w : world rng) :
  length xyz = length (iter_mask st) ->
  length (track_id st) = length (iter_mask st) ->
  Np.any (iter_mask st) = true ->
  (forall j, nth j (iter_mask st) false = true ->
             nth j (map accept xyz) false = true) ->
  exists track_ids st' w',
    iteration i xyz st w = (Some (track_ids, st'), w') /\ shrinks st st'.
Proof using Hdbscan Hransac.
  intros Hx Ht Hany Hacc. unfold iteration.
  destruct (do_dbscan_ok xyz (iter_mask st) w) as (track_ids & w1 & Ed);
    [assumption | now apply any_count | assumption |].
  erewrite bind_ok by exact Ed.
  apply do_dbscan_Some in Ed as (_ & _ & _ & Ll & Hout).
  unfold Exec.bind at 1. unfold record at 1.
  destruct (@for_each_ok Z (fit_cluster i xyz track_ids)
              (Np.unique track_ids) st) with (st := st)
      (w := World (rng_state w1) (log w1 ++ [Round i track_ids]))
    as (st' & w' & Ef & Hs).
  { intros x st1 w2 (a & b & _). apply fit_cluster_ok; try congruence.
    intros j Hj. apply Hacc.
    destruct (nth j (iter_mask st) false) eqn:E; [reflexivity|].
    now specialize (Hout j E). }
  { apply shrinks_refl. }
  exists track_ids, st', w'. split; [|assumption].
  erewrite bind_ok by exact Ef. reflexivity.
Qed.

Lemma iterations_ok (n i : nat) (xyz : list vec3) (st : row_state)
    (w : world rng) :
  length xyz = length (iter_mask st) ->
  length (track_id st) = length (iter_mask st) ->
  Np.any (iter_mask st) = true ->
  (forall j, nth j (iter_mask st) false = true ->
             nth j (map accept xyz) false = true) ->
  exists st' w', iterations n i xyz st w = (Some st', w').
Proof using Hdbscan Hransac.
  revert st w. induction n as [|n IH]; intros st w Hx Ht Hany Hacc; simpl.
  - now exists st, w.
  - destruct (iteration_ok i xyz st w Hx Ht Hany Hacc)
      as (track_ids & st1 & w1 & Ei & (a & b & c)).
    erewrite bind_ok by exact Ei. simpl.
    destruct (stop track_ids st1) eqn:Es; [now exists st1, w1|].
    unfold stop in Es. apply orb_false_iff in Es as [_ Es].
    apply negb_false_iff in Es.
    apply IH; try congruence. auto.
Qed.

Lemma find_tracks_event_ok (i : nat) (xyz : list vec3) (hs : list Hit.t)
    (w : world rng) :
  length xyz = length hs ->
  (forall j, nth j (map Hit.masked hs) true = false ->
             nth j (map accept xyz) false = true) ->
  exists row w', find_tracks_event i xyz hs w = (Some row, w').
Proof using Hdbscan Hransac.
  intros Hx Hacc. unfold find_tracks_event.
  destruct (negb _) eqn:Eany; [eexists; eexists; reflexivity|].
  apply negb_false_iff in Eany.
  destruct (iterations_ok (Z.to_nat (max_iterations cfg)) i xyz
              (RowState (map (fun h => true && negb (Hit.masked h)) hs)
                        (repeat (-1)%Z (length hs)) (-1)) w)
    as (st & w' & Ei); simpl.
  - now rewrite length_map.
  - now rewrite length_map, repeat_length.
  - assumption.
  - intros j Hj. apply Hacc. rewrite iter_mask0_nth in Hj.
    now apply negb_true_iff in Hj.
  - erewrite bind_ok by exact Ei. eexists; eexists; reflexivity.
Qed.

Lemma for_rows_ok {A B} (f : nat -> A -> M B) (l : list A) :
  (forall i x w, In x l -> exists y w', f i x w = (Some y, w')) ->
  forall i0 w, exists ys w', Exec.for_rows f i0 l w = (Some ys, w').
Proof.
  induction l as [|x l IH]; intros Hf i0 w; simpl.
  - eexists; eexists; reflexivity.
  - destruct (Hf i0 x w (or_introl eq_refl)) as (y & w1 & E1).
    destruct (IH (fun i x' w' Hin => Hf i x' w' (or_intror Hin)) (S i0) w1)
      as (ys & w2 & E2).
    erewrite bind_ok by exact E1. erewrite bind_ok by exact E2.
    eexists; eexists; reflexivity.
Qed.

Lemma find_tracks_ok (evs : list event) (w : world rng) :
  inputs_accepted accept evs ->
  exists res w', find_tracks evs w = (Some res, w').
Proof using Hdbscan Hransac.
  intros Hin. unfold find_tracks.
  destruct (@for_rows_ok (event * list vec3) (list Z)
              (fun i ex => find_tracks_event i (snd ex) (hits (fst ex)))
              (combine evs (hit_xyz evs))) with (i0 := 0%nat) (w := w)
    as (rows & w' & E).
  { intros i [e xyz] w0 Hex. simpl.
    assert (He : In e evs) by (eapply in_combine_l; eassumption).
    assert (Hxyz : xyz = map (fun h => hit_xyz1 h (t0_ts e)) (hits e)).
    { apply In_nth_error in Hex as (p & Hp).
      apply nth_error_combine_inv in Hp as [Hp1 Hp2].
      unfold hit_xyz in Hp2. rewrite nth_error_map, Hp1 in Hp2.
      simpl in Hp2. congruence. }
    subst xyz. apply find_tracks_event_ok; [apply length_map|].
    intros j Hj. rewrite map_map.
    destruct (nth_error (hits e) j) as [h|] eqn:Eh.
    - rewrite (nth_error_nth _ _ _
                 (eq_trans (nth_error_map _ _ _) (f_equal _ Eh))) in Hj.
      rewrite (nth_error_nth _ _ _
                 (eq_trans (nth_error_map _ _ _) (f_equal _ Eh))).
      apply (Hin e h He); [|assumption].
      eapply nth_error_In; eassumption.
    - apply nth_error_None in Eh.
      rewrite nth_overflow in Hj by (now rewrite length_map).
      discriminate. }
  erewrite bind_ok by exact E. eexists; eexists; reflexivity.
Qed.

End Returns.

Lemma logical_and_nth (a b r : list bool) (k : nat) :
  Np.logical_and a b = Some r ->
  nth k r false = nth k a false && nth k b false.
Proof.
  unfold Np.logical_and. destruct (length a =? length b)%nat eqn:E;
    [|discriminate]. apply Nat.eqb_eq in E. intros [= <-].
  revert b k E. induction a as [|x a IH]; intros [|y b] k E;
    try discriminate; destruct k; simpl; auto.
Qed.

(** A position that holds [-1] is in the mask of no track. *)
Lemma track_mask_unassigned (tids : list (Z * bool)) (hs : list Hit.t)
    (t k : nat) (mask : list bool) :
  track_mask tids hs (Z.of_nat t) = Some mask ->
  nth k (map fst tids) (-1)%Z = (-1)%Z ->
  nth k mask false = false.
Proof.
  unfold track_mask. intros H Hk.
  destruct (Np.logical_and _ _) as [m|] eqn:E; [|discriminate].
  rewrite (logical_and_nth _ _ k H), (logical_and_nth _ _ k E).
  rewrite eq_scalar_nth by lia. rewrite Hk.
  assert (Hne : (-1 =? Z.of_nat t)%Z = false) by (apply Z.eqb_neq; lia).
  now rewrite Hne.
Qed.


(* ================================================================== *)
(** ** [calc_tracks] *)
(* ================================================================== *)

(** The entries of the result of a loop over rows are results of its
    body. *)
Lemma for_rows_values {A B} (f : nat -> A -> M B) (l : list A) :
  forall i0 ys w w',
    Exec.for_rows f i0 l w = (Some ys, w') ->
    length ys = length l /\
    forall p x y,
      nth_error l p = Some x -> nth_error ys p = Some y ->
      exists w1 w2, f (i0 + p)%nat x w1 = (Some y, w2).
Proof.
  induction l as [|x l IH]; intros i0 ys w w' H; simpl in H.
  - exec_inv. split; [reflexivity|]. intros [|p]; discriminate.
  - apply bind_Some in H as (y & w1 & Hy & H).
    apply bind_Some in H as (ys' & w2 & Hys & H).
    apply ret_Some in H as [-> ->].
    apply IH in Hys as (Len & Hrest).
    split; [simpl; now rewrite Len|].
    intros [|p] x' y' Hx Hy'; simpl in Hx, Hy'.
    + injection Hx as <-. injection Hy' as <-.
      rewrite Nat.add_0_r. eauto.
    + rewrite Nat.add_succ_r. eapply Hrest; eassumption.
Qed.

Lemma logical_and_count_r (a b r : list bool) :
  Np.logical_and a b = Some r -> (Np.count r <= Np.count b)%nat.
Proof.
  unfold Np.logical_and. destruct (length a =? length b)%nat eqn:E;
    [|discriminate]. apply Nat.eqb_eq in E. intros [= <-].
  revert b E. induction a as [|x a IH]; intros [|y b] E; try discriminate.
  - simpl. lia.
  - simpl in E. injection E as E. specialize (IH b E). simpl.
    rewrite !count_cons. destruct x, y; simpl; lia.
Qed.

(** A track has no more hits than the event has unmasked hits. *)
Lemma track_mask_count (tids : list (Z * bool)) (hs : list Hit.t) (j : Z)
    (mask : list bool) :
  track_mask tids hs j = Some mask ->
  (Np.count mask <= Np.count (map (fun h => negb (Hit.masked h)) hs))%nat.
Proof.
  unfold track_mask. destruct (Np.logical_and _ _) as [m|]; [|discriminate].
  intros H. apply logical_and_count_r in H.
  unfold Np.logical_not in H. now rewrite map_map in H.
Qed.

(** One entry of the result: it is filled exactly when the track has at
    least 2 hits, and then [nhit] is their number. *)
Lemma calc_track_Some (xyz : list vec3) (hs : list Hit.t)
    (tids : list (Z * bool)) (j : nat) (o : option Track.t)
    (w w' : world rng) :
  calc_track xyz hs tids j w = (Some o, w') ->
  exists mask,
    track_mask tids hs (Z.of_nat j) = Some mask /\
    match o with
    | Some t => Track.nhit t = Np.sum mask /\ (2 <= Track.nhit t)%Z
    | None => (Np.sum mask < 2)%Z
    end.
Proof.
  unfold calc_track. intros H.
  apply bind_Some in H as (mask & w1 & Hm & H).
  apply lift_Some in Hm as [Hm ->].
  exists mask. split; [assumption|]. unfold Np.sum.
  destruct (Np.count mask <? 2)%nat eqn:Ec.
  - apply Nat.ltb_lt in Ec. exec_inv. lia.
  - apply Nat.ltb_ge in Ec. exec_inv. simpl. unfold Np.sum. lia.
Qed.

(** C6: in the array that [calc_tracks] returns, the entry of track [t] of
    an event is filled exactly when at least 2 unmasked hits of the event
    carry the id [t], and its [nhit] is their number, so at least 2; it is
    left masked otherwise.  In particular the row of an event with at most
    one unmasked hit is masked throughout: the event yields no track. *)
Theorem tracks_have_two_hits (evs : list event)
    (track_ids : list (list (Z * bool)))
    (tracks : list (list (option Track.t))) (w : world rng) :
  fst (calc_tracks evs track_ids w) = Some tracks ->
  length tracks = length evs /\
  forall i e row,
    nth_error evs i = Some e ->
    nth_error tracks i = Some row ->
    (forall t o,
        nth_error row t = Some o ->
        exists tids mask,
          nth_error track_ids i = Some tids /\
          track_mask tids (hits e) (Z.of_nat t) = Some mask /\
          match o with
          | Some tr => Track.nhit tr = Np.sum mask /\ (2 <= Track.nhit tr)%Z
          | None => (Np.sum mask < 2)%Z
          end) /\
    ((Np.count (map (fun h => negb (Hit.masked h)) (hits e)) <= 1)%nat ->
     forall t o, nth_error row t = Some o -> o = None).
Proof.
  intros H. apply returned in H. unfold calc_tracks in H.
  apply for_rows_values in H as (Len & Hrows).
  assert (Lc : length (combine evs (hit_xyz evs)) = length evs).
  { rewrite length_combine. unfold hit_xyz. rewrite length_map. lia. }
  split; [congruence|].
  intros i e row He Hrow.
  assert (Hx : nth_error (combine evs (hit_xyz evs)) i =
               Some (e, map (fun h => hit_xyz1 h (t0_ts e)) (hits e))).
  { apply nth_error_combine; [assumption|].
    unfold hit_xyz. now rewrite nth_error_map, He. }
  destruct (Hrows i _ row Hx Hrow) as (w1 & w2 & Hev).
  unfold calc_tracks_event in Hev. simpl in Hev.
  apply bind_Some in Hev as (tids & w3 & Ht & Hev).
  apply lift_Some in Ht as [Ht ->].
  apply for_rows_values in Hev as (Lrow & Hent).
  assert (Hfill : forall t o,
             nth_error row t = Some o ->
             exists mask,
               track_mask tids (hits e) (Z.of_nat t) = Some mask /\
               match o with
               | Some tr =>
                   Track.nhit tr = Np.sum mask /\ (2 <= Track.nhit tr)%Z
               | None => (Np.sum mask < 2)%Z
               end).
  { intros t o Ho.
    assert (Hlt : (t < length (seq 0 (n_tracks track_ids)))%nat).
    { rewrite <- Lrow. apply nth_error_Some. congruence. }
    rewrite length_seq in Hlt.
    assert (Hseq : nth_error (seq 0 (n_tracks track_ids)) t = Some t).
    { rewrite nth_error_nth' with (d := 0%nat) by (now rewrite length_seq).
      now rewrite seq_nth. }
    destruct (Hent t t o Hseq Ho) as (w4 & w5 & Hc).
    now apply calc_track_Some in Hc. }
  split.
  - intros t o Ho. destruct (Hfill t o Ho) as (mask & Hm & Hfit).
    now exists tids, mask.
  - intros Hone t o Ho. destruct (Hfill t o Ho) as (mask & Hm & Hfit).
    destruct o as [tr|]; [|reflexivity].
    apply track_mask_count in Hm. unfold Np.sum in Hfit. lia.
Qed.

(* ================================================================== *)
(** ** The Geometry Projector and the plane intersection *)
(* ================================================================== *)

(** C4: every entry of [hit_xyz(hits, t0)] has the hit's [px] and [py] as
    its x and y, and as its z the geometry lookup at the hit's io group,
    io channel and drift distance [(ts - t0.ts) * v_drift * crs_ticks]. *)
Theorem hit_xyz_projection (evs : list event) :
  hit_xyz evs =
  map (fun e =>
         map (fun h =>
                V3 (Hit.px h) (Hit.py h)
                   (get_z_coordinate (Hit.iogroup h) (Hit.iochannel h)
                      ((Hit.ts h - t0_ts e) * v_drift * crs_ticks)%f8))
             (hits e))
      evs.
Proof.
  unfold hit_xyz, hit_xyz1, drift_d.
  apply map_ext; intros e. apply map_ext; intros h.
  now rewrite f8_mul_assoc.
Qed.

Lemma f8_eqb_zero_fin (q : Qc) : (Fin q == zero)%f8 = false -> q <> 0%Qc.
Proof.
  unfold eqb, zero. destruct (Qc_eq_dec q 0); [discriminate | auto].
Qed.

Lemma v_finite_inv (a : vec3) :
  v_finite a = true -> exists x y z, a = V3 (Fin x) (Fin y) (Fin z).
Proof.
  destruct a as [[x| | |] [y| | |] [z| | |]]; try discriminate.
  intros _. now exists x, y, z.
Qed.

Lemma line_point_fin (c1 c2 c3 a1 a2 a3 t : Qc) :
  line_point (V3 (Fin c1) (Fin c2) (Fin c3)) (V3 (Fin a1) (Fin a2) (Fin a3))
             (Fin t) =
  V3 (Fin (c1 + a1 * t)) (Fin (c2 + a2 * t)) (Fin (c3 + a3 * t)).
Proof. reflexivity. Qed.

Lemma xyp_fin (c1 c2 c3 a1 a2 a3 : Qc) :
  a3 <> 0%Qc ->
  xyp (V3 (Fin a1) (Fin a2) (Fin a3)) (V3 (Fin c1) (Fin c2) (Fin c3)) =
  (Fin (c1 + a1 * (- c3 / a3)), Fin (c2 + a2 * (- c3 / a3))).
Proof.
  intros Ha3. unfold xyp, eqb, zero, div, opp, vz.
  destruct (Qc_eq_dec a3 0) as [E | _]; [contradiction | reflexivity].
Qed.

(** The value of [xyp] on a finite axis and centroid. *)
Lemma xyp_line_plane (axis centroid : vec3) :
  v_finite axis = true ->
  v_finite centroid = true ->
  ((vz axis == zero)%f8 = true ->
   xyp axis centroid = (vx centroid, vy centroid)) /\
  ((vz axis == zero)%f8 = false ->
   (exists t, is_finite t = true /\ vz (line_point centroid axis t) = zero) /\
   (forall t,
       is_finite t = true ->
       vz (line_point centroid axis t) = zero ->
       xyp axis centroid =
       (vx (line_point centroid axis t), vy (line_point centroid axis t)))).
Proof.
  intros Ha Hc. split.
  - intros Hz. unfold xyp. now rewrite Hz.
  - intros Hz.
    destruct (v_finite_inv _ Ha) as (a1 & a2 & a3 & ->).
    destruct (v_finite_inv _ Hc) as (c1 & c2 & c3 & ->).
    pose proof (f8_eqb_zero_fin Hz) as Ha3.
    split.
    + exists (Fin (- c3 / a3)%Qc). split; [reflexivity |].
      rewrite line_point_fin. unfold zero, vz. f_equal. now field.
    + intros [t| | |] Ht; try discriminate. clear Ht.
      rewrite line_point_fin. unfold zero, vz, vx, vy. intros Hline.
      assert (Hline' : (c3 + a3 * t = 0)%Qc) by congruence.
      assert (Et : t = (- c3 / a3)%Qc).
      { assert (E : (- c3 = a3 * t)%Qc).
        { replace (a3 * t)%Qc with (c3 + a3 * t - c3)%Qc by ring.
          rewrite Hline'. ring. }
        rewrite E. now field. }
      rewrite (xyp_fin _ _ _ _ _ Ha3), <- Et. reflexivity.
Qed.

(** The [xp], [yp] of a filled entry of [calc_tracks] are [xyp] of the axis
    and centroid [do_pca] returned for the hits of the track. *)
Lemma calc_track_xyp (xyz : list vec3) (hs : list Hit.t)
    (tids : list (Z * bool)) (j : nat) (tr : Track.t) (w w' : world rng) :
  calc_track xyz hs tids j w = (Some (Some tr), w') ->
  exists mask centroid axis w1 w2,
    track_mask tids hs (Z.of_nat j) = Some mask /\
    do_pca xyz mask w1 = (Some (centroid, axis), w2) /\
    (Track.xp tr, Track.yp tr) = xyp axis centroid.
Proof.
  unfold calc_track. intros H.
  apply bind_Some in H as (mask & w1 & Hm & H).
  apply lift_Some in Hm as [Hm ->].
  destruct (Np.count mask <? 2)%nat; [exec_inv; discriminate|].
  apply bind_Some in H as ([centroid axis] & w2 & Hp & H).
  exec_inv.
  match goal with
  | E : Some tr = Some _ |- _ => injection E as ->
  end.
  exists mask, centroid, axis, w, w2. simpl.
  split; [assumption|]. split; [assumption|].
  now destruct (xyp axis centroid).
Qed.

(** C7: the [xp], [yp] of every track are [xyp] of the axis and centroid of
    the track; and for a finite axis and centroid, [xyp] is the centroid's
    (x, y) when the axis has no z component; otherwise the line through the
    centroid along the axis meets the plane z = 0, and [xyp] is the (x, y)
    of any point at which it does. *)
Theorem xyp_plane_intersection :
  (forall xyz hs tids j tr w,
      fst (calc_track xyz hs tids j w) = Some (Some tr) ->
      exists mask centroid axis w1 w2,
        track_mask tids hs (Z.of_nat j) = Some mask /\
        do_pca xyz mask w1 = (Some (centroid, axis), w2) /\
        (Track.xp tr, Track.yp tr) = xyp axis centroid) /\
  (forall axis centroid,
      v_finite axis = true ->
      v_finite centroid = true ->
      ((vz axis == zero)%f8 = true ->
       xyp axis centroid = (vx centroid, vy centroid)) /\
      ((vz axis == zero)%f8 = false ->
       (exists t, is_finite t = true /\
                  vz (line_point centroid axis t) = zero) /\
       (forall t,
           is_finite t = true ->
           vz (line_point centroid axis t) = zero ->
           xyp axis centroid =
           (vx (line_point centroid axis t),
            vy (line_point centroid axis t))))).
Proof.
  split.
  - intros xyz hs tids j tr w H. apply returned in H.
    now apply calc_track_xyp in H.
  - exact xyp_line_plane.
Qed.

(* ================================================================== *)
(** ** Boolean-mask selection and assignment compose *)
(* ================================================================== *)

(** Reading back through the mask what was stored through it. *)
Lemma pick_scatter {A} (a : list A) (mask : list bool) (vals : list A) :
  length a = length mask -> length vals = Np.count mask ->
  Np.pick (Np.scatter a mask vals) mask = vals.
Proof.
  revert mask vals. induction a as [|x a IH]; intros [|m mask] vals Ha Hv;
    try discriminate.
  - destruct vals; [reflexivity | discriminate].
  - simpl in Ha. injection Ha as Ha. rewrite count_cons in Hv.
    destruct m; simpl.
    + destruct vals as [|v vals]; [discriminate|]. simpl in Hv.
      injection Hv as Hv. simpl. f_equal. now apply IH.
    + now apply IH.
Qed.

Lemma pick_store {A} (a : list A) (mask : list bool) (v : A) :
  length a = length mask ->
  Np.pick (Np.store a mask v) mask = repeat v (Np.count mask).
Proof.
  revert mask. induction a as [|x a IH]; intros [|m mask] Ha;
    try discriminate; [reflexivity|].
  simpl in Ha. injection Ha as Ha. rewrite count_cons.
  destruct m; simpl; [f_equal|]; now apply IH.
Qed.

(** Selecting with [mask] refined by [v] is selecting with [mask], then
    with [v]. *)
Lemma pick_scatter_self {A} (a : list A) (mask v : list bool) :
  length a = length mask -> length v = Np.count mask ->
  Np.pick a (Np.scatter mask mask v) = Np.pick (Np.pick a mask) v.
Proof.
  revert mask v. induction a as [|x a IH]; intros [|m mask] v Ha Hv;
    try discriminate.
  - reflexivity.
  - simpl in Ha. injection Ha as Ha. rewrite count_cons in Hv.
    destruct m; simpl.
    + destruct v as [|b v]; [discriminate|]. simpl in Hv.
      injection Hv as Hv. simpl. destruct b; [f_equal|]; now apply IH.
    + now apply IH.
Qed.

Lemma count_scatter_self (mask v : list bool) :
  length v = Np.count mask ->
  Np.count (Np.scatter mask mask v) = Np.count v.
Proof.
  revert v. induction mask as [|m mask IH]; intros v Hv.
  - destruct v; [reflexivity | discriminate].
  - rewrite count_cons in Hv. destruct m; simpl.
    + destruct v as [|b v]; [discriminate|]. simpl in Hv.
      injection Hv as Hv. rewrite !count_cons. f_equal. now apply IH.
    + rewrite count_cons. simpl. now apply IH.
Qed.

Lemma pick_all_false {A} (a : list A) (mask : list bool) :
  Np.count mask = 0%nat -> Np.pick a mask = [].
Proof.
  revert mask. induction a as [|x a IH]; intros [|m mask] H; try reflexivity.
  rewrite count_cons in H. destruct m; [discriminate|]. simpl. now apply IH.
Qed.

(** X1: when [_do_dbscan] returns, the array it returns has one entry
    per entry of [mask]; it holds [-1] wherever the mask is not set, and
    read back through the mask it is the array of labels DBSCAN gave for
    the selected points (a single label being broadcast to all of them). *)
Theorem do_dbscan_labels (xyz : list vec3) (mask : list bool) (r : list Z)
    (w : world rng) :
  fst (_do_dbscan xyz mask w) = Some r ->
  length r = length mask /\
  (forall j, nth j mask false = false -> nth j r (-1)%Z = (-1)%Z) /\
  exists labels,
    dbscan_fit (dbscan_eps cfg) (dbscan_min_samples cfg) (Np.pick xyz mask)
    = Some labels /\
    (Np.pick r mask = labels \/
     exists v, labels = [v] /\ Np.pick r mask = repeat v (Np.count mask)).
Proof.
  intros H. apply returned in H.
  destruct (do_dbscan_Some _ _ _ H) as (_ & _ & _ & Hlen & Hout).
  split; [assumption|]. split; [assumption|].
  unfold _do_dbscan, dbscan in H. exec_inv.
  match goal with
  | E : Np.select _ _ = Some _ |- _ => apply select_Some in E as (_ & -> & _)
  end.
  exists x1. split; [assumption|].
  unfold Np.put_mask in H. rewrite repeat_length, Nat.eqb_refl in H.
  simpl in H.
  destruct (length x1 =? Np.count mask)%nat eqn:E.
  - apply Nat.eqb_eq in E. injection H as <-. left.
    apply pick_scatter; [apply repeat_length | assumption].
  - destruct x1 as [|v [|]]; try discriminate. injection H as <-. right.
    exists v. split; [reflexivity|]. apply pick_store, repeat_length.
Qed.

(** X2: [_do_dbscan] raises in three cases only: the mask does not have
    the length of the coordinate array; DBSCAN itself raises on the
    selected points; or DBSCAN returns a number of labels that is neither
    the number of selected points nor 1. *)
Theorem do_dbscan_raises (xyz : list vec3) (mask : list bool)
    (w : world rng) :
  fst (_do_dbscan xyz mask w) = None <->
  length xyz <> length mask \/
  dbscan_fit (dbscan_eps cfg) (dbscan_min_samples cfg) (Np.pick xyz mask)
  = None \/
  exists labels,
    dbscan_fit (dbscan_eps cfg) (dbscan_min_samples cfg) (Np.pick xyz mask)
    = Some labels /\
    length labels <> Np.count mask /\ length labels <> 1%nat.
Proof.
  unfold _do_dbscan, dbscan, Exec.bind, Exec.lift, record, Np.select,
    Np.put_mask.
  rewrite repeat_length, Nat.eqb_refl. simpl.
  destruct (length xyz =? length mask)%nat eqn:El; simpl.
  - apply Nat.eqb_eq in El.
    destruct (dbscan_fit _ _ _) as [labels|] eqn:Ed; simpl.
    + destruct (length labels =? Np.count mask)%nat eqn:Ec; simpl.
      * apply Nat.eqb_eq in Ec. split; [discriminate|].
        intros [Hl | [Hn | (l & [= <-] & Hc & _)]];
          [contradiction | discriminate | contradiction].
      * apply Nat.eqb_neq in Ec.
        destruct labels as [|v [|v' labels]]; simpl.
        -- split; [|reflexivity]. intros _. right. right.
           exists []. simpl in *. repeat split; auto.
        -- split; [discriminate|].
           intros [Hl | [Hn | (l & [= <-] & _ & H1)]];
             [contradiction | discriminate | now elim H1].
        -- split; [|reflexivity]. intros _. right. right.
           exists (v :: v' :: labels). simpl in *. repeat split; auto.
    + split; [auto | reflexivity].
  - apply Nat.eqb_neq in El. split; [auto | reflexivity].
Qed.

(** X3: [mask[mask] = inliers], for an inlier mask with one entry per
    selected point, succeeds, and the refined mask selects from any array
    what [inliers] selects among the entries that [mask] selects:
    [xyz[mask'] = xyz[mask][inliers]].  When RANSAC returns no mask, the
    refined mask selects nothing. *)
Theorem keep_inliers_selects {A} (xyz : list A) (mask : list bool) :
  length xyz = length mask ->
  (forall v,
      length v = Np.count mask ->
      exists mask',
        keep_inliers mask (Some v) = Some mask' /\
        Np.pick xyz mask' = Np.pick (Np.pick xyz mask) v /\
        Np.count mask' = Np.count v) /\
  (exists mask',
      keep_inliers mask None = Some mask' /\ Np.pick xyz mask' = []).
Proof.
  intros Hlen. split.
  - intros v Hv. exists (Np.scatter mask mask v). simpl.
    split; [now apply put_mask_ok|].
    split; [now apply pick_scatter_self | now apply count_scatter_self].
  - exists (Np.store mask mask false). simpl.
    split; [now apply set_where_ok|].
    apply pick_all_false, store_self_false.
Qed.

(* ================================================================== *)
(** ** [find_tracks]: events that need no fit *)
(* ================================================================== *)

(** A loop over rows whose body returns without touching the state. *)
Lemma for_rows_idle {A B} (f : nat -> A -> M B) (g : A -> B) (l : list A)
    (w : world rng) :
  (forall i x, In x l -> f i x w = (Some (g x), w)) ->
  forall i0, Exec.for_rows f i0 l w = (Some (map g l), w).
Proof.
  induction l as [|x l IH]; intros Hf i0; [reflexivity|].
  simpl. unfold Exec.bind at 1. rewrite Hf by now left.
  unfold Exec.bind at 1. rewrite IH; [reflexivity|].
  intros i y Hy. apply Hf. now right.
Qed.

(** An event with no unmasked hit, or any event when [max_iterations] is
    not positive, is passed over. *)
Lemma find_tracks_event_idle (i : nat) (xyz : list vec3) (hs : list Hit.t)
    (w : world rng) :
  forallb Hit.masked hs = true \/ (max_iterations cfg <= 0)%Z ->
  find_tracks_event i xyz hs w = (Some (repeat (-1)%Z (length hs)), w).
Proof.
  intros H. unfold find_tracks_event.
  destruct (negb (Np.any (map (fun h => true && negb (Hit.masked h)) hs)))
    eqn:E; [reflexivity|].
  destruct H as [H | H].
  - exfalso. apply negb_false_iff, any_true_iff in E as (j & Hj).
    rewrite iter_mask0_nth in Hj. apply negb_true_iff in Hj.
    rewrite forallb_forall in H.
    destruct (nth_error hs j) as [h|] eqn:Eh.
    + assert (Hm : nth j (map Hit.masked hs) true = Hit.masked h).
      { apply nth_error_nth. now rewrite nth_error_map, Eh. }
      rewrite Hm, (H h) in Hj; [discriminate|].
      eapply nth_error_In; eassumption.
    + apply nth_error_None in Eh.
      rewrite nth_overflow in Hj by (now rewrite length_map).
      discriminate.
  - replace (Z.to_nat (max_iterations cfg)) with 0%nat by lia. reflexivity.
Qed.

Lemma combine_repeat_masked (hs : list Hit.t) :
  combine (repeat (-1)%Z (length hs)) (map Hit.masked hs) =
  map (fun h => ((-1)%Z, Hit.masked h)) hs.
Proof. forget_unused. induction hs as [|h hs IH]; simpl; [|rewrite IH]; reflexivity. Qed.

Lemma find_tracks_idle (evs : list event) (w : world rng) :
  (forall e, In e evs ->
             forallb Hit.masked (hits e) = true \/ (max_iterations cfg <= 0)%Z) ->
  find_tracks evs w =
  (Some (map (fun e => map (fun h => ((-1)%Z, Hit.masked h)) (hits e)) evs), w).
Proof.
  intros H. unfold find_tracks, Exec.bind.
  rewrite (@for_rows_idle _ _ _
             (fun ex : event * list vec3 =>
                repeat (-1)%Z (length (hits (fst ex))))).
  - unfold Exec.ret. f_equal. f_equal. unfold hit_xyz.
    clear H. induction evs as [|e evs IH]; [reflexivity|].
    simpl. rewrite combine_repeat_masked. f_equal. exact IH.
  - intros i [e xyz] Hin. simpl. apply find_tracks_event_idle.
    apply H. eapply in_combine_l; eassumption.
Qed.

(** X4: when no event of the slice has an unmasked hit, [find_tracks]
    returns an array of masked [-1] of the shape of [hits], and calls
    neither DBSCAN nor RANSAC: it leaves the log and the random generator
    as they were. *)
Theorem find_tracks_no_valid_hits (evs : list event) (w : world rng) :
  (forall e, In e evs -> forallb Hit.masked (hits e) = true) ->
  find_tracks evs w =
  (Some (map (fun e => map (fun _ => ((-1)%Z, true)) (hits e)) evs), w).
Proof.
  intros H. rewrite find_tracks_idle by auto.
  f_equal. f_equal. apply map_ext_in. intros e He.
  specialize (H e He). rewrite forallb_forall in H.
  apply map_ext_in. intros h Hh. now rewrite (H h Hh).
Qed.

(** X5: with [max_iterations] zero or negative, [range(max_iterations)]
    is empty: [find_tracks] returns [-1] for every hit, with the mask of
    the hits, and calls neither DBSCAN nor RANSAC. *)
Theorem find_tracks_no_iteration (evs : list event) (w : world rng) :
  (max_iterations cfg <= 0)%Z ->
  find_tracks evs w =
  (Some (map (fun e => map (fun h => ((-1)%Z, Hit.masked h)) (hits e)) evs), w).
Proof. intros H. apply find_tracks_idle. auto. Qed.

(* ================================================================== *)
(** ** [find_tracks]: the point sets handed to the libraries *)
(* ================================================================== *)

Lemma emits_for_rows_In {A B} (f : nat -> A -> M B) (Q : action -> Prop)
    (l : list A) :
  (forall i x, In x l -> emits (f i x) Q) ->
  forall i0, emits (Exec.for_rows f i0 l) Q.
Proof.
  induction l as [|x l IH]; intros Hf i0; simpl.
  - apply emits_ret.
  - apply emits_bind; [apply Hf; now left|]. intros y _ _ _.
    apply emits_bind; [|intros ys _ _ _; apply emits_ret].
    apply IH. intros i z Hz. apply Hf. now right.
Qed.

Lemma emits_do_dbscan_at (xyz : list vec3) (mask : list bool)
    (Q : action -> Prop) :
  Q (CallDbscan (Np.pick xyz mask)) -> emits (_do_dbscan xyz mask) Q.
Proof.
  intros HQ. unfold _do_dbscan. apply emits_bind; [apply emits_lift|].
  intros pts w w' H. apply lift_Some in H as [H _].
  apply select_Some in H as (_ & -> & _).
  apply emits_bind; [now apply emits_dbscan|].
  intros. apply emits_lift.
Qed.

Lemma emits_do_ransac_at (xyz : list vec3) (mask : list bool)
    (Q : action -> Prop) :
  Q (CallRansac (Np.pick xyz mask)) -> emits (_do_ransac xyz mask) Q.
Proof.
  intros HQ. unfold _do_ransac. apply emits_bind; [apply emits_lift|].
  intros pts w w' H. apply lift_Some in H as [H _].
  apply select_Some in H as (_ & -> & _).
  now apply emits_ransac.
Qed.

Lemma submask_refl (m : list bool) : submask m m.
Proof. forget_unused. split; auto. Qed.

Lemma submask_trans (a b c : list bool) :
  submask a b -> submask b c -> submask a c.
Proof.
  forget_unused. intros [L1 H1] [L2 H2]. split; [congruence | auto].
Qed.

(** The mask of a label other than [-1] is set somewhere when the label
    occurs. *)
Lemma eq_scalar_any (labels : list Z) (id_ : Z) :
  id_ <> (-1)%Z -> In id_ labels -> Np.any (Np.eq_scalar labels id_) = true.
Proof.
  intros Hne Hin. apply any_true_iff.
  destruct (In_nth _ _ (-1)%Z Hin) as (j & _ & Hj).
  exists j. rewrite eq_scalar_nth by assumption. now apply Z.eqb_eq.
Qed.

Lemma emits_assign_track_sel (i : nat) (xyz : list vec3) (good : list bool)
    (labels : list Z) (id_ : Z) (st : row_state) :
  In id_ labels ->
  emits (assign_track i labels id_ st) (selected_action xyz good).
Proof.
  intros Hin. unfold assign_track.
  destruct (id_ =? -1)%Z eqn:E; [apply emits_ret|].
  apply Z.eqb_neq in E.
  apply emits_bind; [apply emits_lift|]. intros.
  apply emits_bind; [apply emits_record; simpl; now apply eq_scalar_any|].
  intros. apply emits_bind; [apply emits_lift|]. intros. apply emits_ret.
Qed.

Lemma emits_fit_cluster_sel (i : nat) (xyz : list vec3) (good : list bool)
    (track_ids : list Z) (id_ : Z) (st : row_state) :
  length track_ids = length good ->
  (forall j, nth j track_ids (-1)%Z = id_ -> id_ <> (-1)%Z ->
             nth j good false = true) ->
  emits (fit_cluster i xyz track_ids id_ st) (selected_action xyz good).
Proof.
  intros Hlen Hsub. unfold fit_cluster.
  destruct (id_ =? -1)%Z eqn:Eid; [apply emits_ret|].
  apply Z.eqb_neq in Eid.
  destruct (Np.sum (Np.eq_scalar track_ids id_) <=? ransac_min_samples cfg)%Z;
    [apply emits_ret|].
  assert (Hm : submask (Np.eq_scalar track_ids id_) good).
  { split; [now rewrite eq_scalar_length|].
    intros j Hj. rewrite eq_scalar_nth in Hj by assumption.
    apply Z.eqb_eq in Hj. now apply Hsub. }
  apply emits_bind.
  { apply emits_do_ransac_at. simpl. eauto. }
  intros inliers _ _ _.
  apply emits_bind; [apply emits_lift|]. intros mask' w w' Hk.
  apply lift_Some in Hk as [Hk _].
  apply keep_inliers_Some in Hk as (Lk & Hk).
  destruct (Np.sum mask' <? 1)%Z eqn:Es; [apply emits_ret|].
  apply Z.ltb_ge in Es. unfold Np.sum in Es.
  apply emits_bind.
  { apply emits_do_dbscan_at. simpl. exists mask'.
    split; [|split; [apply any_count; lia | reflexivity]].
    apply submask_trans with (b := Np.eq_scalar track_ids id_);
      [|assumption].
    split; [assumption|]. intros j Hj.
    destruct (nth j (Np.eq_scalar track_ids id_) false) eqn:E;
      [reflexivity|]. specialize (Hk j E). congruence. }
  intros final_track_ids _ _ _.
  apply emits_for_each. intros x st1 Hx.
  apply emits_assign_track_sel. exact (proj1 (unique_In _ _) Hx).
Qed.

Lemma emits_iteration_sel (i : nat) (xyz : list vec3) (good : list bool)
    (st : row_state) :
  submask (iter_mask st) good ->
  Np.any (iter_mask st) = true ->
  emits (iteration i xyz st) (selected_action xyz good).
Proof.
  intros Hsub Hany. unfold iteration.
  apply emits_bind.
  { apply emits_do_dbscan_at. simpl. eauto. }
  intros track_ids w w' Hd.
  apply do_dbscan_Some in Hd as (_ & _ & _ & Ll & Hout).
  apply emits_bind; [now apply emits_record|]. intros.
  apply emits_bind; [|intros; apply emits_ret].
  apply emits_for_each. intros id_ st1 _.
  destruct Hsub as [Lg Hg].
  apply emits_fit_cluster_sel; [congruence|].
  intros j Hj Hne. apply Hg.
  destruct (nth j (iter_mask st) false) eqn:E; [reflexivity|].
  specialize (Hout j E). congruence.
Qed.

Lemma emits_iterations_sel (n i : nat) (xyz : list vec3) (good : list bool)
    (st : row_state) :
  submask (iter_mask st) good ->
  Np.any (iter_mask st) = true ->
  emits (iterations n i xyz st) (selected_action xyz good).
Proof.
  revert st. induction n as [|n IH]; intros st Hsub Hany; simpl;
    [apply emits_ret|].
  apply emits_bind; [now apply emits_iteration_sel|].
  intros [track_ids st1] w w' Hi. simpl.
  destruct (stop track_ids st1) eqn:Es; [apply emits_ret|].
  unfold stop in Es. apply orb_false_iff in Es as [_ Es].
  apply negb_false_iff in Es.
  apply iteration_effect in Hi as (acts & _ & _ & (_ & Lm & _ & _ & W)).
  apply IH; [|assumption].
  apply submask_trans with (b := iter_mask st); [|assumption].
  split; [assumption|]. intros j Hj.
  destruct (W j) as [(_ & _ & <-) | (_ & _ & k & _ & _ & c & _)];
    [assumption | congruence].
Qed.

Lemma emits_find_tracks_event_sel (i : nat) (xyz : list vec3)
    (hs : list Hit.t) :
  emits (find_tracks_event i xyz hs) (selected_action xyz (unmasked hs)).
Proof.
  unfold find_tracks_event.
  assert (E : map (fun h => true && negb (Hit.masked h)) hs = unmasked hs)
    by (apply map_ext; reflexivity).
  rewrite E.
  destruct (negb (Np.any (unmasked hs))) eqn:Ea; [apply emits_ret|].
  apply negb_false_iff in Ea.
  apply emits_bind; [|intros; apply emits_ret].
  apply emits_iterations_sel; [apply submask_refl | assumption].
Qed.

Lemma in_combine_hit_xyz (evs : list event) (e : event) (xyz : list vec3) :
  In (e, xyz) (combine evs (hit_xyz evs)) ->
  In e evs /\ xyz = map (fun h => hit_xyz1 h (t0_ts e)) (hits e).
Proof. forget_unused.
  unfold hit_xyz. induction evs as [|e' evs IH]; simpl; [tauto|].
  intros [[= <- <-] | H]; [auto|]. destruct (IH H). auto.
Qed.

Lemma emits_find_tracks_sel (evs : list event) :
  emits (find_tracks evs) (event_action evs).
Proof.
  unfold find_tracks. apply emits_bind; [|intros; apply emits_ret].
  apply emits_for_rows_In. intros i [e xyz] Hin.
  apply in_combine_hit_xyz in Hin as [He ->]. simpl.
  eapply emits_weaken; [|apply emits_find_tracks_event_sel].
  intros a Ha. now exists e.
Qed.

Lemma unmasked_nth (hs : list Hit.t) (j : nat) (h : Hit.t) :
  nth_error hs j = Some h ->
  nth j (unmasked hs) false = negb (Hit.masked h).
Proof.
  forget_unused. intros H. apply nth_error_nth. unfold unmasked.
  now rewrite nth_error_map, H.
Qed.

(** X7: in every run of [find_tracks], whether it returns or raises, no
    call of DBSCAN is made on an empty point set. *)
Theorem dbscan_never_on_empty (evs : list event) (w : world rng) :
  exists acts,
    log (snd (find_tracks evs w)) = log w ++ acts /\
    forall pts, In pts (dbscan_inputs acts) -> pts <> [].
Proof.
  destruct (emits_find_tracks_sel evs w) as (acts & L & F).
  exists acts. split; [assumption|].
  intros pts Hin. unfold dbscan_inputs in Hin.
  apply in_flat_map in Hin as (a & Ha & Hp).
  rewrite Forall_forall in F. specialize (F a Ha).
  destruct a; simpl in Hp; try contradiction.
  destruct Hp as [<- | []].
  destruct F as (e & _ & m & [Lm _] & Hany & ->).
  apply pick_nonempty; [|now apply any_count].
  unfold unmasked in Lm. now rewrite length_map in *.
Qed.

(** X8: in every run of [find_tracks], whether it returns or raises, each
    point set handed to DBSCAN or to RANSAC is made of projected points
    of unmasked hits of one event: the coordinates of a masked slot never
    reach the libraries. *)
Theorem only_unmasked_hits_fitted (evs : list event) (w : world rng) :
  exists acts,
    log (snd (find_tracks evs w)) = log w ++ acts /\
    forall pts,
      In pts (dbscan_inputs acts) \/ In pts (ransac_inputs acts) ->
      exists e m,
        In e evs /\
        length m = length (hits e) /\
        (forall j h, nth_error (hits e) j = Some h ->
                     nth j m false = true -> Hit.masked h = false) /\
        pts = Np.pick (map (fun h => hit_xyz1 h (t0_ts e)) (hits e)) m.
Proof.
  destruct (emits_find_tracks_sel evs w) as (acts & L & F).
  exists acts. split; [assumption|].
  rewrite Forall_forall in F.
  assert (Hsub : forall e m,
             submask m (unmasked (hits e)) ->
             length m = length (hits e) /\
             forall j h, nth_error (hits e) j = Some h ->
                         nth j m false = true -> Hit.masked h = false).
  { intros e m [Lm Hm]. split.
    - unfold unmasked in Lm. now rewrite length_map in Lm.
    - intros j h Hh Hj. specialize (Hm j Hj).
      rewrite (@unmasked_nth (hits e) j h Hh) in Hm. now apply negb_true_iff in Hm. }
  intros pts [Hin | Hin].
  - apply in_flat_map in Hin as (a & Ha & Hp). specialize (F a Ha).
    destruct a; simpl in Hp; try contradiction.
    destruct Hp as [<- | []].
    destruct F as (e & He & m & Hm & _ & ->).
    destruct (Hsub e m Hm). exists e, m. auto.
  - apply in_flat_map in Hin as (a & Ha & Hp). specialize (F a Ha).
    destruct a; simpl in Hp; try contradiction.
    destruct Hp as [<- | []].
    destruct F as (e & He & m & Hm & ->).
    destruct (Hsub e m Hm). exists e, m. auto.
Qed.

(* ================================================================== *)
(** ** [find_tracks]: the ids present in the array returned *)
(* ================================================================== *)

Lemma writes_assigned (i j : nat) (k : Z) (acts : list action) :
  In k (writes i j acts) -> In k (assigned_ids i acts).
Proof.
  forget_unused. unfold writes, assigned_ids. rewrite !in_flat_map.
  intros (a & Ha & Hk). exists a. split; [assumption|].
  destruct a; try contradiction.
  destruct (i0 =? i)%nat; [|contradiction].
  destruct (nth j mask false); [assumption | contradiction].
Qed.

(** An id stored through a mask that is set somewhere was stored at some
    position. *)
Lemma assigned_written (evs : list event) (i : nat) (k : Z)
    (acts : list action) :
  Forall (event_action evs) acts ->
  In k (assigned_ids i acts) -> exists j, In k (writes i j acts).
Proof.
  intros F. rewrite Forall_forall in F.
  unfold assigned_ids. rewrite in_flat_map. intros (a & Ha & Hk).
  destruct (F a Ha) as (e & _ & Hsel).
  destruct a; try contradiction. simpl in Hsel.
  apply any_true_iff in Hsel as (j & Hj).
  exists j. unfold writes. rewrite in_flat_map.
  exists (Assign i0 id mask). split; [assumption|].
  destruct (i0 =? i)%nat; [|contradiction]. now rewrite Hj.
Qed.

(** X6: the ids in a row of the array [find_tracks] returns are
    contiguous: for some [n], every entry lies between [-1] and [n - 1],
    and each of [0, ..., n - 1] is the entry of at least one unmasked hit.
    No id that was handed out is missing from the result, and an event
    has no more ids than unmasked hits. *)
Theorem track_ids_contiguous (evs : list event)
    (res : list (list (Z * bool))) (w : world rng) :
  fst (find_tracks evs w) = Some res ->
  forall i row,
    nth_error res i = Some row ->
    exists n : nat,
      (forall j v m, nth_error row j = Some (v, m) ->
                     (-1 <= v < Z.of_nat n)%Z) /\
      (forall k, (k < n)%nat ->
                 exists j, nth_error row j = Some (Z.of_nat k, false)) /\
      (n <= Np.count (Np.logical_not (map snd row)))%nat.
Proof.
  intros H i row Hrow. apply returned in H.
  destruct (emits_find_tracks_sel evs w) as (acts' & L' & F).
  apply find_tracks_outcome in H as (acts & L & Len & Hev).
  assert (acts' = acts) as ->.
  { rewrite L in L'. now apply app_inv_head in L'. }
  assert (Hi : (i < length evs)%nat).
  { rewrite <- Len. apply nth_error_Some. congruence. }
  destruct (nth_error evs i) as [e|] eqn:He;
    [|apply nth_error_None in He; lia].
  destruct (Hev i e He) as (row' & Hrow' & Hlen & (n & Hn) & Hw & _).
  rewrite Hrow in Hrow'. injection Hrow' as ->.
  assert (Hids : forall k, In k (assigned_ids i acts) <->
                           (0 <= k < Z.of_nat n)%Z).
  { intros k. rewrite Hn. unfold ids_from. rewrite in_map_iff. split.
    - intros (p & <- & Hp). apply in_seq in Hp. lia.
    - intros Hk. exists (Z.to_nat k). split; [lia|]. apply in_seq. lia. }
  assert (Hfound : forall k, (k < n)%nat ->
             exists j, nth_error (combine row' (map Hit.masked (hits e))) j
                       = Some (Z.of_nat k, false)).
  { intros k Hk.
    assert (Hin : In (Z.of_nat k) (assigned_ids i acts))
      by (apply Hids; lia).
    destruct (@assigned_written evs i _ acts F Hin) as (j & Hj).
    exists j.
    destruct (Hw j) as [(a & _) | (Hm & k' & a & b & _)];
      [rewrite a in Hj; contradiction|].
    rewrite a in Hj. destruct Hj as [-> | []].
    assert (Hjlt : (j < length (hits e))%nat).
    { destruct (Nat.lt_ge_cases j (length (hits e))) as [|Hge];
        [assumption|].
      rewrite nth_overflow in Hm by (now rewrite length_map).
      discriminate. }
    apply nth_error_combine.
    + rewrite <- b. apply nth_error_nth'. lia.
    + rewrite <- Hm. apply nth_error_nth'. now rewrite length_map. }
  exists n. split; [|split; [exact Hfound|]].
  - intros j v m Hj. apply nth_error_combine_inv in Hj as [Hv _].
    apply (nth_error_nth _ _ (-1)%Z) in Hv.
    destruct (Hw j) as [(_ & b) | (_ & k & a & b & _)]; [lia|].
    assert (Hk : In k (assigned_ids i acts)).
    { apply writes_assigned with (j := j). rewrite a. now left. }
    apply Hids in Hk. lia.
  - set (row := combine row' (map Hit.masked (hits e))) in *.
    assert (Hc : Np.count (Np.logical_not (map snd row)) =
                 length (map fst (filter (fun p => negb (snd p)) row))).
    { rewrite length_map. unfold Np.count, Np.logical_not.
      clear. induction row as [|[v m] row IH]; [reflexivity|].
      simpl. destruct m; simpl; now rewrite IH. }
    rewrite Hc.
    apply Nat.le_trans with (length (map Z.of_nat (seq 0 n)));
      [rewrite length_map, length_seq; lia|].
    apply NoDup_incl_length.
    + apply sorted_NoDup. rewrite <- ids_from_seq. apply ids_from_sorted.
    + intros k Hk. apply in_map_iff in Hk as (k' & <- & Hk').
      apply in_seq in Hk'. destruct (Hfound k') as (j & Hj); [lia|].
      apply in_map_iff. exists (Z.of_nat k', false). split; [reflexivity|].
      apply filter_In. split; [|reflexivity].
      eapply nth_error_In; eassumption.
Qed.

(* ================================================================== *)
(** ** Order and reductions on finite values *)
(* ================================================================== *)

Lemma ltb_fin (p q : Qc) : ltb (Fin p) (Fin q) = true <-> (p < q)%Qc.
Proof.
  simpl. rewrite Qclt_alt. destruct (p ?= q)%Qc; split; congruence.
Qed.

Lemma leb_fin (p q : Qc) : leb (Fin p) (Fin q) = true <-> (p <= q)%Qc.
Proof.
  simpl. rewrite Qcle_alt. destruct (p ?= q)%Qc; split; congruence.
Qed.

Lemma minimum_fin (p q : Qc) :
  exists r, minimum (Fin p) (Fin q) = Fin r /\
            (r = p \/ r = q) /\ (r <= p)%Qc /\ (r <= q)%Qc.
Proof.
  unfold minimum. destruct (ltb (Fin q) (Fin p)) eqn:E.
  - apply ltb_fin in E. exists q. split; [reflexivity|].
    split; [now right|]. split; [now apply Qclt_le_weak | apply Qcle_refl].
  - exists p. split; [reflexivity|]. split; [now left|].
    split; [apply Qcle_refl|]. apply Qcnot_lt_le. intros H.
    apply ltb_fin in H. congruence.
Qed.

Lemma maximum_fin (p q : Qc) :
  exists r, maximum (Fin p) (Fin q) = Fin r /\
            (r = p \/ r = q) /\ (p <= r)%Qc /\ (q <= r)%Qc.
Proof.
  unfold maximum. destruct (ltb (Fin p) (Fin q)) eqn:E.
  - apply ltb_fin in E. exists q. split; [reflexivity|].
    split; [now right|]. split; [now apply Qclt_le_weak | apply Qcle_refl].
  - exists p. split; [reflexivity|]. split; [now left|].
    split; [apply Qcle_refl|]. apply Qcnot_lt_le. intros H.
    apply ltb_fin in H. congruence.
Qed.

(** A float array without [nan] or infinities is an array of rationals. *)
Lemma finite_list (l : list f8) :
  forallb is_finite l = true -> exists qs, l = map Fin qs.
Proof.
  induction l as [|a l IH]; simpl; [now exists []|].
  intros H. apply andb_true_iff in H as [Ha Hl].
  destruct (IH Hl) as (qs & ->). destruct a; try discriminate.
  now exists (q :: qs).
Qed.

Lemma fold_minimum_fin (qs : list Qc) (x : Qc) :
  exists r, fold_left minimum (map Fin qs) (Fin x) = Fin r /\
            In r (x :: qs) /\ forall y, In y (x :: qs) -> (r <= y)%Qc.
Proof.
  revert x. induction qs as [|q qs IH]; intros x; cbn [fold_left map].
  - exists x. split; [reflexivity|]. split; [now left|].
    intros y [<- | []]. apply Qcle_refl.
  - destruct (minimum_fin x q) as (m & -> & Hm & Hx & Hq).
    destruct (IH m) as (r & -> & Hin & Hle).
    exists r. split; [reflexivity|]. split.
    + destruct Hin as [<- | Hin]; [|now right; right].
      destruct Hm as [-> | ->]; [now left | now right; left].
    + assert (Hrm : (r <= m)%Qc) by (apply Hle; now left).
      intros y [<- | [<- | Hy]].
      * eapply Qcle_trans; eassumption.
      * eapply Qcle_trans; eassumption.
      * apply Hle. now right.
Qed.

Lemma fold_maximum_fin (qs : list Qc) (x : Qc) :
  exists r, fold_left maximum (map Fin qs) (Fin x) = Fin r /\
            In r (x :: qs) /\ forall y, In y (x :: qs) -> (y <= r)%Qc.
Proof.
  revert x. induction qs as [|q qs IH]; intros x; cbn [fold_left map].
  - exists x. split; [reflexivity|]. split; [now left|].
    intros y [<- | []]. apply Qcle_refl.
  - destruct (maximum_fin x q) as (m & -> & Hm & Hx & Hq).
    destruct (IH m) as (r & -> & Hin & Hle).
    exists r. split; [reflexivity|]. split.
    + destruct Hin as [<- | Hin]; [|now right; right].
      destruct Hm as [-> | ->]; [now left | now right; left].
    + assert (Hrm : (m <= r)%Qc) by (apply Hle; now left).
      intros y [<- | [<- | Hy]].
      * eapply Qcle_trans; eassumption.
      * eapply Qcle_trans; eassumption.
      * apply Hle. now right.
Qed.

(** [np.min] of a non-empty finite array is one of its entries, and is
    below all of them. *)
Lemma amin_fin (l : list f8) :
  l <> [] -> forallb is_finite l = true ->
  exists r, Np.amin l = Some (Fin r) /\ In (Fin r) l /\
            forall y, In (Fin y) l -> (r <= y)%Qc.
Proof.
  intros Hne Hf. destruct (finite_list _ Hf) as (qs & ->).
  destruct qs as [|x qs]; [contradiction|]. simpl.
  destruct (fold_minimum_fin qs x) as (r & -> & Hin & Hle).
  exists r. split; [reflexivity|]. split.
  - destruct Hin as [<- | Hin]; [now left | right; now apply in_map].
  - intros y [[= <-] | Hy]; [apply Hle; now left|].
    apply in_map_iff in Hy as (z & [= <-] & Hz). apply Hle. now right.
Qed.

Lemma amax_fin (l : list f8) :
  l <> [] -> forallb is_finite l = true ->
  exists r, Np.amax l = Some (Fin r) /\ In (Fin r) l /\
            forall y, In (Fin y) l -> (y <= r)%Qc.
Proof.
  intros Hne Hf. destruct (finite_list _ Hf) as (qs & ->).
  destruct qs as [|x qs]; [contradiction|]. simpl.
  destruct (fold_maximum_fin qs x) as (r & -> & Hin & Hle).
  exists r. split; [reflexivity|]. split.
  - destruct Hin as [<- | Hin]; [now left | right; now apply in_map].
  - intros y [[= <-] | Hy]; [apply Hle; now left|].
    apply in_map_iff in Hy as (z & [= <-] & Hz). apply Hle. now right.
Qed.

(** The entries a mask selects. *)
Lemma In_pick {A} (a : list A) (mask : list bool) (x : A) :
  In x (Np.pick a mask) <->
  exists k, nth_error a k = Some x /\ nth k mask false = true.
Proof. forget_unused.
  revert mask. induction a as [|y a IH]; intros [|m mask]; simpl.
  - split; [tauto | intros ([|k] & H & _); discriminate].
  - split; [tauto | intros ([|k] & H & _); discriminate].
  - split; [tauto | intros ([|k] & _ & H); discriminate].
  - destruct m; simpl; rewrite ?IH; split.
    + intros [<- | (k & H1 & H2)]; [now exists 0%nat | now exists (S k)].
    + intros ([|k] & H1 & H2); simpl in *;
        [left; congruence | right; now exists k].
    + intros (k & H1 & H2). now exists (S k).
    + intros ([|k] & H1 & H2); simpl in *; [discriminate | now exists k].
Qed.

(* ================================================================== *)
(** ** [calc_tracks]: shape of the result, timestamps *)
(* ================================================================== *)

Lemma fold_max_ge (l : list Z) (y x : Z) :
  x = y \/ In x l -> (x <= fold_left Z.max l y)%Z.
Proof.
  forget_unused. revert y x. induction l as [|z l IH]; intros y x; simpl.
  - intros [-> | []]. lia.
  - intros [-> | [<- | H]].
    + pose proof (IH (Z.max y z) (Z.max y z) (or_introl eq_refl)). lia.
    + pose proof (IH (Z.max y z) (Z.max y z) (or_introl eq_refl)). lia.
    + apply IH. now right.
Qed.

Lemma zmax_ge (l : list Z) (m x : Z) :
  Np.zmax l = Some m -> In x l -> (x <= m)%Z.
Proof.
  forget_unused. destruct l as [|y l]; [discriminate|]. simpl.
  intros [= <-] H. apply fold_max_ge. destruct H; auto.
Qed.

Lemma n_tracks_pos (track_ids : list (list (Z * bool))) :
  (1 <= n_tracks track_ids)%nat.
Proof. forget_unused. unfold n_tracks. destruct (Np.zmax _); lia. Qed.

Lemma n_tracks_gt (track_ids : list (list (Z * bool))) (row : list (Z * bool))
    (v : Z) :
  In row track_ids -> In (v, false) row ->
  (v < Z.of_nat (n_tracks track_ids))%Z.
Proof.
  forget_unused. intros Hrow Hv. unfold n_tracks.
  set (l := map fst (filter (fun p => negb (snd p)) (concat track_ids))).
  assert (Hin : In v l).
  { unfold l. apply in_map_iff. exists (v, false). split; [reflexivity|].
    apply filter_In. split; [|reflexivity].
    apply in_concat. now exists row. }
  destruct (Np.zmax l) as [m|] eqn:E.
  - pose proof (@zmax_ge l m v E Hin). lia.
  - destruct l; [contradiction | discriminate].
Qed.

(** X9: [n_tracks], the width of the array of tracklets, is at least 1
    and exceeds every unmasked entry of [track_ids]: each id that a hit
    carries has its column. *)
Theorem n_tracks_covers (track_ids : list (list (Z * bool))) :
  (1 <= n_tracks track_ids)%nat /\
  forall row v,
    In row track_ids -> In (v, false) row ->
    (v < Z.of_nat (n_tracks track_ids))%Z.
Proof.
  split; [apply n_tracks_pos|]. intros row v. apply n_tracks_gt.
Qed.

Lemma hit_xyz_combine_length (evs : list event) :
  length (combine evs (hit_xyz evs)) = length evs.
Proof.
  rewrite length_combine. unfold hit_xyz. rewrite length_map. lia.
Qed.

Lemma calc_tracks_rows (evs : list event)
    (track_ids : list (list (Z * bool)))
    (tracks : list (list (option Track.t))) (w w' : world rng) :
  calc_tracks evs track_ids w = (Some tracks, w') ->
  length tracks = length evs /\
  forall p row, nth_error tracks p = Some row ->
                length row = n_tracks track_ids /\
                (p < length track_ids)%nat.
Proof.
  intros H. unfold calc_tracks in H.
  apply for_rows_values in H as (Len & Hrows).
  rewrite hit_xyz_combine_length in Len. split; [assumption|].
  intros p row Hp.
  assert (Hlt : (p < length (combine evs (hit_xyz evs)))%nat).
  { rewrite hit_xyz_combine_length, <- Len. apply nth_error_Some.
    congruence. }
  destruct (nth_error (combine evs (hit_xyz evs)) p) as [x|] eqn:Ex;
    [|apply nth_error_None in Ex; lia].
  destruct (Hrows p x row Ex Hp) as (w1 & w2 & Hev).
  unfold calc_tracks_event in Hev.
  apply bind_Some in Hev as (tids & w3 & Ht & Hev).
  apply lift_Some in Ht as [Ht ->].
  apply for_rows_values in Hev as (Lrow & _).
  rewrite length_seq in Lrow. split; [assumption|].
  apply nth_error_Some. simpl in Ht. congruence.
Qed.

(** X10: the array [calc_tracks] returns has one row per event, each of
    [n_tracks] entries; and [calc_tracks] returns only if [track_ids] has
    a row for every event: with fewer rows, [track_ids[i]] raises. *)
Theorem calc_tracks_shape (evs : list event)
    (track_ids : list (list (Z * bool))) (w : world rng) :
  (forall tracks,
      fst (calc_tracks evs track_ids w) = Some tracks ->
      length tracks = length evs /\
      forall row, In row tracks -> length row = n_tracks track_ids) /\
  ((length track_ids < length evs)%nat ->
   fst (calc_tracks evs track_ids w) = None).
Proof.
  split.
  - intros tracks H. apply returned in H.
    apply calc_tracks_rows in H as [Len Hp].
    split; [assumption|]. intros row Hin.
    apply In_nth_error in Hin as (p & Hin). now destruct (Hp p row Hin).
  - intros Hlt.
    destruct (fst (calc_tracks evs track_ids w)) as [tracks|] eqn:E;
      [|reflexivity].
    exfalso. apply returned in E. apply calc_tracks_rows in E as [Len Hp].
    destruct (nth_error tracks (length track_ids)) as [row|] eqn:Er.
    + destruct (Hp _ _ Er). lia.
    + apply nth_error_None in Er. lia.
Qed.

(** The mask of the hits of a track, entry by entry. *)
Lemma track_mask_nth (tids : list (Z * bool)) (hs : list Hit.t) (t k : nat)
    (mask : list bool) :
  track_mask tids hs (Z.of_nat t) = Some mask ->
  nth k mask false =
  (nth k (map fst tids) (-1)%Z =? Z.of_nat t)%Z &&
  negb (nth k (map snd tids) true) &&
  negb (nth k (map Hit.masked hs) true).
Proof.
  unfold track_mask. intros H.
  destruct (Np.logical_and _ _) as [m|] eqn:E; [|discriminate].
  rewrite (logical_and_nth _ _ k H), (logical_and_nth _ _ k E).
  rewrite eq_scalar_nth by lia. unfold Np.logical_not.
  f_equal; [f_equal|].
  - apply (map_nth negb (map snd tids) true k).
  - apply (map_nth negb (map Hit.masked hs) true k).
Qed.

(** X11: the [ts_start] and [ts_end] of a track are timestamps of two of
    its hits, and the timestamp of every hit of the track lies between
    them, provided the timestamps of the unmasked hits are finite. *)
Theorem track_times_ordered (xyz : list vec3) (hs : list Hit.t)
    (tids : list (Z * bool)) (j : nat) (tr : Track.t) (w : world rng) :
  (forall h, In h hs -> Hit.masked h = false ->
             is_finite (Hit.ts h) = true) ->
  fst (calc_track xyz hs tids j w) = Some (Some tr) ->
  exists mask,
    track_mask tids hs (Z.of_nat j) = Some mask /\
    (exists k h, nth_error hs k = Some h /\ nth k mask false = true /\
                 Hit.ts h = Track.ts_start tr) /\
    (exists k h, nth_error hs k = Some h /\ nth k mask false = true /\
                 Hit.ts h = Track.ts_end tr) /\
    (forall k h, nth_error hs k = Some h -> nth k mask false = true ->
                 leb (Track.ts_start tr) (Hit.ts h) = true /\
                 leb (Hit.ts h) (Track.ts_end tr) = true).
Proof.
  intros Hfin H. apply returned in H. unfold calc_track in H.
  apply bind_Some in H as (mask & w1 & Hm & H).
  apply lift_Some in Hm as [Hm ->].
  exists mask. split; [assumption|].
  destruct (Np.count mask <? 2)%nat eqn:Ec; [exec_inv; discriminate|].
  apply Nat.ltb_ge in Ec.
  apply bind_Some in H as ([centroid axis] & w2 & Hp & H).
  apply bind_Some in H as (pts & w3 & Hpts & H).
  apply bind_Some in H as (lim & w4 & Hlim & H).
  apply bind_Some in H as (members & w5 & Hmem & H).
  apply bind_Some in H as (ts_start & w6 & Hs & H).
  apply bind_Some in H as (ts_end & w7 & He & H).
  apply ret_Some in H as [[= ->] _]. simpl.
  apply lift_Some in Hmem as [Hmem _].
  apply select_Some in Hmem as (Lh & -> & Lmem).
  apply lift_Some in Hs as [Hs _]. apply lift_Some in He as [He _].
  set (tss := map Hit.ts (Np.pick hs mask)) in *.
  assert (Hmember : forall a, In a tss <->
            exists k h, nth_error hs k = Some h /\ nth k mask false = true /\
                        Hit.ts h = a).
  { intros a. unfold tss. rewrite in_map_iff. split.
    - intros (h & <- & Hin). apply In_pick in Hin as (k & Hk & Hmk).
      now exists k, h.
    - intros (k & h & Hk & Hmk & <-). exists h. split; [reflexivity|].
      apply In_pick. now exists k. }
  assert (Hne : tss <> []).
  { unfold tss. intros E. apply map_eq_nil in E.
    rewrite E in Lmem. simpl in Lmem. lia. }
  assert (Hf : forallb is_finite tss = true).
  { apply forallb_forall. intros a Ha.
    apply Hmember in Ha as (k & h & Hk & Hmk & <-).
    apply Hfin; [eapply nth_error_In; eassumption|].
    rewrite (track_mask_nth _ _ _ k Hm) in Hmk.
    apply andb_true_iff in Hmk as [_ Hmk]. apply negb_true_iff in Hmk.
    rewrite <- Hmk. symmetry. apply nth_error_nth.
    now rewrite nth_error_map, Hk. }
  destruct (amin_fin Hne Hf) as (lo & Elo & Ilo & Hlo).
  destruct (amax_fin Hne Hf) as (hi & Ehi & Ihi & Hhi).
  rewrite Elo in Hs. rewrite Ehi in He.
  injection Hs as <-. injection He as <-.
  split; [now apply Hmember|]. split; [now apply Hmember|].
  intros k h Hk Hmk.
  assert (Hin : In (Hit.ts h) tss) by (apply Hmember; now exists k, h).
  pose proof (proj1 (forallb_forall _ _) Hf _ Hin) as Hfh.
  destruct (Hit.ts h) as [t| | |] eqn:Et; try discriminate.
  split; apply leb_fin; [now apply Hlo | now apply Hhi].
Qed.

(* ================================================================== *)
(** ** The static helpers on finite coordinates *)
(* ================================================================== *)

Lemma clip_fin (x lo hi : Qc) :
  (lo <= hi)%Qc ->
  exists r, Np.clip (Fin x) (Fin lo) (Fin hi) = Fin r /\
            (lo <= r)%Qc /\ (r <= hi)%Qc.
Proof.
  intros Hle. unfold Np.clip.
  destruct (maximum_fin x lo) as (m & -> & _ & _ & Hm).
  destruct (minimum_fin m hi) as (r & -> & Hr & _ & Hhi).
  exists r. split; [reflexivity|]. split; [|assumption].
  destruct Hr as [-> | ->]; assumption.
Qed.

Lemma coord_finite (c : vec3 -> f8) (xyz : list vec3) :
  In c [vx; vy; vz] ->
  forallb v_finite xyz = true -> forallb is_finite (map c xyz) = true.
Proof.
  intros Hc H. apply forallb_forall. intros a Ha.
  apply in_map_iff in Ha as (p & <- & Hp).
  rewrite forallb_forall in H. specialize (H p Hp).
  destruct (v_finite_inv _ H) as (x & y & z & ->).
  destruct Hc as [<- | [<- | [<- | []]]]; reflexivity.
Qed.

Lemma projections_finite (centroid axis : vec3) (xyz : list vec3) :
  v_finite centroid = true -> v_finite axis = true ->
  forallb v_finite xyz = true ->
  forallb is_finite (projections centroid axis xyz) = true.
Proof.
  intros Hc Ha H. apply forallb_forall. intros a Hin.
  unfold projections in Hin. apply in_map_iff in Hin as (p & <- & Hp).
  rewrite forallb_forall in H. specialize (H p Hp).
  destruct (v_finite_inv _ H) as (x & y & z & ->).
  destruct (v_finite_inv _ Hc) as (c1 & c2 & c3 & ->).
  destruct (v_finite_inv _ Ha) as (a1 & a2 & a3 & ->).
  reflexivity.
Qed.

(** The per-axis minimum and maximum of finite points, and a clipped
    point. *)
Lemma clip_in_box (xyz : list vec3) (x lo hi : vec3) :
  xyz <> [] -> forallb v_finite xyz = true ->
  v_finite x = true ->
  amin0 xyz = Some lo -> amax0 xyz = Some hi ->
  v_finite (v_clip x lo hi) = true /\ in_box xyz (v_clip x lo hi).
Proof.
  intros Hne Hf Hx Hlo Hhi.
  assert (Hbox : forall c, In c [vx; vy; vz] ->
             exists l h p q,
               Np.amin (map c xyz) = Some (Fin l) /\
               Np.amax (map c xyz) = Some (Fin h) /\
               In p xyz /\ c p = Fin l /\ In q xyz /\ c q = Fin h /\
               (l <= h)%Qc).
  { intros c Hc.
    assert (Hn : map c xyz <> [])
      by (intros E; apply map_eq_nil in E; contradiction).
    pose proof (@coord_finite c xyz Hc Hf) as Hfc.
    destruct (amin_fin Hn Hfc) as (l & El & Il & Hl).
    destruct (amax_fin Hn Hfc) as (h & Eh & Ih & Hh).
    apply in_map_iff in Il as (p & Ep & Ip).
    pose proof Ih as Ih'. apply in_map_iff in Ih as (q & Eq & Iq).
    exists l, h, p, q. repeat split; auto. }
  destruct (Hbox vx) as (lx & hx & px & qx & Elx & Ehx & Ipx & Epx & Iqx & Eqx & Hx1);
    [simpl; auto|].
  destruct (Hbox vy) as (ly & hy & py & qy & Ely & Ehy & Ipy & Epy & Iqy & Eqy & Hy1);
    [simpl; auto|].
  destruct (Hbox vz) as (lz & hz & pz & qz & Elz & Ehz & Ipz & Epz & Iqz & Eqz & Hz1);
    [simpl; auto|].
  unfold amin0 in Hlo. rewrite Elx, Ely, Elz in Hlo. injection Hlo as <-.
  unfold amax0 in Hhi. rewrite Ehx, Ehy, Ehz in Hhi. injection Hhi as <-.
  destruct (v_finite_inv _ Hx) as (x1 & x2 & x3 & ->).
  unfold v_clip. cbn [vx vy vz].
  destruct (@clip_fin x1 _ _ Hx1) as (r1 & -> & L1 & U1).
  destruct (@clip_fin x2 _ _ Hy1) as (r2 & -> & L2 & U2).
  destruct (@clip_fin x3 _ _ Hz1) as (r3 & -> & L3 & U3).
  split; [reflexivity|].
  intros c [<- | [<- | [<- | []]]]; cbn [vx vy vz].
  - exists px, qx. rewrite Epx, Eqx.
    repeat split; auto; now apply leb_fin.
  - exists py, qy. rewrite Epy, Eqy.
    repeat split; auto; now apply leb_fin.
  - exists pz, qz. rewrite Epz, Eqz.
    repeat split; auto; now apply leb_fin.
Qed.

(** X12: [projected_limits] raises on an empty point set; on a non-empty
    set of finite points, with a finite centroid and axis, it returns two
    finite points, each inside the bounding box of the point set: the
    start and the end of a track are never extrapolated beyond the hits,
    whatever the axis. *)
Theorem projected_limits_in_box (centroid axis : vec3) (xyz : list vec3) :
  projected_limits centroid axis [] = None /\
  (v_finite centroid = true -> v_finite axis = true ->
   forallb v_finite xyz = true -> xyz <> [] ->
   exists r_min r_max,
     projected_limits centroid axis xyz = Some (r_min, r_max) /\
     v_finite r_min = true /\ v_finite r_max = true /\
     in_box xyz r_min /\ in_box xyz r_max).
Proof.
  split; [reflexivity|]. intros Hc Ha Hf Hne.
  unfold projected_limits.
  assert (Hmin : exists lo, amin0 xyz = Some lo).
  { unfold amin0.
    destruct (@amin_fin (map vx xyz)) as (a & -> & _);
      [intros E; apply map_eq_nil in E; contradiction
      | apply coord_finite; simpl; auto |].
    destruct (@amin_fin (map vy xyz)) as (b & -> & _);
      [intros E; apply map_eq_nil in E; contradiction
      | apply coord_finite; simpl; auto |].
    destruct (@amin_fin (map vz xyz)) as (c & -> & _);
      [intros E; apply map_eq_nil in E; contradiction
      | apply coord_finite; simpl; auto |].
    eauto. }
  assert (Hmax : exists hi, amax0 xyz = Some hi).
  { unfold amax0.
    destruct (@amax_fin (map vx xyz)) as (a & -> & _);
      [intros E; apply map_eq_nil in E; contradiction
      | apply coord_finite; simpl; auto |].
    destruct (@amax_fin (map vy xyz)) as (b & -> & _);
      [intros E; apply map_eq_nil in E; contradiction
      | apply coord_finite; simpl; auto |].
    destruct (@amax_fin (map vz xyz)) as (c & -> & _);
      [intros E; apply map_eq_nil in E; contradiction
      | apply coord_finite; simpl; auto |].
    eauto. }
  destruct Hmin as (lo & Elo). destruct Hmax as (hi & Ehi).
  rewrite Elo, Ehi.
  assert (Hs : projections centroid axis xyz <> []).
  { unfold projections. intros E. apply map_eq_nil in E. contradiction. }
  pose proof (@projections_finite centroid axis xyz Hc Ha Hf) as Hsf.
  destruct (amax_fin Hs Hsf) as (s_max & -> & _).
  destruct (amin_fin Hs Hsf) as (s_min & -> & _).
  assert (Hpt : forall s, v_finite (v_add centroid (v_scale axis (Fin s)))
                          = true).
  { intros s.
    destruct (v_finite_inv _ Hc) as (c1 & c2 & c3 & ->).
    destruct (v_finite_inv _ Ha) as (a1 & a2 & a3 & ->).
    reflexivity. }
  destruct (@clip_in_box xyz _ lo hi Hne Hf (Hpt s_min) Elo Ehi) as [F1 B1].
  destruct (@clip_in_box xyz _ lo hi Hne Hf (Hpt s_max) Elo Ehi) as [F2 B2].
  eexists _, _. split; [reflexivity|]. auto.
Qed.

Lemma of_nat_pos (n : nat) :
  (0 < n)%nat -> (0 < Q2Qc (inject_Z (Z.of_nat n)))%Qc.
Proof.
  forget_unused. intros H. unfold Qclt. cbn [this Q2Qc].
  rewrite !Qred_correct. unfold Qlt. simpl. lia.
Qed.

Lemma of_nat_nonzero (n : nat) :
  (0 < n)%nat -> Q2Qc (inject_Z (Z.of_nat n)) <> 0%Qc.
Proof.
  forget_unused. intros H E. apply of_nat_pos in H. rewrite E in H.
  now apply Qclt_not_eq in H.
Qed.

Lemma fold_add_fin (qs : list Qc) (x : Qc) :
  fold_left add (map Fin qs) (Fin x) = Fin (fold_left Qcplus qs x).
Proof.
  forget_unused. revert x. induction qs as [|q qs IH]; intros x;
    [reflexivity|]. cbn [map fold_left]. apply IH.
Qed.

Lemma fold_plus_nonneg (qs : list Qc) (x : Qc) :
  (0 <= x)%Qc -> (forall q, In q qs -> (0 <= q)%Qc) ->
  (0 <= fold_left Qcplus qs x)%Qc.
Proof.
  forget_unused. revert x. induction qs as [|q qs IH]; intros x Hx Hq;
    [assumption|]. simpl. apply IH.
  - replace 0%Qc with (0 + 0)%Qc by ring.
    apply Qcplus_le_compat; [assumption | apply Hq; now left].
  - intros y Hy. apply Hq. now right.
Qed.

Lemma fold_plus_zero (qs : list Qc) :
  (forall q, In q qs -> q = 0%Qc) -> fold_left Qcplus qs 0%Qc = 0%Qc.
Proof.
  forget_unused. induction qs as [|q qs IH]; intros Hq; [reflexivity|].
  simpl. rewrite (Hq q) by now left.
  replace (0 + 0)%Qc with 0%Qc by ring. apply IH.
  intros y Hy. apply Hq. now right.
Qed.

(** The mean of a non-empty array of finite values. *)
Lemma mean_fin (qs : list Qc) :
  qs <> [] ->
  Np.mean (map Fin qs) =
  Fin (fold_left Qcplus qs 0 / Q2Qc (inject_Z (Z.of_nat (length qs))))%Qc.
Proof.
  forget_unused. intros Hne. unfold Np.mean, Np.fsum, zero.
  rewrite fold_add_fin, length_map. unfold of_Z, div.
  destruct (Qc_eq_dec _ 0) as [E | _]; [|reflexivity].
  exfalso. revert E. apply of_nat_nonzero.
  destruct qs; [contradiction | simpl; lia].
Qed.

Lemma mean_nonneg (qs : list Qc) :
  qs <> [] -> (forall q, In q qs -> (0 <= q)%Qc) ->
  exists r, Np.mean (map Fin qs) = Fin r /\ (0 <= r)%Qc.
Proof.
  forget_unused. intros Hne Hq. rewrite mean_fin by assumption.
  eexists. split; [reflexivity|].
  assert (Hn : (0 < length qs)%nat)
    by (destruct qs; [contradiction | simpl; lia]).
  apply Qcmult_lt_0_le_reg_r
    with (z := Q2Qc (inject_Z (Z.of_nat (length qs))));
    [now apply of_nat_pos|].
  rewrite Qcmult_0_l.
  replace (fold_left Qcplus qs 0 / Q2Qc (inject_Z (Z.of_nat (length qs))) *
           Q2Qc (inject_Z (Z.of_nat (length qs))))%Qc
    with (fold_left Qcplus qs 0)%Qc
    by (field; now apply of_nat_nonzero).
  apply fold_plus_nonneg; [apply Qcle_refl | assumption].
Qed.

Lemma mean_zero (qs : list Qc) :
  qs <> [] -> (forall q, In q qs -> q = 0%Qc) ->
  Np.mean (map Fin qs) = zero.
Proof.
  forget_unused. intros Hne Hq. rewrite mean_fin by assumption.
  rewrite fold_plus_zero by assumption. unfold zero. f_equal.
  unfold Qcdiv. ring.
Qed.

Lemma abs_fin (q : Qc) : exists r, F8.abs (Fin q) = Fin r /\ (0 <= r)%Qc.
Proof.
  forget_unused. unfold F8.abs. destruct (ltb (Fin q) zero) eqn:E.
  - apply ltb_fin in E. exists (- q)%Qc. split; [reflexivity|].
    apply Qclt_le_weak, Qc_opp_pos, E.
  - exists q. split; [reflexivity|]. apply Qcnot_lt_le. intros H.
    apply ltb_fin in H. unfold zero in E. congruence.
Qed.

Lemma abs_fin_zero (q : Qc) : q = 0%Qc -> F8.abs (Fin q) = zero.
Proof. forget_unused. intros ->. reflexivity. Qed.

(** The deviation of one point from the line, on finite values. *)
Lemma deviation_fin (c1 c2 c3 a1 a2 a3 x y z : Qc) :
  let centroid := V3 (Fin c1) (Fin c2) (Fin c3) in
  let axis := V3 (Fin a1) (Fin a2) (Fin a3) in
  let p := V3 (Fin x) (Fin y) (Fin z) in
  let s := ((x + - c1) * a1 + (y + - c2) * a2 + (z + - c3) * a3)%Qc in
  v_sub p (v_add centroid
             (V3 (v_dot (v_sub p centroid) axis * vx axis)
                 (v_dot (v_sub p centroid) axis * vy axis)
                 (v_dot (v_sub p centroid) axis * vz axis))) =
  V3 (Fin (x + - (c1 + s * a1))) (Fin (y + - (c2 + s * a2)))
     (Fin (z + - (c3 + s * a3))).
Proof. reflexivity. Qed.


(** X14: the residual of a non-empty set of finite points about a finite
    centroid and axis is finite, and none of its three components is
    negative. *)
Theorem residual_nonneg (centroid axis : vec3) (xyz : list vec3) :
  v_finite centroid = true -> v_finite axis = true ->
  forallb v_finite xyz = true -> xyz <> [] ->
  forall c, In c [vx; vy; vz] ->
            is_finite (c (track_residual centroid axis xyz)) = true /\
            leb zero (c (track_residual centroid axis xyz)) = true.
Proof.
  intros Hc Ha Hf Hne.
  destruct (v_finite_inv _ Hc) as (c1 & c2 & c3 & ->).
  destruct (v_finite_inv _ Ha) as (a1 & a2 & a3 & ->).
  unfold track_residual.
  set (dev := fun p : vec3 => v_abs _).
  assert (Hdev : forall p, In p xyz ->
             exists r1 r2 r3, dev p = V3 (Fin r1) (Fin r2) (Fin r3) /\
                              (0 <= r1)%Qc /\ (0 <= r2)%Qc /\ (0 <= r3)%Qc).
  { intros p Hp. rewrite forallb_forall in Hf.
    destruct (v_finite_inv _ (Hf p Hp)) as (x & y & z & ->).
    unfold dev. rewrite deviation_fin. unfold v_abs. cbn [vx vy vz].
    destruct (abs_fin (x + - (c1 + ((x + - c1) * a1 + (y + - c2) * a2 +
                                     (z + - c3) * a3) * a1))%Qc)
      as (r1 & -> & H1).
    destruct (abs_fin (y + - (c2 + ((x + - c1) * a1 + (y + - c2) * a2 +
                                     (z + - c3) * a3) * a2))%Qc)
      as (r2 & -> & H2).
    destruct (abs_fin (z + - (c3 + ((x + - c1) * a1 + (y + - c2) * a2 +
                                     (z + - c3) * a3) * a3))%Qc)
      as (r3 & -> & H3).
    exists r1, r2, r3. auto. }
  assert (Hcoord : forall c, In c [vx; vy; vz] ->
             exists qs, map c (map dev xyz) = map Fin qs /\ qs <> [] /\
                        forall q, In q qs -> (0 <= q)%Qc).
  { intros c Hin. clear Hf. induction xyz as [|p l IH]; [contradiction|].
    destruct (Hdev p (or_introl eq_refl)) as (r1 & r2 & r3 & E & H1 & H2 & H3).
    assert (Hcp : exists r, c (dev p) = Fin r /\ (0 <= r)%Qc).
    { rewrite E.
      destruct Hin as [<- | [<- | [<- | []]]]; cbn [vx vy vz]; eauto. }
    destruct Hcp as (r & Er & Hr).
    destruct l as [|p' l].
    - exists [r]. simpl. rewrite Er. split; [reflexivity|].
      split; [discriminate|]. intros q [<- | []]. assumption.
    - destruct IH as (qs & Eq & _ & Hq);
        [discriminate | intros; apply Hdev; now right |].
      exists (r :: qs). cbn [map] in *. rewrite Er, Eq.
      split; [reflexivity|]. split; [discriminate|].
      intros q [<- | Hin']; auto. }
  intros c Hin.
  destruct (Hcoord c Hin) as (qs & Eq & Hqne & Hq).
  destruct (mean_nonneg Hqne Hq) as (r & Er & Hr).
  assert (Ec : c (mean0 (map dev xyz)) = Fin r).
  { unfold mean0.
    destruct Hin as [<- | [<- | [<- | []]]]; cbn [vx vy vz];
      now rewrite Eq. }
  rewrite Ec. split; [reflexivity | now apply leb_fin].
Qed.


(* ================================================================== *)
(** ** [calc_tracks] returns *)
(* ================================================================== *)

Lemma logical_and_ok (a b : list bool) :
  length a = length b ->
  exists r, Np.logical_and a b = Some r /\ length r = length a.
Proof.
  forget_unused. intros H. unfold Np.logical_and.
  rewrite H, Nat.eqb_refl. eexists. split; [reflexivity|].
  rewrite length_map, length_combine. lia.
Qed.

Lemma track_mask_ok (tids : list (Z * bool)) (hs : list Hit.t) (j : Z) :
  length tids = length hs ->
  exists mask, track_mask tids hs j = Some mask /\ length mask = length hs.
Proof.
  forget_unused. intros H. unfold track_mask.
  destruct (@logical_and_ok (Np.eq_scalar (map fst tids) j)
              (Np.logical_not (map snd tids))) as (m & -> & Lm).
  { unfold Np.logical_not. now rewrite eq_scalar_length, !length_map. }
  rewrite eq_scalar_length, length_map in Lm.
  destruct (@logical_and_ok m (Np.logical_not (map Hit.masked hs)))
    as (r & -> & Lr).
  { unfold Np.logical_not. rewrite !length_map. congruence. }
  exists r. split; [reflexivity | congruence].
Qed.

Lemma amin_ok (l : list f8) : l <> [] -> exists m, Np.amin l = Some m.
Proof. forget_unused. destruct l; [contradiction | simpl; eauto]. Qed.

Lemma amax_ok (l : list f8) : l <> [] -> exists m, Np.amax l = Some m.
Proof. forget_unused. destruct l; [contradiction | simpl; eauto]. Qed.

(** [projected_limits] returns on every non-empty point set. *)
Lemma projected_limits_ok (centroid axis : vec3) (xyz : list vec3) :
  xyz <> [] -> exists lim, projected_limits centroid axis xyz = Some lim.
Proof.
  forget_unused. intros Hne. unfold projected_limits, amin0, amax0, projections.
  assert (Hm : forall (B : Type) (f : vec3 -> B), map f xyz <> []).
  { intros B f E. apply map_eq_nil in E. contradiction. }
  destruct (amin_ok (Hm _ vx)) as (a1 & ->).
  destruct (amin_ok (Hm _ vy)) as (a2 & ->).
  destruct (amin_ok (Hm _ vz)) as (a3 & ->).
  destruct (amax_ok (Hm _ vx)) as (b1 & ->).
  destruct (amax_ok (Hm _ vy)) as (b2 & ->).
  destruct (amax_ok (Hm _ vz)) as (b3 & ->).
  destruct (amax_ok (Hm _ (fun p => v_dot (v_sub p centroid) axis)))
    as (s1 & ->).
  destruct (amin_ok (Hm _ (fun p => v_dot (v_sub p centroid) axis)))
    as (s2 & ->).
  eauto.
Qed.

Lemma mean0_finite (pts : list vec3) :
  pts <> [] -> forallb v_finite pts = true -> v_finite (mean0 pts) = true.
Proof.
  forget_unused. intros Hne Hf. unfold mean0, v_finite. cbn [vx vy vz].
  assert (Hc : forall c, In c [vx; vy; vz] ->
                         is_finite (Np.mean (map c pts)) = true).
  { intros c Hc.
    destruct (finite_list _ (@coord_finite c pts Hc Hf)) as (qs & E).
    rewrite E. rewrite mean_fin; [reflexivity|].
    intros ->. destruct pts; [contradiction | discriminate]. }
  rewrite !Hc by (simpl; auto). reflexivity.
Qed.

Lemma centred_finite (pts : list vec3) (c : vec3) :
  v_finite c = true -> forallb v_finite pts = true ->
  forallb v_finite (map (fun p => v_sub p c) pts) = true.
Proof.
  forget_unused. intros Hc Hf. apply forallb_forall. intros q Hq.
  apply in_map_iff in Hq as (p & <- & Hp).
  rewrite forallb_forall in Hf. specialize (Hf p Hp).
  destruct (v_finite_inv _ Hf) as (x & y & z & ->).
  destruct (v_finite_inv _ Hc) as (c1 & c2 & c3 & ->).
  reflexivity.
Qed.

Lemma pca_ok (pts : list vec3) (w : world rng) :
  pca_total ->
  (2 <= length pts)%nat -> forallb v_finite pts = true ->
  exists c w', pca pts w = (Some c, w').
Proof.
  intros Hpca Hn Hf. unfold pca, Exec.bind, record. simpl.
  destruct (Hpca pts (rng_state w) Hn Hf) as (c & g & ->).
  eexists; eexists; reflexivity.
Qed.

Lemma do_pca_ok (xyz : list vec3) (mask : list bool) (w : world rng) :
  pca_total ->
  length xyz = length mask -> (2 <= Np.count mask)%nat ->
  forallb v_finite (Np.pick xyz mask) = true ->
  exists ca w', do_pca xyz mask w = (Some ca, w').
Proof.
  intros Hpca Hlen Hc Hf. unfold do_pca.
  unfold Exec.bind at 1. unfold Exec.lift at 1.
  rewrite (select_ok _ _ Hlen).
  pose proof (pick_length _ _ Hlen) as Lp.
  assert (Hne : Np.pick xyz mask <> []).
  { intros E. rewrite E in Lp. simpl in Lp. lia. }
  destruct (@pca_ok (map (fun p => v_sub p (mean0 (Np.pick xyz mask)))
                         (Np.pick xyz mask)) w Hpca)
    as (c0 & w1 & E).
  { rewrite length_map. lia. }
  { apply centred_finite; [now apply mean0_finite | assumption]. }
  erewrite bind_ok by exact E. eexists; eexists; reflexivity.
Qed.

Lemma calc_track_ok (xyz : list vec3) (hs : list Hit.t)
    (tids : list (Z * bool)) (j : nat) (w : world rng) :
  pca_total ->
  length xyz = length hs -> length tids = length hs ->
  (forall k h, nth_error hs k = Some h -> Hit.masked h = false ->
               nth k (map v_finite xyz) false = true) ->
  exists o w', calc_track xyz hs tids j w = (Some o, w').
Proof.
  intros Hpca Lx Lt Hf. unfold calc_track.
  destruct (@track_mask_ok tids hs (Z.of_nat j) Lt) as (mask & Em & Lm).
  unfold Exec.bind at 1. unfold Exec.lift at 1. rewrite Em.
  destruct (Np.count mask <? 2)%nat eqn:Ec;
    [eexists; eexists; reflexivity|].
  apply Nat.ltb_ge in Ec.
  assert (Lxm : length xyz = length mask) by congruence.
  assert (Hpf : forallb v_finite (Np.pick xyz mask) = true).
  { apply pick_forallb. intros k Hk.
    rewrite (track_mask_nth _ _ _ k Em) in Hk.
    apply andb_true_iff in Hk as [_ Hk]. apply negb_true_iff in Hk.
    destruct (nth_error hs k) as [h|] eqn:Eh.
    - apply (Hf k h Eh). rewrite <- Hk. symmetry. apply nth_error_nth.
      now rewrite nth_error_map, Eh.
    - apply nth_error_None in Eh.
      rewrite nth_overflow in Hk by (now rewrite length_map).
      discriminate. }
  destruct (@do_pca_ok xyz mask w Hpca Lxm Ec Hpf) as (ca & w1 & Ep).
  erewrite bind_ok by exact Ep.
  unfold Exec.bind at 1. unfold Exec.lift at 1.
  rewrite (select_ok _ _ Lxm).
  pose proof (pick_length _ _ Lxm) as Lp.
  assert (Hne : Np.pick xyz mask <> []).
  { intros E. rewrite E in Lp. simpl in Lp. lia. }
  destruct (@projected_limits_ok (fst ca) (snd ca) _ Hne) as (lim & El).
  unfold Exec.bind at 1. unfold Exec.lift at 1. rewrite El.
  assert (Lhm : length hs = length mask) by congruence.
  unfold Exec.bind at 1. unfold Exec.lift at 1.
  rewrite (select_ok _ _ Lhm).
  pose proof (pick_length _ _ Lhm) as Lh.
  assert (Hts : map Hit.ts (Np.pick hs mask) <> []).
  { intros E. apply map_eq_nil in E. rewrite E in Lh. simpl in Lh. lia. }
  destruct (amin_ok Hts) as (t1 & E1). destruct (amax_ok Hts) as (t2 & E2).
  unfold Exec.bind at 1. unfold Exec.lift at 1. rewrite E1.
  unfold Exec.bind at 1. unfold Exec.lift at 1. rewrite E2.
  eexists; eexists; reflexivity.
Qed.

Lemma for_rows_ok_nth {A B} (f : nat -> A -> M B) (l : list A) :
  forall i0,
    (forall p x w, nth_error l p = Some x ->
                   exists y w', f (i0 + p)%nat x w = (Some y, w')) ->
    forall w, exists ys w', Exec.for_rows f i0 l w = (Some ys, w').
Proof.
  induction l as [|x l IH]; intros i0 Hf w; simpl.
  - eexists; eexists; reflexivity.
  - destruct (Hf 0%nat x w eq_refl) as (y & w1 & E1).
    rewrite Nat.add_0_r in E1.
    destruct (IH (S i0)) with (w := w1) as (ys & w2 & E2).
    { intros p x' w' Hp. rewrite Nat.add_succ_comm. now apply Hf. }
    erewrite bind_ok by exact E1. erewrite bind_ok by exact E2.
    eexists; eexists; reflexivity.
Qed.

Lemma nth_error_hit_xyz (evs : list event) (i : nat) (e : event)
    (xyz : list vec3) :
  nth_error (combine evs (hit_xyz evs)) i = Some (e, xyz) ->
  nth_error evs i = Some e /\
  xyz = map (fun h => hit_xyz1 h (t0_ts e)) (hits e).
Proof.
  intros H. apply nth_error_combine_inv in H as [He Hx].
  split; [assumption|]. unfold hit_xyz in Hx.
  rewrite nth_error_map, He in Hx. simpl in Hx. congruence.
Qed.

Lemma calc_tracks_ok (evs : list event) (track_ids : list (list (Z * bool)))
    (w : world rng) :
  pca_total -> same_shape track_ids evs -> inputs_accepted v_finite evs ->
  exists tracks w', calc_tracks evs track_ids w = (Some tracks, w').
Proof.
  intros Hpca [Len Hshape] Hin. unfold calc_tracks.
  apply for_rows_ok_nth. intros p [e xyz] w0 Hp. simpl.
  apply nth_error_hit_xyz in Hp as [He ->].
  unfold calc_tracks_event. simpl.
  assert (Hlt : (p < length track_ids)%nat).
  { rewrite Len. apply nth_error_Some. congruence. }
  destruct (nth_error track_ids p) as [tids|] eqn:Et;
    [|apply nth_error_None in Et; lia].
  unfold Exec.bind at 1. unfold Exec.lift at 1.
  apply for_rows_ok. intros _ j w1 _.
  apply calc_track_ok; [assumption | apply length_map | eauto |].
  intros k h Hk Hm. rewrite map_map.
  erewrite nth_error_nth; [|rewrite nth_error_map, Hk; reflexivity].
  apply (Hin e h); [eapply nth_error_In; eassumption | | assumption].
  eapply nth_error_In; eassumption.
Qed.

(** X16: [calc_tracks] returns whenever [track_ids] has the shape of
    [hits], the projected points of the unmasked hits are finite, and PCA
    answers on every set of two or more finite points: nothing else in it
    can raise. *)
Theorem calc_tracks_returns (evs : list event)
    (track_ids : list (list (Z * bool))) (w : world rng) :
  pca_total -> same_shape track_ids evs -> inputs_accepted v_finite evs ->
  exists tracks, fst (calc_tracks evs track_ids w) = Some tracks.
Proof.
  intros Hpca Hs Hin.
  destruct (@calc_tracks_ok evs track_ids w Hpca Hs Hin) as (tracks & w' & E).
  exists tracks. now rewrite E.
Qed.

(* ================================================================== *)
(** ** [run]: the records written and their ids *)
(* ================================================================== *)

Lemma count_app (a b : list bool) :
  Np.count (a ++ b) = (Np.count a + Np.count b)%nat.
Proof. unfold Np.count. now rewrite filter_app, length_app. Qed.

Lemma place_row_next {A} (vals : list A) (k : nat) (mask : list bool) :
  snd (Np.place_row vals k mask) = (k + Np.count mask)%nat.
Proof.
  revert k. induction mask as [|m mask IH]; intros k.
  - simpl. unfold Np.count. simpl. lia.
  - simpl. rewrite count_cons. destruct m; simpl; rewrite IH; lia.
Qed.

(** The entries [np.place] fills are those of the mask. *)
Lemma place_row_set {A} (vals : list A) (k : nat) (mask : list bool) :
  vals <> [] \/ Np.any mask = false ->
  map Np.is_set (fst (Np.place_row vals k mask)) = mask.
Proof.
  revert k. induction mask as [|m mask IH]; intros k H; [reflexivity|].
  simpl. destruct m; simpl.
  - destruct H as [H | H]; [|discriminate].
    rewrite IH by now left.
    destruct (nth_error vals (k mod length vals)) eqn:E; [reflexivity|].
    exfalso. apply nth_error_None in E.
    assert (length vals <> 0)%nat by (destruct vals; [contradiction | discriminate]).
    pose proof (Nat.mod_upper_bound k (length vals)). lia.
  - rewrite IH; [reflexivity|]. destruct H as [H | H]; [now left | now right].
Qed.

Lemma skipn_nth_error {A} (l : list A) (k : nat) (x : A) :
  nth_error l k = Some x -> skipn k l = x :: skipn (S k) l.
Proof.
  revert l. induction k as [|k IH]; intros [|y l] H; try discriminate.
  - simpl in H. now injection H as ->.
  - simpl in H. apply IH in H. exact H.
Qed.

Lemma firstn_plus {A} (a b : nat) (l : list A) :
  firstn (a + b) l = firstn a l ++ firstn b (skipn a l).
Proof.
  revert l. induction a as [|a IH]; intros l; [reflexivity|].
  destruct l as [|x l]; simpl; [now rewrite firstn_nil | now rewrite IH].
Qed.

(** While the values do not run out, the filled entries hold successive
    values. *)
Lemma place_row_values {A} (vals : list A) (k : nat) (mask : list bool) :
  (k + Np.count mask <= length vals)%nat ->
  compressed (fst (Np.place_row vals k mask)) =
  firstn (Np.count mask) (skipn k vals).
Proof.
  revert k. induction mask as [|m mask IH]; intros k H; [reflexivity|].
  rewrite count_cons in *. simpl. destruct m; simpl.
  - rewrite Nat.mod_small by lia.
    destruct (nth_error vals k) as [x|] eqn:E;
      [|apply nth_error_None in E; lia].
    rewrite (skipn_nth_error _ _ E). simpl. f_equal.
    apply IH. lia.
  - apply IH. lia.
Qed.

Lemma place_rows_values {A} (vals : list A) (k : nat)
    (masks : list (list bool)) :
  (k + Np.count (concat masks) <= length vals)%nat ->
  concat (map compressed (Np.place_rows vals k masks)) =
  firstn (Np.count (concat masks)) (skipn k vals).
Proof.
  revert k. induction masks as [|m masks IH]; intros k H; [reflexivity|].
  simpl in *. rewrite count_app in *.
  rewrite place_row_values by lia.
  rewrite IH by (rewrite place_row_next; lia).
  rewrite place_row_next, firstn_plus, skipn_skipn.
  now rewrite (Nat.add_comm (Np.count m) k).
Qed.

Lemma place_rows_set {A} (vals : list A) (k : nat) (masks : list (list bool)) :
  vals <> [] \/ existsb Np.any masks = false ->
  Forall2 (fun a m => map Np.is_set a = m) (Np.place_rows vals k masks) masks.
Proof.
  revert k. induction masks as [|m masks IH]; intros k H; [constructor|].
  simpl. constructor.
  - apply place_row_set. destruct H as [H | H]; [now left | right].
    simpl in H. now apply orb_false_iff in H as [H _].
  - apply IH. destruct H as [H | H]; [now left | right].
    simpl in H. now apply orb_false_iff in H as [_ H].
Qed.

Lemma place_Some {A} (masks : list (list bool)) (vals : list A)
    (ids : list (list (option A))) :
  Np.place masks vals = Some ids ->
  ids = Np.place_rows vals 0 masks /\
  Forall2 (fun a m => map Np.is_set a = m) ids masks.
Proof.
  unfold Np.place.
  destruct ((length vals =? 0)%nat && existsb Np.any masks) eqn:E;
    [discriminate|].
  intros [= <-]. split; [reflexivity|]. apply place_rows_set.
  apply andb_false_iff in E as [E | E]; [left | now right].
  apply Nat.eqb_neq in E. intros ->. now apply E.
Qed.

Lemma compressed_length {A} (row : list (option A)) :
  length (compressed row) = Np.count (map Np.is_set row).
Proof.
  induction row as [|[x|] row IH]; [reflexivity | |]; simpl;
    rewrite count_cons; simpl; now rewrite IH.
Qed.

Lemma unmasked_tracks_compressed (tracks : list (list (option Track.t))) :
  unmasked_tracks tracks = concat (map compressed tracks).
Proof.
  forget_unused. unfold unmasked_tracks, compressed. f_equal.
  apply map_ext. intros row. now rewrite flat_map_concat_map.
Qed.

Lemma unmasked_tracks_count (tracks : list (list (option Track.t))) :
  length (unmasked_tracks tracks) =
  Np.count (concat (map (map Np.is_set) tracks)).
Proof.
  forget_unused. rewrite unmasked_tracks_compressed.
  induction tracks as [|row tracks IH]; [reflexivity|].
  simpl. rewrite length_app, count_app, IH. f_equal.
  apply compressed_length.
Qed.

Lemma with_ids_row (ids_row : list (option Z)) (row : list (option Track.t)) :
  map Np.is_set ids_row = map Np.is_set row ->
  let l := flat_map (fun q : option Z * option Track.t =>
                       match q with
                       | (Some id, Some t) => [(id, t)]
                       | _ => []
                       end) (combine ids_row row) in
  map fst l = compressed ids_row /\ map snd l = compressed row.
Proof.
  forget_unused. revert row.
  induction ids_row as [|a ids_row IH]; intros [|b row] H; try discriminate.
  - split; reflexivity.
  - simpl in H. injection H as Hab H. destruct (IH row H) as [IH1 IH2].
    destruct a, b; try discriminate; simpl; split; now f_equal.
Qed.

Lemma with_ids_values (ids : list (list (option Z)))
    (tracks : list (list (option Track.t))) :
  Forall2 (fun a m => map Np.is_set a = m) ids (map (map Np.is_set) tracks) ->
  map fst (with_ids ids tracks) = concat (map compressed ids) /\
  map snd (with_ids ids tracks) = unmasked_tracks tracks.
Proof.
  forget_unused. rewrite unmasked_tracks_compressed. unfold with_ids.
  revert ids. induction tracks as [|row tracks IH]; intros ids H.
  - inversion H; subst. split; reflexivity.
  - inversion H as [|a m ids' ms Ha Hrest]; subst.
    destruct (IH ids' Hrest) as [IH1 IH2].
    destruct (with_ids_row a row Ha) as [R1 R2].
    simpl. rewrite !map_app. split.
    + rewrite R1. f_equal. exact IH1.
    + rewrite R2. f_equal. exact IH2.
Qed.

Lemma r_length (s : Z * Z) : length (Np.r_ s) = Z.to_nat (snd s - fst s).
Proof. unfold Np.r_. now rewrite length_map, length_seq. Qed.

Lemma r_u4 (s : Z * Z) :
  (0 <= fst s)%Z -> (snd s <= 2 ^ 32)%Z -> map Np.u4 (Np.r_ s) = Np.r_ s.
Proof.
  intros Hlo Hhi. unfold Np.r_. rewrite map_map. apply map_ext_in.
  intros k Hk. apply in_seq in Hk. unfold Np.u4.
  apply Z.mod_small. lia.
Qed.

Lemma r_NoDup (s : Z * Z) : NoDup (Np.r_ s).
Proof.
  apply sorted_NoDup.
  replace (Np.r_ s) with (ids_from (fst s - 1) (Z.to_nat (snd s - fst s))).
  - apply ids_from_sorted.
  - unfold ids_from, Np.r_. apply map_ext. intros k. lia.
Qed.

Lemma run_Some (evs : list event) (track_ids : list (list (Z * bool)))
    (tracks : list (list (option Track.t))) (n : nat) (w w' : world rng) :
  run evs w = (Some (track_ids, tracks, n), w') ->
  exists w1,
    find_tracks evs w = (Some track_ids, w1) /\
    calc_tracks evs track_ids w1 = (Some tracks, w') /\
    n = length (unmasked_tracks tracks).
Proof.
  unfold run. intros H.
  apply bind_Some in H as (tids & w1 & Hf & H).
  apply bind_Some in H as (trs & w2 & Hc & H).
  apply ret_Some in H as [[= -> -> ->] ->].
  exists w1. auto.
Qed.

(** The steps of a run of [run] that returns. *)
Lemma run_writes_Some (reserve_data : nat -> Z * Z) (hit_id : nat -> nat -> Z)
    (source_slice : Z * Z) (evs : list event) (out : output)
    (w w' : world rng) :
  run_writes reserve_data hit_id source_slice evs w = (Some out, w') ->
  exists track_ids tracks ids track_ref_id ev_id w1,
    run evs w =
    (Some (track_ids, tracks, length (unmasked_tracks tracks)), w1) /\
    Np.place (map (map Np.is_set) tracks)
             (map Np.u4 (Np.r_ (reserve_data
                                  (length (unmasked_tracks tracks)))))
    = Some ids /\
    Np.take_along_axis ids (map (map fst) track_ids) = Some track_ref_id /\
    track_hit_refs hit_id track_ref_id track_ids evs w1
    = (Some (track_hit_ref out), w') /\
    Np.broadcast_rows (Np.r_ source_slice) (length tracks) = Some ev_id /\
    tracks_slice out = reserve_data (length (unmasked_tracks tracks)) /\
    written out = with_ids ids tracks /\
    event_track_ref out = event_track_refs ev_id ids.
Proof.
  unfold run_writes. intros H.
  apply bind_Some in H as ([[track_ids tracks] n] & w1 & Hr & H).
  cbn [fst snd] in H.
  apply bind_Some in H as (ids & w2 & Hp & H).
  apply lift_Some in Hp as [Hp ->].
  apply bind_Some in H as (track_ref_id & w3 & Ht & H).
  apply lift_Some in Ht as [Ht ->].
  apply bind_Some in H as (ref & w4 & Href & H).
  apply bind_Some in H as (ev_id & w5 & He & H).
  apply lift_Some in He as [He ->].
  apply ret_Some in H as [-> ->].
  pose proof Hr as Hr'. apply run_Some in Hr' as (w0 & _ & _ & ->).
  exists track_ids, tracks, ids, track_ref_id, ev_id, w1. simpl.
  repeat split; auto.
Qed.

(** X17: when [run] returns, the records it writes are the unmasked
    entries of the array of tracklets, in row-major order; and if the data
    manager reserved a slice with one index per record, which fits in
    [u4], the [id] of each record is the index of the row of the dataset
    it is written to: the ids are the indices of the slice, in order, and
    no two records share an id. *)
Theorem written_ids_follow_slice (reserve_data : nat -> Z * Z)
    (hit_id : nat -> nat -> Z) (source_slice : Z * Z) (evs : list event)
    (out : output) (w : world rng) :
  fst (run_writes reserve_data hit_id source_slice evs w) = Some out ->
  exists track_ids tracks,
    fst (run evs w) =
    Some (track_ids, tracks, length (unmasked_tracks tracks)) /\
    tracks_slice out = reserve_data (length (unmasked_tracks tracks)) /\
    map snd (written out) = unmasked_tracks tracks /\
    (reserves reserve_data (length (unmasked_tracks tracks)) ->
     map fst (written out) = Np.r_ (tracks_slice out) /\
     NoDup (map fst (written out))).
Proof.
  intros H. apply returned in H.
  apply run_writes_Some in H
    as (track_ids & tracks & ids & track_ref_id & ev_id & w1 &
        Hr & Hp & _ & _ & _ & Hs & Hw & _).
  exists track_ids, tracks. rewrite Hr, Hs, Hw. simpl.
  split; [reflexivity|]. split; [reflexivity|].
  apply place_Some in Hp as [Hids Hset].
  destruct (@with_ids_values ids tracks Hset) as [W1 W2].
  split; [assumption|].
  intros (Hlo & Hlen & Hhi).
  set (n := length (unmasked_tracks tracks)) in *.
  assert (Hv : map Np.u4 (Np.r_ (reserve_data n)) = Np.r_ (reserve_data n))
    by (now apply r_u4).
  rewrite Hv in Hids.
  assert (Ln : length (Np.r_ (reserve_data n)) = n).
  { rewrite r_length, Hlen. lia. }
  assert (E : map fst (with_ids ids tracks) = Np.r_ (reserve_data n)).
  { rewrite W1, Hids, place_rows_values.
    - rewrite <- unmasked_tracks_count. fold n. simpl.
      rewrite <- Ln at 1. apply firstn_all.
    - rewrite <- unmasked_tracks_count. fold n. lia. }
  rewrite E. split; [reflexivity | apply r_NoDup].
Qed.

(* ================================================================== *)
(** ** [run]: the references *)
(* ================================================================== *)

Lemma all_some_Some {A} (l : list (option A)) (r : list A) :
  Np.all_some l = Some r -> l = map Some r.
Proof.
  revert r. induction l as [|[x|] l IH]; intros r H; simpl in H.
  - now injection H as <-.
  - destruct (Np.all_some l) as [r'|]; [|discriminate].
    injection H as <-. simpl. f_equal. now apply IH.
  - discriminate.
Qed.

Lemma all_some_ok {A} (l : list (option A)) :
  (forall o, In o l -> o <> None) -> exists r, Np.all_some l = Some r.
Proof.
  induction l as [|o l IH]; intros H; [now exists []|].
  destruct IH as (r & E); [intros o' Ho'; apply H; now right|].
  simpl. rewrite E. destruct o as [x|]; [now exists (x :: r)|].
  exfalso. now apply (H None (or_introl eq_refl)).
Qed.

Lemma nth_map_error {A B} (f : A -> B) (l : list A) (k : nat) (x : A)
    (d : B) :
  nth_error l k = Some x -> nth k (map f l) d = f x.
Proof.
  intros H. apply nth_error_nth. now rewrite nth_error_map, H.
Qed.

(** Row [p] of [np.take_along_axis(arr, indices, axis=-1)]. *)
Lemma take_along_axis_Some {A} (arr : list (list A))
    (indices : list (list Z)) (res : list (list A)) :
  Np.take_along_axis arr indices = Some res ->
  length arr = length indices /\
  length res = length arr /\
  forall p row idx,
    nth_error arr p = Some row -> nth_error indices p = Some idx ->
    exists rr, nth_error res p = Some rr /\
               map (Np.take row) idx = map Some rr.
Proof.
  unfold Np.take_along_axis.
  destruct (length arr =? length indices)%nat eqn:E; [|discriminate].
  apply Nat.eqb_eq in E. intros H. apply all_some_Some in H.
  split; [assumption|].
  assert (Len : length res = length arr).
  { apply (f_equal (@length _)) in H.
    rewrite !length_map, length_combine in H. lia. }
  split; [assumption|].
  intros p row idx Hrow Hidx.
  pose proof (nth_error_combine _ _ _ Hrow Hidx) as Hc.
  apply (f_equal (fun l => nth_error l p)) in H.
  rewrite !nth_error_map, Hc in H. simpl in H.
  destruct (nth_error res p) as [rr|] eqn:Er; [|discriminate].
  simpl in H. injection H as H. exists rr. split; [reflexivity|].
  now apply all_some_Some.
Qed.

(** An index that is not negative is taken as it is. *)
Lemma take_nonneg {A} (row : list A) (v : Z) (x : A) :
  (0 <= v)%Z ->
  (Np.take row v = Some x <-> nth_error row (Z.to_nat v) = Some x).
Proof.
  intros Hv. unfold Np.take.
  destruct ((- Z.of_nat (length row) <=? v) && (v <? Z.of_nat (length row)))%Z
    eqn:E.
  - apply andb_true_iff in E as [_ E]. apply Z.ltb_lt in E.
    rewrite Z.mod_small by lia. reflexivity.
  - apply andb_false_iff in E as [E | E].
    + apply Z.leb_gt in E. lia.
    + apply Z.ltb_ge in E. split; [discriminate|]. intros H.
      assert (Z.to_nat v < length row)%nat
        by (apply nth_error_Some; congruence). lia.
Qed.

(** An index from [-len(row)] to [len(row) - 1] can be taken. *)
Lemma take_ok {A} (row : list A) (v : Z) :
  (- Z.of_nat (length row) <= v < Z.of_nat (length row))%Z ->
  Np.take row v <> None.
Proof.
  intros Hv. unfold Np.take.
  assert (E : ((- Z.of_nat (length row) <=? v) &&
               (v <? Z.of_nat (length row)))%Z = true).
  { apply andb_true_iff. split; [apply Z.leb_le | apply Z.ltb_lt]; lia. }
  rewrite E. apply nth_error_Some.
  pose proof (Z.mod_pos_bound v (Z.of_nat (length row))). lia.
Qed.

Lemma combine_pick {A B} (a : list A) (b : list B) (mask : list bool) :
  combine (Np.pick a mask) (Np.pick b mask) = Np.pick (combine a b) mask.
Proof.
  revert b mask. induction a as [|x a IH]; intros [|y b] [|m mask];
    try reflexivity.
  - simpl. destruct m; [reflexivity | apply combine_nil].
  - simpl. destruct m; simpl; [f_equal|]; apply IH.
Qed.

Lemma ref_mask_Some (ref_row : list (option Z)) (tids : list (Z * bool))
    (hs : list Hit.t) (mask : list bool) :
  ref_mask ref_row tids hs = Some mask ->
  length ref_row = length tids /\ length tids = length hs /\
  length mask = length hs /\
  forall k,
    nth k mask false =
    nth k (map Np.is_set ref_row) false &&
    nth k (map (fun p => snd p || negb (fst p =? -1)%Z) tids) false &&
    nth k (unmasked hs) false.
Proof.
  forget_unused. unfold ref_mask.
  destruct (Np.logical_and _ _) as [m|] eqn:E; [|discriminate].
  intros H.
  assert (L1 : length (map Np.is_set ref_row) =
               length (map (fun p => snd p || negb (fst p =? -1)%Z) tids)).
  { unfold Np.logical_and in E.
    destruct (_ =? _)%nat eqn:El; [|discriminate]. now apply Nat.eqb_eq. }
  assert (Lm : length m = length (map Np.is_set ref_row)).
  { unfold Np.logical_and in E. rewrite L1, Nat.eqb_refl in E.
    injection E as <-. rewrite length_map, length_combine. lia. }
  assert (L2 : length m = length (unmasked hs)).
  { unfold Np.logical_and in H.
    destruct (_ =? _)%nat eqn:El; [|discriminate]. now apply Nat.eqb_eq. }
  assert (Lr : length mask = length m).
  { unfold Np.logical_and in H. rewrite L2, Nat.eqb_refl in H.
    injection H as <-. rewrite length_map, length_combine. lia. }
  unfold unmasked in L2. rewrite !length_map in *.
  repeat split; try congruence.
  intros k. now rewrite (logical_and_nth _ _ k H), (logical_and_nth _ _ k E).
Qed.

Lemma compressed_In {A} (l : list (option A)) (x : A) :
  In x (compressed l) <-> In (Some x) l.
Proof.
  forget_unused. unfold compressed. rewrite in_flat_map. split.
  - intros ([y|] & Hin & Hx); [|contradiction].
    destruct Hx as [<- | []]. assumption.
  - intros H. exists (Some x). split; [assumption | now left].
Qed.

(** The references of one event: a hit is referenced exactly when it is
    not masked, its entry in [track_ids] passes the test against [-1],
    and the entry taken for it in the [id] column is not masked. *)
Lemma track_hit_ref_row_In (hit_id : nat -> nat -> Z) (i : nat)
    (ref_row : list (option Z)) (tids : list (Z * bool)) (hs : list Hit.t)
    (rr : list (Z * Z)) :
  track_hit_ref_row hit_id i ref_row tids hs = Some rr ->
  forall t h,
    In (t, h) rr <->
    exists k v m hit,
      nth_error ref_row k = Some (Some t) /\
      nth_error tids k = Some (v, m) /\
      (m = true \/ v <> (-1)%Z) /\
      nth_error hs k = Some hit /\ Hit.masked hit = false /\
      h = hit_id i k.
Proof.
  forget_unused. unfold track_hit_ref_row.
  destruct (ref_mask ref_row tids hs) as [mask|] eqn:Em; [|discriminate].
  apply ref_mask_Some in Em as (L1 & L2 & L3 & Hmask).
  destruct (Np.select ref_row mask) as [a|] eqn:Ea; [|discriminate].
  destruct (Np.select (map (hit_id i) (seq 0 (length hs))) mask)
    as [b|] eqn:Eb; [|discriminate].
  apply select_Some in Ea as (_ & -> & _).
  apply select_Some in Eb as (_ & -> & _).
  intros [= <-] t h. rewrite compressed_In, in_map_iff, combine_pick.
  assert (Hcase : forall k,
             nth k mask false = true <->
             exists t' v m hit,
               nth_error ref_row k = Some (Some t') /\
               nth_error tids k = Some (v, m) /\
               (m = true \/ v <> (-1)%Z) /\
               nth_error hs k = Some hit /\ Hit.masked hit = false).
  { intros k. rewrite Hmask. split.
    - intros H. apply andb_true_iff in H as [H H3].
      apply andb_true_iff in H as [H1 H2].
      destruct (nth_error ref_row k) as [o|] eqn:Er.
      2:{ apply nth_error_None in Er.
          rewrite nth_overflow in H1 by (now rewrite length_map).
          discriminate. }
      rewrite (@nth_map_error _ _ _ _ _ _ _ Er) in H1.
      destruct o as [t'|]; [|discriminate].
      destruct (nth_error tids k) as [[v m]|] eqn:Et.
      2:{ apply nth_error_None in Et.
          rewrite nth_overflow in H2 by (now rewrite length_map).
          discriminate. }
      rewrite (@nth_map_error _ _ _ _ _ _ _ Et) in H2. simpl in H2.
      destruct (nth_error hs k) as [hit|] eqn:Eh.
      2:{ apply nth_error_None in Eh. unfold unmasked in H3.
          rewrite nth_overflow in H3 by (now rewrite length_map).
          discriminate. }
      unfold unmasked in H3. rewrite (@nth_map_error _ _ _ _ _ _ _ Eh) in H3.
      exists t', v, m, hit. repeat split; auto.
      + apply orb_true_iff in H2 as [H2 | H2]; [now left | right].
        apply negb_true_iff, Z.eqb_neq in H2. exact H2.
      + now apply negb_true_iff in H3.
    - intros (t' & v & m & hit & Er & Et & Hv & Eh & Hm).
      unfold unmasked.
      rewrite (@nth_map_error _ _ _ _ _ _ _ Er), (@nth_map_error _ _ _ _ _ _ _ Et),
        (@nth_map_error _ _ _ _ _ _ _ Eh). simpl. rewrite Hm. simpl.
      rewrite andb_true_r.
      destruct Hv as [-> | Hv]; [reflexivity|].
      apply Z.eqb_neq in Hv. rewrite Hv. apply orb_true_r. }
  split.
  - intros ([o h'] & Hp & Hin). simpl in Hp.
    destruct o as [t'|]; [|discriminate]. injection Hp as -> ->.
    apply In_pick in Hin as (k & Hk & Hmk).
    apply nth_error_combine_inv in Hk as [Hr Hh].
    apply Hcase in Hmk as (t' & v & m & hit & Er & Et & Hv & Eh & Hm).
    exists k, v, m, hit. repeat split; auto.
    rewrite nth_error_map in Hh.
    destruct (nth_error (seq 0 (length hs)) k) as [k'|] eqn:Ek;
      [|discriminate].
    simpl in Hh. injection Hh as <-.
    assert (Hlt : (k < length hs)%nat)
      by (apply nth_error_Some; congruence).
    rewrite nth_error_nth' with (d := 0%nat) in Ek
      by (now rewrite length_seq).
    rewrite seq_nth in Ek by assumption. simpl in Ek. congruence.
  - intros (k & v & m & hit & Er & Et & Hv & Eh & Hm & ->).
    exists (Some t, hit_id i k). split; [reflexivity|].
    apply In_pick. exists k. split.
    + apply nth_error_combine; [assumption|].
      assert (Hlt : (k < length hs)%nat)
        by (apply nth_error_Some; congruence).
      rewrite nth_error_map.
      rewrite nth_error_nth' with (d := 0%nat) by (now rewrite length_seq).
      now rewrite seq_nth by assumption.
    + apply Hcase. exists t, v, m, hit. auto.
Qed.

Lemma track_hit_ref_row_ok (hit_id : nat -> nat -> Z) (i : nat)
    (ref_row : list (option Z)) (tids : list (Z * bool)) (hs : list Hit.t) :
  length ref_row = length tids -> length tids = length hs ->
  exists rr, track_hit_ref_row hit_id i ref_row tids hs = Some rr.
Proof.
  forget_unused. intros L1 L2. unfold track_hit_ref_row, ref_mask.
  destruct (@logical_and_ok (map Np.is_set ref_row)
              (map (fun p => snd p || negb (fst p =? -1)%Z) tids))
    as (m & -> & Lm); [now rewrite !length_map|].
  destruct (@logical_and_ok m (unmasked hs)) as (mask & -> & Lmask).
  { unfold unmasked. rewrite Lm, !length_map. congruence. }
  rewrite length_map in Lm.
  rewrite !select_ok; [eauto | |].
  - rewrite length_map, length_seq. congruence.
  - congruence.
Qed.

(** What [find_tracks] returns, entry by entry: the mask bit of an entry
    is that of its hit, and the id is [-1], or is not negative and
    belongs to an unmasked hit. *)
Lemma find_tracks_rows (evs : list event) (res : list (list (Z * bool)))
    (w w' : world rng) :
  find_tracks evs w = (Some res, w') ->
  same_shape res evs /\
  forall i e tids k v m,
    nth_error evs i = Some e -> nth_error res i = Some tids ->
    nth_error tids k = Some (v, m) ->
    exists hit, nth_error (hits e) k = Some hit /\ m = Hit.masked hit /\
                (v = (-1)%Z \/ (0 <= v)%Z /\ m = false).
Proof.
  intros H. apply find_tracks_outcome in H as (acts & _ & Len & Hev).
  split.
  - split; [assumption|]. intros i tids e Ht He.
    destruct (Hev i e He) as (row & Hrow & Hlen & _).
    rewrite Ht in Hrow. injection Hrow as ->.
    rewrite length_combine, length_map. lia.
  - intros i e tids k v m He Ht Hk.
    destruct (Hev i e He) as (row & Hrow & Hlen & _ & Hw & _).
    rewrite Ht in Hrow. injection Hrow as ->.
    apply nth_error_combine_inv in Hk as [Hv Hm].
    rewrite nth_error_map in Hm.
    destruct (nth_error (hits e) k) as [hit|] eqn:Eh; [|discriminate].
    simpl in Hm. injection Hm as <-.
    exists hit. split; [reflexivity|]. split; [reflexivity|].
    apply (nth_error_nth _ _ (-1)%Z) in Hv.
    destruct (Hw k) as [(_ & b) | (a & k' & _ & b & c)].
    + left. congruence.
    + right. rewrite (@nth_map_error _ _ _ _ _ _ _ Eh) in a. split; [lia | exact a].
Qed.

Lemma with_ids_In (ids : list (list (option Z)))
    (tracks : list (list (option Track.t))) (i j : nat)
    (ids_row : list (option Z)) (row : list (option Track.t))
    (t : Z) (tr : Track.t) :
  nth_error ids i = Some ids_row -> nth_error tracks i = Some row ->
  nth_error ids_row j = Some (Some t) -> nth_error row j = Some (Some tr) ->
  In (t, tr) (with_ids ids tracks).
Proof.
  forget_unused. intros Hi Ht Hj Hr. unfold with_ids.
  apply in_concat. eexists. split.
  - apply in_map_iff. exists (ids_row, row). split; [reflexivity|].
    eapply nth_error_In. apply nth_error_combine; eassumption.
  - simpl. apply in_flat_map. exists (Some t, Some tr).
    split; [|now left].
    eapply nth_error_In. apply nth_error_combine; eassumption.
Qed.

Lemma Forall2_nth_error {A B} (R : A -> B -> Prop) (l : list A) (l' : list B)
    (i : nat) (x : A) :
  Forall2 R l l' -> nth_error l i = Some x ->
  exists y, nth_error l' i = Some y /\ R x y.
Proof.
  intros H. revert i. induction H as [|a b l l' Hab _ IH]; intros [|i] Hi;
    try discriminate; simpl in *.
  - injection Hi as <-. eauto.
  - now apply IH.
Qed.

(** X18: the (track id, hit id) references [run] writes are exactly
    these: one for each unmasked hit whose entry [v] in [track_ids] is not
    negative and whose tracklet, entry [v] of the row of its event, is
    filled; it pairs the [id] placed in that tracklet, under which the
    tracklet is written, with the [id] of the hit.  A hit whose entry is
    [-1] is referenced by no track, although [-1], used as an index, takes
    the last tracklet of the row. *)
Theorem hit_refs_link_members (reserve_data : nat -> Z * Z)
    (hit_id : nat -> nat -> Z) (source_slice : Z * Z) (evs : list event)
    (out : output) (w : world rng) :
  fst (run_writes reserve_data hit_id source_slice evs w) = Some out ->
  exists track_ids tracks ids,
    fst (run evs w) =
    Some (track_ids, tracks, length (unmasked_tracks tracks)) /\
    Np.place (map (map Np.is_set) tracks)
             (map Np.u4 (Np.r_ (tracks_slice out))) = Some ids /\
    written out = with_ids ids tracks /\
    forall t h,
      In (t, h) (track_hit_ref out) <->
      exists i k e hit v tids ids_row row tr,
        nth_error evs i = Some e /\
        nth_error (hits e) k = Some hit /\ Hit.masked hit = false /\
        nth_error track_ids i = Some tids /\
        nth_error tids k = Some (v, false) /\ (0 <= v)%Z /\
        nth_error ids i = Some ids_row /\
        nth_error ids_row (Z.to_nat v) = Some (Some t) /\
        nth_error tracks i = Some row /\
        nth_error row (Z.to_nat v) = Some (Some tr) /\
        In (t, tr) (written out) /\
        h = hit_id i k.
Proof.
  intros H. apply returned in H.
  apply run_writes_Some in H
    as (track_ids & tracks & ids & track_ref_id & ev_id & w1 &
        Hr & Hp & Ht & Href & _ & Hs & Hw & _).
  exists track_ids, tracks, ids. rewrite Hr, Hs, Hw.
  split; [reflexivity|]. split; [assumption|]. split; [reflexivity|].
  pose proof Hr as Hr'. apply run_Some in Hr' as (w0 & Hf & Hc & _).
  apply find_tracks_rows in Hf as [[Len Hshape] Hent].
  apply place_Some in Hp as [_ Hset].
  apply take_along_axis_Some in Ht as (La & Lres & Htake).
  unfold track_hit_refs in Href.
  rewrite Len, Nat.eqb_refl in Href. simpl in Href.
  apply bind_Some in Href as (rows & w2 & Hrows & Href).
  apply ret_Some in Href as [-> _].
  apply for_rows_values in Hrows as (Lrows & Hrows).
  rewrite length_map in La.
  assert (Lc : length (combine track_ref_id (combine track_ids evs)) =
               length evs).
  { rewrite !length_combine. lia. }
  (* the row of the references of event [i] *)
  assert (Hrow : forall i e tids ids_row,
             nth_error evs i = Some e ->
             nth_error track_ids i = Some tids ->
             nth_error ids i = Some ids_row ->
             exists ref_row rr,
               map (Np.take ids_row) (map fst tids) = map Some ref_row /\
               nth_error rows i = Some rr /\
               track_hit_ref_row hit_id i ref_row tids (hits e) = Some rr).
  { intros i e tids ids_row He Hti Hii.
    destruct (Htake i ids_row (map fst tids) Hii) as (ref_row & Hri & Hmap).
    { now rewrite nth_error_map, Hti. }
    assert (Hx : nth_error (combine track_ref_id (combine track_ids evs)) i
                 = Some (ref_row, (tids, e))).
    { apply nth_error_combine; [assumption|].
      now apply nth_error_combine. }
    assert (Hlt : (i < length rows)%nat).
    { rewrite Lrows, Lc. apply nth_error_Some. congruence. }
    destruct (nth_error rows i) as [rr|] eqn:Err;
      [|apply nth_error_None in Err; lia].
    destruct (Hrows i _ rr Hx Err) as (wa & wb & Hl).
    apply lift_Some in Hl as [Hl _]. simpl in Hl.
    exists ref_row, rr. auto. }
  intros t h. split.
  - intros Hin. apply in_concat in Hin as (rr & Hrr & Hin).
    apply In_nth_error in Hrr as (i & Hrr).
    assert (Hi : (i < length evs)%nat).
    { rewrite <- Lc, <- Lrows. apply nth_error_Some. congruence. }
    destruct (nth_error evs i) as [e|] eqn:He;
      [|apply nth_error_None in He; lia].
    destruct (nth_error track_ids i) as [tids|] eqn:Hti;
      [|apply nth_error_None in Hti; lia].
    destruct (nth_error ids i) as [ids_row|] eqn:Hii;
      [|apply nth_error_None in Hii; lia].
    destruct (Hrow i e tids ids_row He Hti Hii)
      as (ref_row & rr' & Hmap & Hrr' & Hrefrow).
    rewrite Hrr in Hrr'. injection Hrr' as <-.
    apply (track_hit_ref_row_In _ _ _ _ _ Hrefrow) in Hin
      as (k & v & m & hit & Er & Et & Hv & Eh & Hm & ->).
    destruct (Hent i e tids k v m He Hti Et) as (hit' & Eh' & Em & Hvv).
    rewrite Eh in Eh'. injection Eh' as <-.
    rewrite Hm in Em. subst m.
    assert (Hv0 : (0 <= v)%Z).
    { destruct Hv as [? | Hv]; [discriminate|].
      destruct Hvv as [? | [? _]]; [contradiction | assumption]. }
    assert (Htk : Np.take ids_row v = Some (Some t)).
    { apply (f_equal (fun l => nth_error l k)) in Hmap.
      rewrite !nth_error_map, Et, Er in Hmap. simpl in Hmap.
      now injection Hmap. }
    apply take_nonneg in Htk; [|assumption].
    destruct (Forall2_nth_error _ Hset Hii) as (mrow & Hmr & Hset_row).
    rewrite nth_error_map in Hmr.
    destruct (nth_error tracks i) as [row|] eqn:Etr; [|discriminate].
    simpl in Hmr. injection Hmr as <-.
    assert (Hfilled : exists tr, nth_error row (Z.to_nat v) = Some (Some tr)).
    { apply (f_equal (fun l => nth_error l (Z.to_nat v))) in Hset_row.
      rewrite !nth_error_map, Htk in Hset_row. simpl in Hset_row.
      destruct (nth_error row (Z.to_nat v)) as [[tr|]|];
        try discriminate. now exists tr. }
    destruct Hfilled as (tr & Hfilled).
    exists i, k, e, hit, v, tids, ids_row, row, tr.
    repeat split; auto.
    eapply with_ids_In; eassumption.
  - intros (i & k & e & hit & v & tids & ids_row & row & tr &
            He & Eh & Hm & Hti & Et & Hv0 & Hii & Htk & _ & _ & _ & ->).
    destruct (Hrow i e tids ids_row He Hti Hii)
      as (ref_row & rr & Hmap & Hrr & Hrefrow).
    apply in_concat. exists rr. split; [eapply nth_error_In; eassumption|].
    apply (track_hit_ref_row_In _ _ _ _ _ Hrefrow).
    exists k, v, false, hit. repeat split; auto.
    + apply take_nonneg in Htk; [|assumption].
      apply (f_equal (fun l => nth_error l k)) in Hmap.
      rewrite !nth_error_map, Et in Hmap. simpl in Hmap.
      rewrite Htk in Hmap.
      destruct (nth_error ref_row k) as [o|]; [|discriminate].
      simpl in Hmap. congruence.
    + right.
      destruct (Hent i e tids k v false He Hti Et) as (_ & _ & _ & Hvv).
      lia.
Qed.

Lemma event_track_refs_snd (ev_ids : list Z) (ids : list (list (option Z))) :
  length ev_ids = length ids ->
  map snd (event_track_refs ev_ids ids) = concat (map compressed ids).
Proof.
  forget_unused. unfold event_track_refs. revert ids.
  induction ev_ids as [|ev ev_ids IH]; intros [|row ids] H; try discriminate;
    [reflexivity|].
  simpl in *. injection H as H. rewrite map_app, IH by assumption.
  f_equal. rewrite map_map. simpl. apply map_id.
Qed.

Lemma event_track_refs_In (ev_ids : list Z) (ids : list (list (option Z)))
    (ev t : Z) :
  In (ev, t) (event_track_refs ev_ids ids) <->
  exists i ids_row j,
    nth_error ev_ids i = Some ev /\ nth_error ids i = Some ids_row /\
    nth_error ids_row j = Some (Some t).
Proof.
  forget_unused. unfold event_track_refs. rewrite in_concat. split.
  - intros (l & Hl & Hin). apply in_map_iff in Hl as ([ev' row] & <- & Hp).
    simpl in Hin. apply in_map_iff in Hin as (t' & [= -> ->] & Ht).
    apply compressed_In in Ht. apply In_nth_error in Ht as (j & Hj).
    apply In_nth_error in Hp as (i & Hi).
    apply nth_error_combine_inv in Hi as [Hi1 Hi2].
    now exists i, row, j.
  - intros (i & row & j & Hi1 & Hi2 & Hj).
    exists (map (fun t' => (ev, t')) (compressed row)). split.
    + apply in_map_iff. exists (ev, row). split; [reflexivity|].
      eapply nth_error_In. apply nth_error_combine; eassumption.
    + apply in_map_iff. exists t. split; [reflexivity|].
      apply compressed_In. eapply nth_error_In; eassumption.
Qed.

Lemma r_nth_error (s : Z * Z) (i : nat) (v : Z) :
  nth_error (Np.r_ s) i = Some v <->
  (i < length (Np.r_ s))%nat /\ v = (fst s + Z.of_nat i)%Z.
Proof.
  forget_unused. rewrite r_length. unfold Np.r_. rewrite nth_error_map.
  split.
  - intros H.
    destruct (nth_error (seq 0 (Z.to_nat (snd s - fst s))) i) as [k|] eqn:E;
      [|discriminate].
    assert (Hlt : (i < Z.to_nat (snd s - fst s))%nat).
    { assert (Hi : nth_error (seq 0 (Z.to_nat (snd s - fst s))) i <> None)
        by congruence.
      apply nth_error_Some in Hi. now rewrite length_seq in Hi. }
    rewrite nth_error_nth' with (d := 0%nat) in E
      by (now rewrite length_seq).
    rewrite seq_nth in E by assumption. simpl in *.
    split; [assumption | congruence].
  - intros [Hlt ->].
    rewrite nth_error_nth' with (d := 0%nat) by (now rewrite length_seq).
    now rewrite seq_nth by assumption.
Qed.

Lemma broadcast_rows_same {A} (col : list A) (n : nat) :
  length col = n -> Np.broadcast_rows col n = Some col.
Proof.
  intros H. unfold Np.broadcast_rows. now rewrite H, Nat.eqb_refl.
Qed.

(** X19: when [run] returns and the source slice has one index per
    event, the (event id, track id) references it writes list the ids of
    the records written, in the order of the records, each once; and the
    event id of a reference is the index, in the source slice, of the
    event in whose row the tracklet is. *)
Theorem event_refs_cover_tracks (reserve_data : nat -> Z * Z)
    (hit_id : nat -> nat -> Z) (source_slice : Z * Z) (evs : list event)
    (out : output) (w : world rng) :
  fst (run_writes reserve_data hit_id source_slice evs w) = Some out ->
  length (Np.r_ source_slice) = length evs ->
  map snd (event_track_ref out) = map fst (written out) /\
  exists track_ids tracks ids,
    fst (run evs w) =
    Some (track_ids, tracks, length (unmasked_tracks tracks)) /\
    Np.place (map (map Np.is_set) tracks)
             (map Np.u4 (Np.r_ (tracks_slice out))) = Some ids /\
    written out = with_ids ids tracks /\
    forall ev t,
      In (ev, t) (event_track_ref out) <->
      exists i ids_row j,
        (i < length evs)%nat /\
        ev = (fst source_slice + Z.of_nat i)%Z /\
        nth_error ids i = Some ids_row /\
        nth_error ids_row j = Some (Some t).
Proof.
  intros H Hsrc. apply returned in H.
  apply run_writes_Some in H
    as (track_ids & tracks & ids & track_ref_id & ev_id & w1 &
        Hr & Hp & _ & _ & Hb & Hs & Hw & He).
  pose proof Hr as Hr'. apply run_Some in Hr' as (w0 & _ & Hc & _).
  apply calc_tracks_rows in Hc as [Lt _].
  rewrite broadcast_rows_same in Hb by congruence. injection Hb as <-.
  pose proof Hp as Hp'. apply place_Some in Hp' as [_ Hset].
  assert (Li : length ids = length tracks).
  { apply Forall2_length in Hset. now rewrite length_map in Hset. }
  destruct (@with_ids_values ids tracks Hset) as [W1 _].
  rewrite He, Hw, Hs. split.
  - rewrite W1. apply event_track_refs_snd. congruence.
  - exists track_ids, tracks, ids. rewrite Hr.
    split; [reflexivity|]. split; [assumption|]. split; [reflexivity|].
    intros ev t. rewrite event_track_refs_In. split.
    + intros (i & row & j & Hi & Hrow & Hj).
      apply r_nth_error in Hi as [Hi ->].
      exists i, row, j. repeat split; auto. congruence.
    + intros (i & row & j & Hi & -> & Hrow & Hj).
      exists i, row, j. split; [|auto].
      apply r_nth_error. split; [congruence | reflexivity].
Qed.

(* ================================================================== *)
(** ** [run] returns *)
(* ================================================================== *)

Lemma place_ok {A} (masks : list (list bool)) (vals : list A) :
  ((0 < Np.count (concat masks))%nat -> vals <> []) ->
  exists ids, Np.place masks vals = Some ids /\ length ids = length masks /\
              Forall2 (fun a m => map Np.is_set a = m) ids masks.
Proof.
  intros H. unfold Np.place.
  assert (Hany : existsb Np.any masks = true ->
                 (0 < Np.count (concat masks))%nat).
  { clear H. induction masks as [|m masks IH]; [discriminate|].
    simpl. rewrite count_app. intros E.
    apply orb_true_iff in E as [E | E].
    - apply any_count in E. lia.
    - apply IH in E. lia. }
  destruct ((length vals =? 0)%nat && existsb Np.any masks) eqn:E.
  - exfalso. apply andb_true_iff in E as [E1 E2].
    apply Nat.eqb_eq in E1. apply (H (Hany E2)).
    now apply length_zero_iff_nil.
  - eexists. split; [reflexivity|].
    assert (F : Forall2 (fun a m => map (@Np.is_set A) a = m)
                        (Np.place_rows vals 0 masks) masks).
    { apply place_rows_set.
      apply andb_false_iff in E as [E | E]; [left | now right].
      apply Nat.eqb_neq in E. intros ->. now apply E. }
    split; [|exact F]. now apply Forall2_length in F.
Qed.

Lemma take_along_axis_ok {A} (arr : list (list A)) (indices : list (list Z)) :
  length arr = length indices ->
  (forall p row idx v,
      nth_error arr p = Some row -> nth_error indices p = Some idx ->
      In v idx ->
      (- Z.of_nat (length row) <= v < Z.of_nat (length row))%Z) ->
  exists res, Np.take_along_axis arr indices = Some res.
Proof.
  intros Len H. unfold Np.take_along_axis. rewrite Len, Nat.eqb_refl.
  apply all_some_ok. intros o Ho E. subst o.
  apply in_map_iff in Ho as ([row idx] & Ho & Hin). simpl in Ho.
  apply In_nth_error in Hin as (p & Hp).
  apply nth_error_combine_inv in Hp as [Hp1 Hp2].
  destruct (@all_some_ok _ (map (Np.take row) idx)) as (r & Er);
    [|congruence].
  intros o Hin E. subst o. apply in_map_iff in Hin as (v & Hv & Hin).
  revert Hv. apply take_ok. eapply H; eassumption.
Qed.

(** When [find_tracks] and [calc_tracks] have returned, the rest of [run]
    returns as well, given a slice for the records and source indices for
    the events. *)
Lemma run_writes_ok (reserve_data : nat -> Z * Z) (hit_id : nat -> nat -> Z)
    (source_slice : Z * Z) (evs : list event)
    (track_ids : list (list (Z * bool)))
    (tracks : list (list (option Track.t))) (n : nat) (w w1 : world rng) :
  run evs w = (Some (track_ids, tracks, n), w1) ->
  ((0 < n)%nat -> (fst (reserve_data n) < snd (reserve_data n))%Z) ->
  length (Np.r_ source_slice) = length evs \/
  length (Np.r_ source_slice) = 1%nat ->
  exists out,
    run_writes reserve_data hit_id source_slice evs w = (Some out, w1).
Proof.
  intros Hr Hres Hsrc. unfold run_writes.
  erewrite bind_ok by exact Hr. cbn [fst snd].
  apply run_Some in Hr as (w0 & Hf & Hc & Hn).
  apply find_tracks_rows in Hf as [[Len Hshape] Hent].
  apply calc_tracks_rows in Hc as [Lt Hrows].
  destruct (@place_ok Z (map (map Np.is_set) tracks)
              (map Np.u4 (Np.r_ (reserve_data n))))
    as (ids & Ep & Li & Hset).
  { rewrite <- unmasked_tracks_count, <- Hn. intros Hpos E.
    apply (f_equal (@length _)) in E.
    rewrite length_map, r_length in E. simpl in E.
    specialize (Hres Hpos). lia. }
  rewrite length_map in Li.
  unfold Exec.bind at 1. unfold Exec.lift at 1. rewrite Ep.
  assert (Hidsrow : forall p ids_row,
             nth_error ids p = Some ids_row ->
             length ids_row = n_tracks track_ids).
  { intros p ids_row Hp.
    destruct (Forall2_nth_error _ Hset Hp) as (m & Hm & Em).
    rewrite nth_error_map in Hm.
    destruct (nth_error tracks p) as [row|] eqn:Er; [|discriminate].
    simpl in Hm. injection Hm as <-.
    apply (f_equal (@length _)) in Em. rewrite !length_map in Em.
    destruct (Hrows p row Er). congruence. }
  destruct (@take_along_axis_ok _ ids (map (map fst) track_ids))
    as (track_ref_id & Et).
  { rewrite length_map. congruence. }
  { intros p ids_row idx v Hp Hidx Hv.
    rewrite (Hidsrow p ids_row Hp).
    pose proof (n_tracks_pos track_ids) as Hpos.
    rewrite nth_error_map in Hidx.
    destruct (nth_error track_ids p) as [tids|] eqn:Eti; [|discriminate].
    simpl in Hidx. injection Hidx as <-.
    apply in_map_iff in Hv as ([v' m] & Hv & Hin). simpl in Hv. subst v'.
    apply In_nth_error in Hin as (k & Hk).
    assert (Hp' : (p < length evs)%nat).
    { rewrite <- Len. apply nth_error_Some. congruence. }
    destruct (nth_error evs p) as [e|] eqn:Ee;
      [|apply nth_error_None in Ee; lia].
    destruct (Hent p e tids k v m Ee Eti Hk) as (hit & _ & _ & Hvv).
    destruct Hvv as [-> | [Hv0 ->]]; [lia|].
    assert (v < Z.of_nat (n_tracks track_ids))%Z; [|lia].
    apply n_tracks_gt with (row := tids).
    - eapply nth_error_In; eassumption.
    - eapply nth_error_In; eassumption. }
  unfold Exec.bind at 1. unfold Exec.lift at 1. rewrite Et.
  apply take_along_axis_Some in Et as (La & Lres & Htake).
  rewrite length_map in La.
  assert (Href : exists ref,
             track_hit_refs hit_id track_ref_id track_ids evs w1
             = (Some ref, w1)).
  { unfold track_hit_refs. rewrite Len, Nat.eqb_refl. simpl.
    assert (Hrowsok : forall (l : list (list (option Z) *
                                       (list (Z * bool) * event))) i0,
               (forall x, In x l ->
                          length (fst x) = length (fst (snd x)) /\
                          length (fst (snd x)) =
                          length (hits (snd (snd x)))) ->
               exists rows,
                 Exec.for_rows
                   (fun i x =>
                      Exec.lift (track_hit_ref_row hit_id i (fst x)
                                   (fst (snd x)) (hits (snd (snd x)))))
                   i0 l w1 = (Some rows, w1)).
    { induction l as [|x l IH]; intros i0 Hl; [now exists []|].
      destruct (Hl x (or_introl eq_refl)) as [L1 L2].
      destruct (@track_hit_ref_row_ok hit_id i0 _ _ _ L1 L2) as (rr & Err).
      destruct (IH (S i0)) as (rows & Erows);
        [intros y Hy; apply Hl; now right|].
      exists (rr :: rows). simpl.
      unfold Exec.bind at 1. unfold Exec.lift at 1. rewrite Err.
      unfold Exec.bind at 1. now rewrite Erows. }
    destruct (Hrowsok (combine track_ref_id (combine track_ids evs)) 0%nat)
      as (rows & Erows).
    { intros [ref_row [tids e]] Hin. simpl.
      apply In_nth_error in Hin as (p & Hp).
      apply nth_error_combine_inv in Hp as [Hp1 Hp2].
      apply nth_error_combine_inv in Hp2 as [Hp2 Hp3].
      assert (Hplt : (p < length ids)%nat).
      { rewrite La, Len. apply nth_error_Some. congruence. }
      destruct (nth_error ids p) as [ids_row|] eqn:Eip;
        [|apply nth_error_None in Eip; lia].
      destruct (Htake p ids_row (map fst tids) Eip) as (rr & Hrr & Hmap);
        [now rewrite nth_error_map, Hp2|].
      rewrite Hp1 in Hrr. injection Hrr as <-.
      apply (f_equal (@length _)) in Hmap. rewrite !length_map in Hmap.
      split; [congruence|]. eapply Hshape; eassumption. }
    erewrite bind_ok by exact Erows. eexists. reflexivity. }
  destruct Href as (ref & Eref).
  erewrite bind_ok by exact Eref.
  assert (Hb : exists ev_id,
             Np.broadcast_rows (Np.r_ source_slice) (length tracks)
             = Some ev_id).
  { unfold Np.broadcast_rows.
    destruct (length (Np.r_ source_slice) =? length tracks)%nat eqn:E;
      [eauto|].
    apply Nat.eqb_neq in E. destruct Hsrc as [Hsrc | Hsrc]; [congruence|].
    destruct (Np.r_ source_slice) as [|x [|y l]]; try discriminate. eauto. }
  destruct Hb as (ev_id & Eb).
  unfold Exec.bind at 1. unfold Exec.lift at 1. rewrite Eb.
  eexists. reflexivity.
Qed.

(** X20: [run] returns, and hands its three writes to the data manager,
    whenever the projected points of the unmasked hits are finite, DBSCAN
    and RANSAC answer on the finite point sets they are given, PCA answers
    on two or more finite points, the data manager reserves a non-empty
    slice when there are records to write, and the source slice has one
    index per event.  In particular neither the sentinel [-1] used as an
    index into the array of tracklets, nor an event without hits or
    without tracks, makes it raise. *)
Theorem run_returns (reserve_data : nat -> Z * Z) (hit_id : nat -> nat -> Z)
    (source_slice : Z * Z) (evs : list event) (w : world rng) :
  dbscan_total v_finite -> ransac_total v_finite -> pca_total ->
  inputs_accepted v_finite evs ->
  (forall n, (0 < n)%nat ->
             (fst (reserve_data n) < snd (reserve_data n))%Z) ->
  length (Np.r_ source_slice) = length evs ->
  exists out,
    fst (run_writes reserve_data hit_id source_slice evs w) = Some out.
Proof.
  intros Hd Hr Hpca Hin Hres Hsrc.
  destruct (@find_tracks_ok v_finite Hd Hr evs w Hin) as (track_ids & w1 & Ef).
  pose proof Ef as Ef'. apply find_tracks_rows in Ef' as [Hshape _].
  destruct (@calc_tracks_ok evs track_ids w1 Hpca Hshape Hin)
    as (tracks & w2 & Ec).
  assert (Erun : run evs w =
                 (Some (track_ids, tracks, length (unmasked_tracks tracks)),
                  w2)).
  { unfold run. erewrite bind_ok by exact Ef.
    erewrite bind_ok by exact Ec. reflexivity. }
  destruct (@run_writes_ok reserve_data hit_id source_slice evs _ _ _ _ _
              Erun (Hres _) (or_introl Hsrc)) as (out & E).
  exists out. now rewrite E.
Qed.

(* ================================================================== *)
(** ** What [calc_tracks] hands to the libraries, in every run *)
(* ================================================================== *)

Lemma emits_pca (pts : list vec3) (Q : action -> Prop) :
  Q (CallPca pts) -> emits (pca pts) Q.
Proof.
  intros H. unfold pca. apply emits_bind; [now apply emits_record|].
  intros _ _ _ _ w. exists []. rewrite app_nil_r.
  split; [|constructor].
  now destruct (pca_fit _ _) as [[c g]|].
Qed.

Lemma emits_do_pca (xyz : list vec3) (mask : list bool) (Q : action -> Prop) :
  (forall pts, length pts = Np.count mask -> Q (CallPca pts)) ->
  emits (do_pca xyz mask) Q.
Proof.
  intros HQ. unfold do_pca. apply emits_bind; [apply emits_lift|].
  intros pts w w' H. apply lift_Some in H as [H _].
  apply select_Some in H as (_ & _ & Hlen).
  apply emits_bind; [|intros; apply emits_ret].
  apply emits_pca. apply HQ. now rewrite length_map.
Qed.

Lemma emits_calc_track (xyz : list vec3) (hs : list Hit.t)
    (tids : list (Z * bool)) (j : nat) :
  emits (calc_track xyz hs tids j) pca_action.
Proof.
  unfold calc_track. apply emits_bind; [apply emits_lift|].
  intros mask _ _ _.
  destruct (Np.count mask <? 2)%nat eqn:E; [apply emits_ret|].
  apply Nat.ltb_ge in E.
  apply emits_bind.
  { apply emits_do_pca. intros pts Hlen. simpl. lia. }
  intros ca _ _ _.
  apply emits_bind; [apply emits_lift|]. intros.
  apply emits_bind; [apply emits_lift|]. intros.
  apply emits_bind; [apply emits_lift|]. intros.
  apply emits_bind; [apply emits_lift|]. intros.
  apply emits_bind; [apply emits_lift|]. intros.
  apply emits_ret.
Qed.

Lemma emits_calc_tracks (evs : list event)
    (track_ids : list (list (Z * bool))) :
  emits (calc_tracks evs track_ids) pca_action.
Proof.
  unfold calc_tracks. apply emits_for_rows. intros i ex.
  unfold calc_tracks_event. apply emits_bind; [apply emits_lift|].
  intros tids _ _ _. apply emits_for_rows. intros _ j.
  apply emits_calc_track.
Qed.

(** X21: in every run of [calc_tracks], whether it returns or raises,
    the only calls into the libraries are fits of PCA, each to two or
    more points: [calc_tracks] runs neither DBSCAN nor RANSAC, and never
    asks PCA for the axis of fewer than two points. *)
Theorem pca_only_on_tracks (evs : list event)
    (track_ids : list (list (Z * bool))) (w : world rng) :
  exists acts,
    log (snd (calc_tracks evs track_ids w)) = log w ++ acts /\
    forall a, In a acts ->
              exists pts, a = CallPca pts /\ (2 <= length pts)%nat.
Proof.
  destruct (emits_calc_tracks evs track_ids w) as (acts & L & F).
  exists acts. split; [assumption|].
  rewrite Forall_forall in F. intros a Ha. specialize (F a Ha).
  destruct a; try contradiction. now exists pts.
Qed.

(* ================================================================== *)
(** ** [run]: as many references as hits *)
(* ================================================================== *)

Lemma NoDup_app_disjoint {A} (l1 l2 : list A) (a : A) :
  NoDup (l1 ++ l2) -> In a l1 -> In a l2 -> False.
Proof.
  induction l1 as [|x l1 IH]; simpl; intros H H1 H2; [contradiction|].
  inversion H as [|? ? Hx Hrest]; subst.
  destruct H1 as [-> | H1].
  - apply Hx. apply in_or_app. now right.
  - now apply IH.
Qed.

Lemma compressed_tail_NoDup {A} (o : option A) (row : list (option A)) :
  NoDup (compressed (o :: row)) -> NoDup (compressed row).
Proof.
  forget_unused. destruct o as [x|]; simpl; [|auto].
  intros H. now inversion H.
Qed.

(** Ids that are pairwise distinct determine their position in a row. *)
Lemma compressed_nth_inj {A} (row : list (option A)) (v j : nat) (t : A) :
  NoDup (compressed row) ->
  nth_error row v = Some (Some t) -> nth_error row j = Some (Some t) ->
  v = j.
Proof.
  forget_unused. revert v j.
  induction row as [|o row IH]; intros [|v] [|j] H Hv Hj; simpl in *;
    try discriminate.
  - reflexivity.
  - exfalso. injection Hv as ->. simpl in H.
    inversion H as [|? ? Hx _]; subst. apply Hx.
    apply compressed_In. eapply nth_error_In; eassumption.
  - exfalso. injection Hj as ->. simpl in H.
    inversion H as [|? ? Hx _]; subst. apply Hx.
    apply compressed_In. eapply nth_error_In; eassumption.
  - f_equal. apply IH; [|assumption|assumption].
    now apply compressed_tail_NoDup in H.
Qed.

Lemma ids_row_NoDup {A} (ids : list (list (option A))) (i : nat)
    (r : list (option A)) :
  NoDup (concat (map compressed ids)) -> nth_error ids i = Some r ->
  NoDup (compressed r).
Proof.
  forget_unused. revert i.
  induction ids as [|x ids IH]; intros [|i] H Hi; simpl in *;
    try discriminate.
  - injection Hi as ->. now apply NoDup_app_remove_r in H.
  - apply NoDup_app_remove_l in H. eapply IH; eassumption.
Qed.

(** ... and the row they are in. *)
Lemma ids_rows_inj {A} (ids : list (list (option A))) (p i : nat)
    (r1 r2 : list (option A)) (t : A) :
  NoDup (concat (map compressed ids)) ->
  nth_error ids p = Some r1 -> nth_error ids i = Some r2 ->
  In (Some t) r1 -> In (Some t) r2 -> p = i.
Proof.
  forget_unused. revert p i.
  induction ids as [|x ids IH]; intros [|p] [|i] H Hp Hi H1 H2; simpl in *;
    try discriminate.
  - reflexivity.
  - exfalso. injection Hp as ->.
    apply (@NoDup_app_disjoint _ _ _ t H); [now apply compressed_In|].
    apply in_concat. exists (compressed r2).
    split; [|now apply compressed_In].
    apply in_map. eapply nth_error_In; eassumption.
  - exfalso. injection Hi as ->.
    apply (@NoDup_app_disjoint _ _ _ t H); [now apply compressed_In|].
    apply in_concat. exists (compressed r1).
    split; [|now apply compressed_In].
    apply in_map. eapply nth_error_In; eassumption.
  - f_equal. apply NoDup_app_remove_l in H. eapply IH; eassumption.
Qed.

Lemma filter_nil {A} (f : A -> bool) (l : list A) :
  (forall x, In x l -> f x = false) -> filter f l = [].
Proof.
  induction l as [|x l IH]; intros H; [reflexivity|].
  simpl. rewrite (H x) by now left. apply IH. intros y Hy. apply H.
  now right.
Qed.

Lemma filter_concat_one {A} (f : A -> bool) (rows : list (list A))
    (i : nat) (r : list A) :
  nth_error rows i = Some r ->
  (forall p r', p <> i -> nth_error rows p = Some r' -> filter f r' = []) ->
  filter f (concat rows) = filter f r.
Proof.
  revert i. induction rows as [|x rows IH]; intros [|i] Hi Ho; simpl in *;
    try discriminate.
  - injection Hi as ->. rewrite filter_app.
    assert (E : filter f (concat rows) = []).
    { clear IH. assert (Hall : forall r', In r' rows -> filter f r' = []).
      { intros r' Hr'. apply In_nth_error in Hr' as (p & Hp).
        apply (Ho (S p)); [lia | exact Hp]. }
      clear Ho. induction rows as [|y rows IH]; [reflexivity|].
      simpl. rewrite filter_app, (Hall y) by now left.
      apply IH. intros r' Hr'. apply Hall. now right. }
    rewrite E. apply app_nil_r.
  - rewrite filter_app, (Ho 0%nat x) by (auto; lia). simpl.
    apply (IH i Hi). intros p r' Hp Hr'. apply (Ho (S p)); [lia | exact Hr'].
Qed.

(** The references of one row that carry the id [t], counted. *)
Lemma ref_row_count (t : Z) (R : list (option Z)) (H : list Z)
    (m : list bool) :
  length H = length R -> length m = length R ->
  length (filter (fun p : Z * Z => (fst p =? t)%Z)
            (compressed
               (map (fun p : option Z * Z =>
                       match fst p with
                       | Some t' => Some (t', snd p)
                       | None => None
                       end)
                    (Np.pick (combine R H) m)))) =
  Np.count (map (fun x : option Z * bool =>
                   snd x && match fst x with
                            | Some t' => (t' =? t)%Z
                            | None => false
                            end) (combine R m)).
Proof.
  forget_unused. revert H m.
  induction R as [|o R IH]; intros [|h H] [|b m] LH Lm; try discriminate;
    [reflexivity|].
  simpl in LH, Lm. injection LH as LH. injection Lm as Lm.
  simpl. rewrite count_cons. destruct b; simpl.
  - destruct o as [t'|]; simpl.
    + destruct (t' =? t)%Z; simpl; now rewrite IH.
    + now rewrite IH.
  - now rewrite IH.
Qed.

Lemma take_In {A} (row : list A) (v : Z) (x : A) :
  Np.take row v = Some x -> In x row.
Proof.
  unfold Np.take. destruct (_ && _)%bool; [|discriminate].
  apply nth_error_In.
Qed.

Lemma with_ids_In_inv (ids : list (list (option Z)))
    (tracks : list (list (option Track.t))) (t : Z) (tr : Track.t) :
  In (t, tr) (with_ids ids tracks) ->
  exists i j ids_row row,
    nth_error ids i = Some ids_row /\ nth_error tracks i = Some row /\
    nth_error ids_row j = Some (Some t) /\ nth_error row j = Some (Some tr).
Proof.
  forget_unused. unfold with_ids. intros H.
  apply in_concat in H as (l & Hl & Hin).
  apply in_map_iff in Hl as ([ids_row row] & <- & Hp). simpl in Hin.
  apply In_nth_error in Hp as (i & Hi).
  apply nth_error_combine_inv in Hi as [Hi1 Hi2].
  apply in_flat_map in Hin as ([a b] & Hq & Hx).
  destruct a as [t'|]; [|contradiction].
  destruct b as [tr'|]; [|contradiction].
  destruct Hx as [[= -> ->] | []].
  apply In_nth_error in Hq as (j & Hj).
  apply nth_error_combine_inv in Hj as [Hj1 Hj2].
  now exists i, j, ids_row, row.
Qed.

(** Entry [(i, j)] of the array [calc_tracks] returns. *)
Lemma calc_tracks_entry (evs : list event)
    (track_ids : list (list (Z * bool)))
    (tracks : list (list (option Track.t))) (w w' : world rng)
    (i j : nat) (e : event) (row : list (option Track.t))
    (o : option Track.t) :
  calc_tracks evs track_ids w = (Some tracks, w') ->
  nth_error evs i = Some e -> nth_error tracks i = Some row ->
  nth_error row j = Some o ->
  exists tids mask,
    nth_error track_ids i = Some tids /\
    track_mask tids (hits e) (Z.of_nat j) = Some mask /\
    match o with
    | Some tr => Track.nhit tr = Np.sum mask /\ (2 <= Track.nhit tr)%Z
    | None => (Np.sum mask < 2)%Z
    end.
Proof.
  intros H He Hrow Ho. unfold calc_tracks in H.
  apply for_rows_values in H as (Len & Hrows).
  assert (Hx : nth_error (combine evs (hit_xyz evs)) i =
               Some (e, map (fun h => hit_xyz1 h (t0_ts e)) (hits e))).
  { apply nth_error_combine; [assumption|].
    unfold hit_xyz. now rewrite nth_error_map, He. }
  destruct (Hrows i _ row Hx Hrow) as (w1 & w2 & Hev).
  unfold calc_tracks_event in Hev. simpl in Hev.
  apply bind_Some in Hev as (tids & w3 & Ht & Hev).
  apply lift_Some in Ht as [Ht ->].
  apply for_rows_values in Hev as (Lrow & Hent).
  assert (Hlt : (j < length (seq 0 (n_tracks track_ids)))%nat).
  { rewrite <- Lrow. apply nth_error_Some. congruence. }
  rewrite length_seq in Hlt.
  assert (Hseq : nth_error (seq 0 (n_tracks track_ids)) j = Some j).
  { rewrite nth_error_nth' with (d := 0%nat) by (now rewrite length_seq).
    now rewrite seq_nth. }
  destruct (Hent j j o Hseq Ho) as (w4 & w5 & Hc).
  apply calc_track_Some in Hc as (mask & Hm & Hfit).
  now exists tids, mask.
Qed.

(** X22: when [run] returns with the slice the data manager owes it,
    every record written has exactly [nhit] references to hits: the
    number of (track id, hit id) references that carry the [id] of a
    record is the [nhit] of that record. *)
Theorem refs_count_is_nhit (reserve_data : nat -> Z * Z)
    (hit_id : nat -> nat -> Z) (source_slice : Z * Z) (evs : list event)
    (out : output) (w : world rng) :
  fst (run_writes reserve_data hit_id source_slice evs w) = Some out ->
  reserves reserve_data (length (written out)) ->
  forall t tr,
    In (t, tr) (written out) ->
    Z.of_nat (length (filter (fun p : Z * Z => (fst p =? t)%Z)
                             (track_hit_ref out))) = Track.nhit tr.
Proof.
  intros H Hres t tr Hin. apply returned in H.
  apply run_writes_Some in H
    as (track_ids & tracks & ids & track_ref_id & ev_id & w1 &
        Hr & Hp & Ht & Href & _ & Hs & Hw & _).
  rewrite Hw in *.
  pose proof Hr as Hr'. apply run_Some in Hr' as (w0 & Hf & Hc & _).
  apply find_tracks_rows in Hf as [[Len Hshape] Hent].
  apply place_Some in Hp as [Hids Hset].
  destruct (@with_ids_values ids tracks Hset) as [W1 W2].
  set (n := length (unmasked_tracks tracks)) in *.
  assert (Ln : length (with_ids ids tracks) = n).
  { unfold n. rewrite <- W2. now rewrite length_map. }
  rewrite Ln in Hres. destruct Hres as (Hlo & Hlen & Hhi).
  (* the ids are pairwise distinct *)
  assert (Hnd : NoDup (concat (map compressed ids))).
  { rewrite Hids, (@r_u4 _ Hlo Hhi).
    assert (Lr : length (Np.r_ (reserve_data n)) = n)
      by (rewrite r_length, Hlen; lia).
    rewrite place_rows_values
      by (rewrite <- unmasked_tracks_count; fold n; lia).
    rewrite <- unmasked_tracks_count. fold n. simpl.
    rewrite <- Lr at 1. rewrite firstn_all. apply r_NoDup. }
  clear Hids.
  apply with_ids_In_inv in Hin
    as (i & j & ids_row & row & Hii & Hti & Hij & Hrj).
  pose proof Hc as Hc'. apply calc_tracks_rows in Hc' as [Lt _].
  assert (Hi : (i < length evs)%nat).
  { rewrite <- Lt. apply nth_error_Some. congruence. }
  destruct (nth_error evs i) as [e|] eqn:He;
    [|apply nth_error_None in He; lia].
  destruct (@calc_tracks_entry evs track_ids tracks w0 w1 i j e row (Some tr)
              Hc He Hti Hrj)
    as (tids & tmask & Htids & Htm & Hn & _).
  rewrite Hn. unfold Np.sum. f_equal.
  (* the rows of references *)
  apply take_along_axis_Some in Ht as (La & Lres & Htake).
  rewrite length_map in La.
  unfold track_hit_refs in Href.
  rewrite Len, Nat.eqb_refl in Href. simpl in Href.
  apply bind_Some in Href as (rows & w2 & Hrows & Href).
  apply ret_Some in Href as [-> _].
  apply for_rows_values in Hrows as (Lrows & Hrows).
  assert (Lc : length (combine track_ref_id (combine track_ids evs)) =
               length evs).
  { rewrite !length_combine. lia. }
  assert (Hrow : forall p e' tids' ids_row',
             nth_error evs p = Some e' ->
             nth_error track_ids p = Some tids' ->
             nth_error ids p = Some ids_row' ->
             exists ref_row rr,
               map (Np.take ids_row') (map fst tids') = map Some ref_row /\
               nth_error rows p = Some rr /\
               track_hit_ref_row hit_id p ref_row tids' (hits e') = Some rr).
  { intros p e' tids' ids_row' He' Htp Hip.
    destruct (Htake p ids_row' (map fst tids') Hip) as (ref_row & Hri & Hmap).
    { now rewrite nth_error_map, Htp. }
    assert (Hx : nth_error (combine track_ref_id (combine track_ids evs)) p
                 = Some (ref_row, (tids', e'))).
    { apply nth_error_combine; [assumption|].
      now apply nth_error_combine. }
    assert (Hlt : (p < length rows)%nat).
    { rewrite Lrows, Lc. apply nth_error_Some. congruence. }
    destruct (nth_error rows p) as [rr|] eqn:Err;
      [|apply nth_error_None in Err; lia].
    destruct (Hrows p _ rr Hx Err) as (wa & wb & Hl).
    apply lift_Some in Hl as [Hl _]. simpl in Hl.
    exists ref_row, rr. auto. }
  destruct (Hrow i e tids ids_row He Htids Hii)
    as (ref_row & rr & Hmap & Hrr & Hrefrow).
  (* only the row of event [i] holds references with the id [t] *)
  rewrite (@filter_concat_one _ _ _ _ _ Hrr).
  2:{ intros p rr' Hpi Hrr'. apply filter_nil. intros [t' h] Hth. simpl.
      apply Z.eqb_neq. intros ->. apply Hpi.
      assert (Hp : (p < length evs)%nat).
      { rewrite <- Lc, <- Lrows. apply nth_error_Some. congruence. }
      destruct (nth_error evs p) as [e'|] eqn:He';
        [|apply nth_error_None in He'; lia].
      destruct (nth_error track_ids p) as [tids'|] eqn:Htp;
        [|apply nth_error_None in Htp; lia].
      destruct (nth_error ids p) as [ids_row'|] eqn:Hip;
        [|apply nth_error_None in Hip; lia].
      destruct (Hrow p e' tids' ids_row' He' Htp Hip)
        as (ref_row' & rr'' & Hmap' & Hrr'' & Hrefrow').
      rewrite Hrr' in Hrr''. injection Hrr'' as <-.
      apply (track_hit_ref_row_In _ _ _ _ _ Hrefrow') in Hth
        as (k & v & m & hit & Er & Et & _).
      apply (f_equal (fun l => nth_error l k)) in Hmap'.
      rewrite !nth_error_map, Et, Er in Hmap'. simpl in Hmap'.
      injection Hmap' as Hmap'. apply take_In in Hmap'.
      eapply ids_rows_inj with (t := t); try eassumption.
      eapply nth_error_In; eassumption. }
  (* in that row, they are the hits of the track *)
  unfold track_hit_ref_row in Hrefrow.
  destruct (ref_mask ref_row tids (hits e)) as [rmask|] eqn:Erm;
    [|discriminate].
  apply ref_mask_Some in Erm as (L1 & L2 & L3 & Hrmask).
  destruct (Np.select ref_row rmask) as [a|] eqn:Ea; [|discriminate].
  destruct (Np.select (map (hit_id i) (seq 0 (length (hits e)))) rmask)
    as [b|] eqn:Eb; [|discriminate].
  apply select_Some in Ea as (_ & -> & _).
  apply select_Some in Eb as (_ & -> & _).
  injection Hrefrow as <-.
  rewrite combine_pick, ref_row_count
    by (rewrite ?length_map, ?length_seq; congruence).
  f_equal.
  assert (Ltm : length tmask = length (hits e)).
  { destruct (@track_mask_ok tids (hits e) (Z.of_nat j) L2)
      as (tm & Etm & Ltm). congruence. }
  pose proof (@ids_row_NoDup _ _ _ _ Hnd Hii) as Hrownd.
  apply nth_ext with (d := false) (d' := false).
  { rewrite length_map, length_combine. lia. }
  intros k Hk. rewrite length_map, length_combine in Hk.
  assert (Hkr : (k < length ref_row)%nat) by lia.
  destruct (nth_error ref_row k) as [o|] eqn:Er;
    [|apply nth_error_None in Er; lia].
  destruct (nth_error rmask k) as [bk|] eqn:Ek;
    [|apply nth_error_None in Ek; lia].
  destruct (nth_error tids k) as [[v m]|] eqn:Et;
    [|apply nth_error_None in Et; lia].
  destruct (nth_error (hits e) k) as [hit|] eqn:Eh;
    [|apply nth_error_None in Eh; lia].
  rewrite (@nth_map_error _ _ _ _ _ _ _ (nth_error_combine _ _ _ Er Ek)).
  cbn [fst snd].
  rewrite (track_mask_nth _ _ _ k Htm).
  assert (Ebk : bk = nth k rmask false)
    by (symmetry; now apply nth_error_nth).
  rewrite Ebk, Hrmask. unfold unmasked.
  rewrite (@nth_map_error _ _ _ _ _ _ _ Er),
    (@nth_map_error _ _ _ _ _ _ _ Et),
    (@nth_map_error _ _ _ _ _ _ _ Eh).
  rewrite (@nth_map_error _ _ fst _ _ _ (-1)%Z Et),
    (@nth_map_error _ _ snd _ _ _ true Et),
    (@nth_map_error _ _ Hit.masked _ _ _ true Eh).
  cbn [fst snd].
  destruct (Hent i e tids k v m He Htids Et) as (hit' & Eh' & Em & Hv).
  rewrite Eh in Eh'. injection Eh' as <-. subst m.
  assert (Htk : Np.take ids_row v = Some o).
  { apply (f_equal (fun l => nth_error l k)) in Hmap.
    rewrite !nth_error_map, Et, Er in Hmap. simpl in Hmap.
    now injection Hmap. }
  assert (HI : match o with
               | Some t' => (t' =? t)%Z
               | None => false
               end = true -> Np.is_set o = true)
    by (destruct o; [reflexivity | discriminate]).
  destruct (Hit.masked hit) eqn:Emk.
  { destruct (Np.is_set o), (v =? -1)%Z, (match o with
               | Some t' => (t' =? t)%Z
               | None => false
               end), (v =? Z.of_nat j)%Z;
      reflexivity. }
  destruct Hv as [-> | [Hv0 _]].
  { assert (E1 : (-1 =? Z.of_nat j)%Z = false) by (apply Z.eqb_neq; lia).
    rewrite E1. change ((-1 =? -1)%Z) with true.
    destruct (Np.is_set o), (match o with
               | Some t' => (t' =? t)%Z
               | None => false
               end); reflexivity. }
  apply take_nonneg in Htk; [|assumption].
  assert (Hne : (v =? -1)%Z = false) by (apply Z.eqb_neq; lia).
  rewrite Hne.
  assert (HA : match o with
               | Some t' => (t' =? t)%Z
               | None => false
               end = (v =? Z.of_nat j)%Z).
  { destruct (v =? Z.of_nat j)%Z eqn:Evj.
    - apply Z.eqb_eq in Evj. subst v. rewrite Nat2Z.id, Hij in Htk.
      injection Htk as <-. apply Z.eqb_refl.
    - apply Z.eqb_neq in Evj. destruct o as [t'|]; [|reflexivity].
      apply Z.eqb_neq. intros ->. apply Evj.
      pose proof (@compressed_nth_inj _ _ _ _ _ Hrownd Htk Hij). lia. }
  rewrite <- HA.
  destruct (match o with
               | Some t' => (t' =? t)%Z
               | None => false
               end) eqn:EA.
  - rewrite (HI eq_refl). reflexivity.
  - destruct (Np.is_set o); reflexivity.
Qed.

(* ================================================================== *)
(** ** [do_pca]: the centroid and the points handed to PCA *)
(* ================================================================== *)

Lemma of_nat_succ (n : nat) :
  Q2Qc (inject_Z (Z.of_nat (S n))) = (Q2Qc (inject_Z (Z.of_nat n)) + 1)%Qc.
Proof.
  forget_unused. apply Qc_is_canon. unfold Qcplus. cbn [this Q2Qc].
  rewrite !Qred_correct, Nat2Z.inj_succ. unfold Z.succ.
  now rewrite inject_Z_plus.
Qed.

Lemma fold_plus_shift (qs : list Qc) (x d : Qc) :
  fold_left Qcplus qs (x + d)%Qc = (fold_left Qcplus qs x + d)%Qc.
Proof.
  forget_unused. revert x. induction qs as [|q qs IH]; intros x;
    [reflexivity|].
  simpl. replace (x + d + q)%Qc with (x + q + d)%Qc by ring. apply IH.
Qed.

(** The sum of the deviations from [m]. *)
Lemma fold_centred (qs : list Qc) (m x : Qc) :
  fold_left Qcplus (map (fun q => q + - m)%Qc qs) x =
  (fold_left Qcplus qs x
   + - (Q2Qc (inject_Z (Z.of_nat (length qs))) * m))%Qc.
Proof.
  forget_unused. revert x. induction qs as [|q qs IH]; intros x.
  - simpl. change (Q2Qc (inject_Z 0)) with 0%Qc. ring.
  - cbn [map fold_left length]. rewrite IH, of_nat_succ.
    replace (x + (q + - m))%Qc with (x + q + - m)%Qc by ring.
    rewrite fold_plus_shift. ring.
Qed.

Lemma fold_plus_lower (qs : list Qc) (lo x : Qc) :
  (forall q, In q qs -> (lo <= q)%Qc) ->
  (x + Q2Qc (inject_Z (Z.of_nat (length qs))) * lo
   <= fold_left Qcplus qs x)%Qc.
Proof.
  forget_unused. revert x. induction qs as [|q qs IH]; intros x H.
  - simpl. change (Q2Qc (inject_Z 0)) with 0%Qc.
    replace (x + 0 * lo)%Qc with x by ring. apply Qcle_refl.
  - cbn [fold_left length]. rewrite of_nat_succ.
    eapply Qcle_trans; [|apply IH; intros y Hy; apply H; now right].
    replace (x + (Q2Qc (inject_Z (Z.of_nat (length qs))) + 1) * lo)%Qc
      with (x + lo + Q2Qc (inject_Z (Z.of_nat (length qs))) * lo)%Qc by ring.
    apply Qcplus_le_compat; [|apply Qcle_refl].
    apply Qcplus_le_compat; [apply Qcle_refl | apply H; now left].
Qed.

Lemma fold_plus_upper (qs : list Qc) (hi x : Qc) :
  (forall q, In q qs -> (q <= hi)%Qc) ->
  (fold_left Qcplus qs x
   <= x + Q2Qc (inject_Z (Z.of_nat (length qs))) * hi)%Qc.
Proof.
  forget_unused. revert x. induction qs as [|q qs IH]; intros x H.
  - simpl. change (Q2Qc (inject_Z 0)) with 0%Qc.
    replace (x + 0 * hi)%Qc with x by ring. apply Qcle_refl.
  - cbn [fold_left length]. rewrite of_nat_succ.
    eapply Qcle_trans; [apply IH; intros y Hy; apply H; now right|].
    replace (x + (Q2Qc (inject_Z (Z.of_nat (length qs))) + 1) * hi)%Qc
      with (x + hi + Q2Qc (inject_Z (Z.of_nat (length qs))) * hi)%Qc by ring.
    apply Qcplus_le_compat; [|apply Qcle_refl].
    apply Qcplus_le_compat; [apply Qcle_refl | apply H; now left].
Qed.

(** The mean lies between the bounds of the values. *)
Lemma mean_between (qs : list Qc) (lo hi : Qc) :
  qs <> [] ->
  (forall q, In q qs -> (lo <= q)%Qc /\ (q <= hi)%Qc) ->
  exists r, Np.mean (map Fin qs) = Fin r /\ (lo <= r)%Qc /\ (r <= hi)%Qc.
Proof.
  forget_unused. intros Hne H. rewrite mean_fin by assumption.
  eexists. split; [reflexivity|].
  set (n := Q2Qc (inject_Z (Z.of_nat (length qs)))).
  assert (Hn : (0 < length qs)%nat)
    by (destruct qs; [contradiction | simpl; lia]).
  assert (Hpos : (0 < n)%Qc) by (now apply of_nat_pos).
  assert (Hnz : n <> 0%Qc) by (now apply of_nat_nonzero).
  assert (E : (fold_left Qcplus qs 0 / n * n = fold_left Qcplus qs 0)%Qc)
    by (field; assumption).
  split.
  - apply Qcmult_lt_0_le_reg_r with (z := n); [assumption|]. rewrite E.
    replace (lo * n)%Qc with (0 + n * lo)%Qc by ring.
    apply fold_plus_lower. intros q Hq. apply H, Hq.
  - apply Qcmult_lt_0_le_reg_r with (z := n); [assumption|]. rewrite E.
    replace (hi * n)%Qc with (0 + n * hi)%Qc by ring.
    apply fold_plus_upper. intros q Hq. apply H, Hq.
Qed.

Lemma pca_Some (pts : list vec3) (c : vec3) (w w' : world rng) :
  pca pts w = (Some c, w') -> log w' = log w ++ [CallPca pts].
Proof.
  unfold pca. intros H. exec_inv.
  destruct (pca_fit _ _) as [[r g]|]; [|discriminate].
  injection H as _ <-. assumption.
Qed.

Lemma coord_sub (c : vec3 -> f8) (p q : vec3) :
  In c [vx; vy; vz] -> c (v_sub p q) = (c p - c q)%f8.
Proof.
  forget_unused. intros [<- | [<- | [<- | []]]]; reflexivity.
Qed.

Lemma coord_mean0 (c : vec3 -> f8) (pts : list vec3) :
  In c [vx; vy; vz] -> c (mean0 pts) = Np.mean (map c pts).
Proof.
  forget_unused. intros [<- | [<- | [<- | []]]]; reflexivity.
Qed.


End TrackletReconstruction.

(* ================================================================== *)
(** ** Reproducibility *)
(* ================================================================== *)

(** The module hands RANSAC and PCA no seed, so the state of the generator
    behind them is no input of a run.  Two runs are compared here with a
    library each, over generator states of any kind. *)

Unset Default Proof Using.

Section Related.

Variable v_drift : f8.
Variable crs_ticks : f8.
Variable get_z_coordinate : Z -> Z -> f8 -> f8.
Variable np_sqrt : f8 -> f8.
Variable arctan2 : f8 -> f8 -> f8.
Variables rngA rngB : Type.
Variable dbscan_fit : f8 -> Z -> list vec3 -> option (list Z).
Variable ransacA :
  Z -> f8 -> Z -> list vec3 -> rngA -> option (option (list bool) * rngA).
Variable ransacB :
  Z -> f8 -> Z -> list vec3 -> rngB -> option (option (list bool) * rngB).
Variable pcaA : list vec3 -> rngA -> option (vec3 * rngA).
Variable pcaB : list vec3 -> rngB -> option (vec3 * rngB).
Variable cfg : config.

(** A relation between the computations of the two runs that the monad
    and the calls into the libraries preserve. *)
Variable related :
  forall A : Type,
    Exec.exec (world rngA) A -> Exec.exec (world rngB) A -> Prop.

Hypothesis related_lift :
  forall A (o : option A), related (Exec.lift o) (Exec.lift o).
Hypothesis related_record :
  forall a, related (record a) (record a).
Hypothesis related_bind :
  forall A B (mA : Exec.exec (world rngA) A) (mB : Exec.exec (world rngB) A)
         (kA : A -> Exec.exec (world rngA) B)
         (kB : A -> Exec.exec (world rngB) B),
    related mA mB -> (forall a, related (kA a) (kB a)) ->
    related (Exec.bind mA kA) (Exec.bind mB kB).
Hypothesis related_ransac :
  forall pts, related (ransac ransacA cfg pts) (ransac ransacB cfg pts).
Hypothesis related_pca :
  forall pts, related (pca pcaA pts) (pca pcaB pts).

Lemma related_ret A (a : A) : related (Exec.ret a) (Exec.ret a).
Proof. exact (related_lift (Some a)). Qed.

Lemma related_for_each X St
    (bodyA : X -> St -> Exec.exec (world rngA) St)
    (bodyB : X -> St -> Exec.exec (world rngB) St) (l : list X) :
  (forall x st, related (bodyA x st) (bodyB x st)) ->
  forall st, related (Exec.for_each l bodyA st) (Exec.for_each l bodyB st).
Proof.
  intros H. induction l as [|x l IH]; intros st; simpl.
  - apply related_ret.
  - apply related_bind; [apply H | exact IH].
Qed.

Lemma related_for_rows X Y
    (fA : nat -> X -> Exec.exec (world rngA) Y)
    (fB : nat -> X -> Exec.exec (world rngB) Y) (l : list X) :
  (forall i x, related (fA i x) (fB i x)) ->
  forall i, related (Exec.for_rows fA i l) (Exec.for_rows fB i l).
Proof.
  intros H. induction l as [|x l IH]; intros i; simpl.
  - apply related_ret.
  - apply related_bind; [apply H|]. intros y.
    apply related_bind; [apply IH|]. intros ys. apply related_ret.
Qed.

Lemma related_do_dbscan (xyz : list vec3) (mask : list bool) :
  related (_do_dbscan dbscan_fit cfg xyz mask)
          (_do_dbscan dbscan_fit cfg xyz mask).
Proof.
  unfold _do_dbscan, dbscan.
  apply related_bind; [apply related_lift|]. intros pts.
  apply related_bind; [|intros; apply related_lift].
  apply related_bind; [apply related_record|]. intros. apply related_lift.
Qed.

Lemma related_do_ransac (xyz : list vec3) (mask : list bool) :
  related (_do_ransac ransacA cfg xyz mask) (_do_ransac ransacB cfg xyz mask).
Proof.
  unfold _do_ransac. apply related_bind; [apply related_lift|]. intros pts.
  apply related_ransac.
Qed.

Lemma related_assign_track (i : nat) (labels : list Z) (id_ : Z)
    (st : row_state) :
  related (assign_track i labels id_ st) (assign_track i labels id_ st).
Proof.
  unfold assign_track. destruct (id_ =? -1)%Z; [apply related_ret|].
  apply related_bind; [apply related_lift|]. intros.
  apply related_bind; [apply related_record|]. intros.
  apply related_bind; [apply related_lift|]. intros. apply related_ret.
Qed.

Lemma related_fit_cluster (i : nat) (xyz : list vec3) (track_ids : list Z)
    (id_ : Z) (st : row_state) :
  related (fit_cluster dbscan_fit ransacA cfg i xyz track_ids id_ st)
          (fit_cluster dbscan_fit ransacB cfg i xyz track_ids id_ st).
Proof.
  unfold fit_cluster. destruct (id_ =? -1)%Z; [apply related_ret|].
  destruct (_ <=? _)%Z; [apply related_ret|].
  apply related_bind; [apply related_do_ransac|]. intros inliers.
  apply related_bind; [apply related_lift|]. intros mask'.
  destruct (_ <? _)%Z; [apply related_ret|].
  apply related_bind; [apply related_do_dbscan|]. intros.
  apply related_for_each. intros. apply related_assign_track.
Qed.

Lemma related_iteration (i : nat) (xyz : list vec3) (st : row_state) :
  related (iteration dbscan_fit ransacA cfg i xyz st)
          (iteration dbscan_fit ransacB cfg i xyz st).
Proof.
  unfold iteration. apply related_bind; [apply related_do_dbscan|]. intros.
  apply related_bind; [apply related_record|]. intros.
  apply related_bind; [|intros; apply related_ret].
  apply related_for_each. intros. apply related_fit_cluster.
Qed.

Lemma related_iterations (n i : nat) (xyz : list vec3) (st : row_state) :
  related (iterations dbscan_fit ransacA cfg n i xyz st)
          (iterations dbscan_fit ransacB cfg n i xyz st).
Proof.
  revert st. induction n as [|n IH]; intros st; simpl; [apply related_ret|].
  apply related_bind; [apply related_iteration|]. intros r.
  destruct (stop (fst r) (snd r)); [apply related_ret | apply IH].
Qed.

Lemma related_find_tracks (evs : list event) :
  related (find_tracks v_drift crs_ticks get_z_coordinate
                       dbscan_fit ransacA cfg evs)
          (find_tracks v_drift crs_ticks get_z_coordinate
                       dbscan_fit ransacB cfg evs).
Proof.
  unfold find_tracks. apply related_bind; [|intros; apply related_ret].
  apply related_for_rows. intros i ex. unfold find_tracks_event.
  destruct (negb _); [apply related_ret|].
  apply related_bind; [apply related_iterations | intros; apply related_ret].
Qed.

Lemma related_do_pca (xyz : list vec3) (mask : list bool) :
  related (do_pca np_sqrt pcaA xyz mask) (do_pca np_sqrt pcaB xyz mask).
Proof.
  unfold do_pca. apply related_bind; [apply related_lift|]. intros.
  apply related_bind; [apply related_pca|]. intros. apply related_ret.
Qed.

Lemma related_calc_track (xyz : list vec3) (hs : list Hit.t)
    (tids : list (Z * bool)) (j : nat) :
  related (calc_track np_sqrt arctan2 pcaA xyz hs tids j)
          (calc_track np_sqrt arctan2 pcaB xyz hs tids j).
Proof.
  unfold calc_track. apply related_bind; [apply related_lift|]. intros mask.
  destruct (_ <? _)%nat; [apply related_ret|].
  apply related_bind; [apply related_do_pca|]. intros.
  repeat (apply related_bind; [apply related_lift|]; intros).
  apply related_ret.
Qed.

Lemma related_calc_tracks (evs : list event)
    (track_ids : list (list (Z * bool))) :
  related (calc_tracks v_drift crs_ticks get_z_coordinate np_sqrt arctan2
                       pcaA evs track_ids)
          (calc_tracks v_drift crs_ticks get_z_coordinate np_sqrt arctan2
                       pcaB evs track_ids).
Proof.
  unfold calc_tracks. apply related_for_rows. intros i ex.
  unfold calc_tracks_event. apply related_bind; [apply related_lift|]. intros.
  apply related_for_rows. intros. apply related_calc_track.
Qed.

Lemma related_run (evs : list event) :
  related (run v_drift crs_ticks get_z_coordinate np_sqrt arctan2
               dbscan_fit ransacA pcaA cfg evs)
          (run v_drift crs_ticks get_z_coordinate np_sqrt arctan2
               dbscan_fit ransacB pcaB cfg evs).
Proof.
  unfold run. apply related_bind; [apply related_find_tracks|]. intros.
  apply related_bind; [apply related_calc_tracks|]. intros.
  apply related_ret.
Qed.

End Related.

(** Libraries that answer alike give the same run. *)
Section Simulation.

Variables rngA rngB : Type.
Variable R : rngA -> rngB -> Prop.

Lemma simulates_lift A (o : option A) :
  simulates R (Exec.lift o) (Exec.lift o).
Proof. intros wA wB H. simpl. auto. Qed.

Lemma simulates_record (a : action) : simulates R (record a) (record a).
Proof. intros wA wB H. simpl. auto. Qed.

Lemma simulates_bind A B
    (mA : Exec.exec (world rngA) A) (mB : Exec.exec (world rngB) A)
    (kA : A -> Exec.exec (world rngA) B) (kB : A -> Exec.exec (world rngB) B) :
  simulates R mA mB -> (forall a, simulates R (kA a) (kB a)) ->
  simulates R (Exec.bind mA kA) (Exec.bind mB kB).
Proof.
  intros Hm Hk wA wB H. unfold Exec.bind.
  destruct (Hm wA wB H) as [Hv Hs].
  destruct (mA wA) as [[a|] sA], (mB wB) as [[b|] sB]; simpl in *;
    try discriminate.
  - injection Hv as <-. now apply Hk.
  - auto.
Qed.

Variable ransacA :
  Z -> f8 -> Z -> list vec3 -> rngA -> option (option (list bool) * rngA).
Variable ransacB :
  Z -> f8 -> Z -> list vec3 -> rngB -> option (option (list bool) * rngB).
Variable pcaA : list vec3 -> rngA -> option (vec3 * rngA).
Variable pcaB : list vec3 -> rngB -> option (vec3 * rngB).

Hypothesis alike : answer_alike R ransacA ransacB pcaA pcaB.

Lemma simulates_ransac (cfg : config) (pts : list vec3) :
  simulates R (ransac ransacA cfg pts) (ransac ransacB cfg pts).
Proof.
  intros wA wB H. unfold ransac, Exec.bind, record. simpl.
  pose proof (proj1 alike (ransac_min_samples cfg)
                (ransac_residual_threshold cfg) (ransac_max_trials cfg)
                pts _ _ H) as Ha.
  destruct (ransacA _ _ _ _ _) as [[a gA]|], (ransacB _ _ _ _ _) as [[b gB]|];
    simpl; try contradiction.
  - destruct Ha as [-> Hg]. auto.
  - auto.
Qed.

Lemma simulates_pca (pts : list vec3) :
  simulates R (pca pcaA pts) (pca pcaB pts).
Proof.
  intros wA wB H. unfold pca, Exec.bind, record. simpl.
  pose proof (proj2 alike pts _ _ H) as Ha.
  destruct (pcaA _ _) as [[a gA]|], (pcaB _ _) as [[b gB]|];
    simpl; try contradiction.
  - destruct Ha as [-> Hg]. auto.
  - auto.
Qed.

End Simulation.

(** Recording the answers of the libraries changes nothing to a run. *)
Lemma recorded_alike (rng : Type)
    (ransac_fit :
       Z -> f8 -> Z -> list vec3 -> rng -> option (option (list bool) * rng))
    (pca_fit : list vec3 -> rng -> option (vec3 * rng)) :
  answer_alike (fun g s => g = fst s)
               ransac_fit (recorded_ransac ransac_fit)
               pca_fit (recorded_pca pca_fit).
Proof.
  split.
  - intros ms thr mt pts g [g' h] H. simpl in H. subst g'.
    unfold recorded_ransac. simpl.
    destruct (ransac_fit ms thr mt pts g) as [[a g1]|]; simpl; auto.
  - intros pts g [g' h] H. simpl in H. subst g'.
    unfold recorded_pca. simpl.
    destruct (pca_fit pts g) as [[a g1]|]; simpl; auto.
Qed.

Lemma recorded_keeps_transcript (rng : Type)
    (ransac_fit :
       Z -> f8 -> Z -> list vec3 -> rng -> option (option (list bool) * rng))
    (pca_fit : list vec3 -> rng -> option (vec3 * rng)) :
  keeps_transcript (recorded_ransac ransac_fit) (recorded_pca pca_fit)
                   (@snd rng (list answer)).
Proof.
  split.
  - intros ms thr mt pts [g h] inliers s. unfold recorded_ransac. simpl.
    destruct (ransac_fit ms thr mt pts g) as [[a g1]|]; [|discriminate].
    now intros [= <- <-].
  - intros pts [g h] c s. unfold recorded_pca. simpl.
    destruct (pca_fit pts g) as [[a g1]|]; [|discriminate].
    now intros [= <- <-].
Qed.

(** Runs whose libraries give the same answers proceed alike. *)
Section InStep.

Variables rngA rngB : Type.
Variable tA : rngA -> list answer.
Variable tB : rngB -> list answer.

Lemma in_step_lift A (o : option A) :
  in_step tA tB (Exec.lift o) (Exec.lift o).
Proof.
  intros wA wB. exists [], []. simpl. rewrite !app_nil_r.
  split; [reflexivity|]. split; [reflexivity|].
  intros restA restB _. now destruct o.
Qed.

Lemma in_step_record (a : action) : in_step tA tB (record a) (record a).
Proof.
  intros wA wB. exists [], []. simpl. rewrite !app_nil_r. auto.
Qed.

Lemma in_step_bind A B
    (mA : Exec.exec (world rngA) A) (mB : Exec.exec (world rngB) A)
    (kA : A -> Exec.exec (world rngA) B) (kB : A -> Exec.exec (world rngB) B) :
  in_step tA tB mA mB -> (forall a, in_step tA tB (kA a) (kB a)) ->
  in_step tA tB (Exec.bind mA kA) (Exec.bind mB kB).
Proof.
  intros Hm Hk wA wB. unfold Exec.bind.
  destruct (Hm wA wB) as (nA & nB & EA & EB & Hn).
  destruct (mA wA) as [[a|] sA] eqn:HA, (mB wB) as [[b|] sB] eqn:HB;
    simpl in *.
  - destruct (Hk a sA sB) as (nA' & nB' & EA' & EB' & Hn').
    destruct (Hk b sA sB) as (nA2 & nB2 & EA2 & EB2 & Hn2).
    exists (nA ++ nA'), (nB ++ nB2).
    rewrite EA', EA, EB2, EB, !app_assoc. split; [reflexivity|].
    split; [reflexivity|]. intros restA restB E.
    rewrite <- !app_assoc in E.
    destruct (Hn _ _ E) as [Eab En]. subst b nB.
    apply app_inv_head in E.
    rewrite EB' in EB2. apply app_inv_head in EB2. subst nB2.
    specialize (Hn' _ _ E).
    destruct (fst (kA a sA)), (fst (kB a sB)); try exact Hn'.
    destruct Hn' as [-> ->]. auto.
  - destruct (Hk a sA sB) as (nA' & _ & EA' & _ & _).
    exists (nA ++ nA'), nB. rewrite EA', EA, !app_assoc.
    split; [reflexivity|]. split; [exact EB|]. intros restA restB E.
    rewrite <- app_assoc in E. specialize (Hn _ _ E).
    now destruct (fst (kA a sA)).
  - destruct (Hk b sA sB) as (_ & nB' & _ & EB' & _).
    exists nA, (nB ++ nB'). rewrite EB', EB, !app_assoc.
    split; [exact EA|]. split; [reflexivity|]. intros restA restB E.
    rewrite <- app_assoc in E. specialize (Hn _ _ E).
    now destruct (fst (kB b sB)).
  - exists nA, nB. auto.
Qed.

Variable ransacA :
  Z -> f8 -> Z -> list vec3 -> rngA -> option (option (list bool) * rngA).
Variable ransacB :
  Z -> f8 -> Z -> list vec3 -> rngB -> option (option (list bool) * rngB).
Variable pcaA : list vec3 -> rngA -> option (vec3 * rngA).
Variable pcaB : list vec3 -> rngB -> option (vec3 * rngB).

Hypothesis keepsA : keeps_transcript ransacA pcaA tA.
Hypothesis keepsB : keeps_transcript ransacB pcaB tB.

Lemma in_step_ransac (cfg : config) (pts : list vec3) :
  in_step tA tB (ransac ransacA cfg pts) (ransac ransacB cfg pts).
Proof.
  intros wA wB. unfold ransac, Exec.bind, record. simpl.
  destruct (ransacA _ _ _ _ _) as [[a gA]|] eqn:EA;
    destruct (ransacB _ _ _ _ _) as [[b gB]|] eqn:EB; simpl.
  - exists [RansacReturned a], [RansacReturned b].
    split; [exact (proj1 keepsA _ _ _ _ _ _ _ EA)|].
    split; [exact (proj1 keepsB _ _ _ _ _ _ _ EB)|].
    intros restA restB [= ->]. auto.
  - exists [RansacReturned a], [].
    split; [exact (proj1 keepsA _ _ _ _ _ _ _ EA)|].
    rewrite app_nil_r. split; [reflexivity|].
    intros restA restB E Hr. subst. discriminate.
  - exists [], [RansacReturned b].
    rewrite app_nil_r. split; [reflexivity|].
    split; [exact (proj1 keepsB _ _ _ _ _ _ _ EB)|].
    intros restA restB E Hr. subst. discriminate.
  - exists [], []. rewrite !app_nil_r. auto.
Qed.

Lemma in_step_pca (pts : list vec3) :
  in_step tA tB (pca pcaA pts) (pca pcaB pts).
Proof.
  intros wA wB. unfold pca, Exec.bind, record. simpl.
  destruct (pcaA _ _) as [[a gA]|] eqn:EA;
    destruct (pcaB _ _) as [[b gB]|] eqn:EB; simpl.
  - exists [PcaReturned a], [PcaReturned b].
    split; [exact (proj2 keepsA _ _ _ _ EA)|].
    split; [exact (proj2 keepsB _ _ _ _ EB)|].
    intros restA restB [= ->]. auto.
  - exists [PcaReturned a], [].
    split; [exact (proj2 keepsA _ _ _ _ EA)|].
    rewrite app_nil_r. split; [reflexivity|].
    intros restA restB E Hr. subst. discriminate.
  - exists [], [PcaReturned b].
    rewrite app_nil_r. split; [reflexivity|].
    split; [exact (proj2 keepsB _ _ _ _ EB)|].
    intros restA restB E Hr. subst. discriminate.
  - exists [], []. rewrite !app_nil_r. auto.
Qed.

End InStep.

(** The run with the answers of its libraries recorded returns what the
    run returns. *)
Lemma run_recorded (v_drift crs_ticks : f8)
    (get_z_coordinate : Z -> Z -> f8 -> f8) (np_sqrt : f8 -> f8)
    (arctan2 : f8 -> f8 -> f8) (rng : Type)
    (dbscan_fit : f8 -> Z -> list vec3 -> option (list Z))
    (ransac_fit :
       Z -> f8 -> Z -> list vec3 -> rng -> option (option (list bool) * rng))
    (pca_fit : list vec3 -> rng -> option (vec3 * rng))
    (cfg : config) (evs : list event) (w : world rng) :
  fst (run v_drift crs_ticks get_z_coordinate np_sqrt arctan2 dbscan_fit
           (recorded_ransac ransac_fit) (recorded_pca pca_fit) cfg evs
           (unanswered w)) =
  fst (run v_drift crs_ticks get_z_coordinate np_sqrt arctan2 dbscan_fit
           ransac_fit pca_fit cfg evs w).
Proof.
  symmetry.
  refine (proj1 (@related_run v_drift crs_ticks get_z_coordinate np_sqrt
                   arctan2 _ _ dbscan_fit ransac_fit
                   (recorded_ransac ransac_fit)
                   pca_fit (recorded_pca pca_fit) cfg
                   (fun A => @simulates _ _ A (fun g s => g = fst s))
                   _ _ _ _ _ evs w (unanswered w) eq_refl)).
  - intros; apply simulates_lift.
  - intros; apply simulates_record.
  - intros; now apply simulates_bind.
  - intros; apply (@simulates_ransac _ _ _ _ _ _ _
                     (recorded_alike ransac_fit pca_fit)).
  - intros; apply (@simulates_pca _ _ _ _ _ _ _
                     (recorded_alike ransac_fit pca_fit)).
Qed.

Section Reproducibility.

Variable v_drift : f8.
Variable crs_ticks : f8.
Variable get_z_coordinate : Z -> Z -> f8 -> f8.
Variable np_sqrt : f8 -> f8.
Variable arctan2 : f8 -> f8 -> f8.
Variables rngA rngB : Type.
Variable dbscan_fit : f8 -> Z -> list vec3 -> option (list Z).
Variable ransacA :
  Z -> f8 -> Z -> list vec3 -> rngA -> option (option (list bool) * rngA).
Variable ransacB :
  Z -> f8 -> Z -> list vec3 -> rngB -> option (option (list bool) * rngB).
Variable pcaA : list vec3 -> rngA -> option (vec3 * rngA).
Variable pcaB : list vec3 -> rngB -> option (vec3 * rngB).


End Reproducibility.

(* ================================================================== *)
(** ** The statements on the sample events *)
(* ================================================================== *)

Notation "'sample_find_tracks'" :=
  (find_tracks Sample.v_drift Sample.crs_ticks Sample.get_z_coordinate
               Sample.dbscan_fit Sample.ransac_fit Sample.cfg).

Notation "'sample_run'" :=
  (run Sample.v_drift Sample.crs_ticks Sample.get_z_coordinate
       Sample.np_sqrt Sample.arctan2
       Sample.dbscan_fit Sample.ransac_fit Sample.pca_fit Sample.cfg).

Notation "'sample_run_draw'" :=
  (run Sample.v_drift Sample.crs_ticks Sample.get_z_coordinate
       Sample.np_sqrt Sample.arctan2
       Sample.dbscan_fit Sample.ransac_draw Sample.pca_axis Sample.cfg_draw).

Notation "'sample_calc_tracks'" :=
  (calc_tracks Sample.v_drift Sample.crs_ticks Sample.get_z_coordinate
               Sample.np_sqrt Sample.arctan2 Sample.pca_fit).

Notation "'sample_xyz' e" :=
  (map (fun h => hit_xyz1 Sample.v_drift Sample.crs_ticks
                          Sample.get_z_coordinate h (t0_ts e)) (hits e))
  (at level 10, e at level 9).

Lemma track_id_stored_once_sample :
  exists acts,
    log (snd (sample_find_tracks Sample.two_events Sample.w0)) =
    log Sample.w0 ++ acts /\
    forall i row j v m,
      nth_error Sample.two_events_ids i = Some row ->
      nth_error row j = Some (v, m) ->
      (writes i j acts = [] /\ v = (-1)%Z)
      \/
      (m = false /\ writes i j acts = [v] /\ (0 <= v)%Z).
Proof.
  apply (track_id_stored_once Sample.v_drift Sample.crs_ticks
           Sample.get_z_coordinate Sample.dbscan_fit Sample.ransac_fit
           Sample.cfg Sample.two_events Sample.w0).
  vm_compute. reflexivity.
Defined.

Lemma track_ids_increase_sample :
  exists acts,
    log (snd (sample_find_tracks Sample.two_events Sample.w0)) =
    log Sample.w0 ++ acts /\
    forall i e,
      nth_error Sample.two_events i = Some e ->
      StronglySorted Z.lt (assigned_ids i acts) /\
      exists n, assigned_ids i acts = map Z.of_nat (seq 0 n).
Proof.
  apply (track_ids_increase Sample.v_drift Sample.crs_ticks
           Sample.get_z_coordinate Sample.dbscan_fit Sample.ransac_fit
           Sample.cfg Sample.two_events
           (res := Sample.two_events_ids) Sample.w0).
  vm_compute. reflexivity.
Defined.

Lemma masked_hit_unassigned_sample :
  exists acts,
    log (snd (sample_find_tracks Sample.two_events Sample.w0)) =
    log Sample.w0 ++ acts /\
    forall i e j h,
      nth_error Sample.two_events i = Some e ->
      nth_error (hits e) j = Some h ->
      Hit.masked h = true ->
      (exists row, nth_error Sample.two_events_ids i = Some row /\
                   nth_error row j = Some ((-1)%Z, true)) /\
      writes i j acts = [].
Proof.
  apply (masked_hit_unassigned Sample.v_drift Sample.crs_ticks
           Sample.get_z_coordinate Sample.dbscan_fit Sample.ransac_fit
           Sample.cfg Sample.two_events Sample.w0).
  vm_compute. reflexivity.
Defined.

Lemma sample_libraries_total :
  dbscan_total Sample.dbscan_fit Sample.cfg_small v_finite /\
  ransac_total Sample.ransac_fit Sample.cfg_small v_finite.
Proof.
  split.
  - intros [|p pts] Hne Hfin; [contradiction|].
    unfold Sample.dbscan_fit. rewrite Hfin.
    eexists. split; [reflexivity|]. apply repeat_length.
  - intros pts g Hmin _. unfold Sample.ransac_fit. simpl in *.
    assert (E : (2 <=? Z.of_nat (length pts))%Z = true)
      by (apply Z.leb_le; lia).
    rewrite E. simpl. eexists. eexists. split; [reflexivity|].
    intros v [= <-]. apply repeat_length.
Qed.

Lemma sample_inputs_accepted :
  inputs_accepted Sample.v_drift Sample.crs_ticks Sample.get_z_coordinate
                  v_finite [Sample.pair_event].
Proof.
  intros e h He Hh Hm.
  destruct He as [<- | []]; simpl in Hh;
    repeat (destruct Hh as [<- | Hh]; [try discriminate; reflexivity|]);
    destruct Hh.
Qed.

Notation "'sample_find_pair'" :=
  (find_tracks Sample.v_drift Sample.crs_ticks Sample.get_z_coordinate
               Sample.dbscan_fit Sample.ransac_fit Sample.cfg_small
               [Sample.pair_event] Sample.w0).


Lemma ransac_only_on_large_clusters_sample :
  (exists acts,
      log (snd (sample_find_tracks Sample.two_events Sample.w0)) =
      log Sample.w0 ++ acts /\
      forall pts, In pts (ransac_inputs acts) ->
                  (ransac_min_samples Sample.cfg < Z.of_nat (length pts))%Z) /\
  fit_cluster Sample.dbscan_fit Sample.ransac_fit Sample.cfg 0
              (sample_xyz Sample.line_event) [0; 0; -1; -1]%Z 0 Sample.st0
              Sample.w0 =
  (Some Sample.st0, Sample.w0) /\
  fst (fit_cluster Sample.dbscan_fit Sample.ransac_none Sample.cfg 0
                   (sample_xyz Sample.line_event) [0; 0; 0; -1]%Z 0
                   Sample.st0 Sample.w0) =
  Some Sample.st0.
Proof.
  pose proof (ransac_only_on_large_clusters
                Sample.v_drift Sample.crs_ticks Sample.get_z_coordinate
                Sample.dbscan_fit Sample.ransac_fit Sample.cfg)
    as (Hlog & Hskip & _).
  pose proof (ransac_only_on_large_clusters
                Sample.v_drift Sample.crs_ticks Sample.get_z_coordinate
                Sample.dbscan_fit Sample.ransac_none Sample.cfg)
    as (_ & _ & Hdrop).
  split; [apply Hlog|]. split.
  - apply Hskip. right. vm_compute. discriminate.
  - destruct (Hdrop 0%nat (sample_xyz Sample.line_event) [0; 0; 0; -1]%Z
                0%Z Sample.st0 Sample.w0 None
                (snd (_do_ransac Sample.ransac_none Sample.cfg
                        (sample_xyz Sample.line_event)
                        (Np.eq_scalar [0; 0; 0; -1]%Z 0) Sample.w0))
                [false; false; false; false]) as [E _].
    + discriminate.
    + vm_compute. reflexivity.
    + vm_compute. reflexivity.
    + vm_compute. reflexivity.
    + exact I.
    + rewrite E. reflexivity.
Defined.

Notation "'sample_tracks'" :=
  (match fst (sample_calc_tracks Sample.two_events Sample.two_events_ids
                                 Sample.w0) with
   | Some tracks => tracks
   | None => []
   end).

Lemma tracks_have_two_hits_sample :
  length sample_tracks = length Sample.two_events /\
  forall i e row,
    nth_error Sample.two_events i = Some e ->
    nth_error sample_tracks i = Some row ->
    (forall t o,
        nth_error row t = Some o ->
        exists tids mask,
          nth_error Sample.two_events_ids i = Some tids /\
          track_mask tids (hits e) (Z.of_nat t) = Some mask /\
          match o with
          | Some tr => Track.nhit tr = Np.sum mask /\ (2 <= Track.nhit tr)%Z
          | None => (Np.sum mask < 2)%Z
          end) /\
    ((Np.count (map (fun h => negb (Hit.masked h)) (hits e)) <= 1)%nat ->
     forall t o, nth_error row t = Some o -> o = None).
Proof.
  apply (tracks_have_two_hits Sample.v_drift Sample.crs_ticks
           Sample.get_z_coordinate Sample.np_sqrt Sample.arctan2
           Sample.pca_fit Sample.two_events Sample.two_events_ids Sample.w0).
  vm_compute. reflexivity.
Defined.

Notation "'sample_calc_track'" :=
  (calc_track Sample.np_sqrt Sample.arctan2 Sample.pca_fit
              (sample_xyz Sample.line_event) (hits Sample.line_event)
              [(0, false); (0, false); (0, false); (-1, true)]%Z 0 Sample.w0).

Lemma xyp_plane_intersection_sample :
  (exists tr mask centroid axis w1 w2,
      fst sample_calc_track = Some (Some tr) /\
      track_mask [(0, false); (0, false); (0, false); (-1, true)]%Z
                 (hits Sample.line_event) 0 = Some mask /\
      do_pca Sample.np_sqrt Sample.pca_fit
             (sample_xyz Sample.line_event) mask w1 =
      (Some (centroid, axis), w2) /\
      (Track.xp tr, Track.yp tr) = xyp axis centroid) /\
  xyp Sample.axis_x Sample.centroid =
  (vx Sample.centroid, vy Sample.centroid) /\
  (exists t, is_finite t = true /\
             vz (line_point Sample.centroid Sample.axis_z t) = zero) /\
  (forall t,
      is_finite t = true ->
      vz (line_point Sample.centroid Sample.axis_z t) = zero ->
      xyp Sample.axis_z Sample.centroid =
      (vx (line_point Sample.centroid Sample.axis_z t),
       vy (line_point Sample.centroid Sample.axis_z t))).
Proof.
  pose proof (xyp_plane_intersection Sample.np_sqrt Sample.arctan2
                                     Sample.pca_fit) as [Htrack Hline].
  split; [|split].
  - assert (H : exists tr, fst sample_calc_track = Some (Some tr))
      by (vm_compute; eexists; reflexivity).
    destruct H as [tr H]. exists tr.
    destruct (Htrack _ _ _ _ _ _ H) as (mask & c & a & w1 & w2 & Hm & Hp & Hx).
    exists mask, c, a, w1, w2. auto.
  - apply (Hline Sample.axis_x Sample.centroid); vm_compute; reflexivity.
  - apply (Hline Sample.axis_z Sample.centroid); vm_compute; reflexivity.
Defined.



Lemma unmasked_points_reach_dbscan_sample :
  starts_with
    (find_tracks_event Sample.dbscan_fit Sample.ransac_fit Sample.cfg 0
                       (sample_xyz Sample.unmapped_event)
                       (hits Sample.unmapped_event))
    (CallDbscan (Np.pick (sample_xyz Sample.unmapped_event)
                         (map (fun h => negb (Hit.masked h))
                              (hits Sample.unmapped_event)))).
Proof.
  apply (unmasked_points_reach_dbscan Sample.dbscan_fit Sample.ransac_fit
           Sample.cfg 0 (sample_xyz Sample.unmapped_event)
           (hits Sample.unmapped_event)).
  - reflexivity.
  - reflexivity.
  - reflexivity.
Defined.

(** C9 as stated fails: the only hit of [Sample.unmapped_event] is
    unmasked, the geometry lookup gives [nan] for its z, and the point is
    handed to DBSCAN all the same; it is DBSCAN, not [find_tracks], that
    raises. *)
Lemma nonfinite_point_reaches_dbscan :
  exists h p,
    hits Sample.unmapped_event = [h] /\
    p = hit_xyz1 Sample.v_drift Sample.crs_ticks Sample.get_z_coordinate
                 h (t0_ts Sample.unmapped_event) /\
    v_finite p = false /\
    dbscan_inputs
      (log (snd (sample_find_tracks [Sample.unmapped_event] Sample.w0))) =
    [[p]] /\
    fst (sample_find_tracks [Sample.unmapped_event] Sample.w0) = None.
Proof.
  eexists. eexists. split; [reflexivity|]. split; [reflexivity|].
  split; [reflexivity|]. split; vm_compute; reflexivity.
Qed.

(* ================================================================== *)
(** ** Further statements on the sample events *)
(* ================================================================== *)

Notation "'sample_do_dbscan'" :=
  (@_do_dbscan Sample.rng Sample.dbscan_fit Sample.cfg).

Lemma do_dbscan_labels_sample :
  length [0; 0; 0; -1]%Z = length [true; true; true; false] /\
  (forall j, nth j [true; true; true; false] false = false ->
             nth j [0; 0; 0; -1]%Z (-1)%Z = (-1)%Z) /\
  exists labels,
    Sample.dbscan_fit (dbscan_eps Sample.cfg) (dbscan_min_samples Sample.cfg)
      (Np.pick (sample_xyz Sample.line_event) [true; true; true; false])
    = Some labels /\
    (Np.pick [0; 0; 0; -1]%Z [true; true; true; false] = labels \/
     exists v, labels = [v] /\
               Np.pick [0; 0; 0; -1]%Z [true; true; true; false] =
               repeat v (Np.count [true; true; true; false])).
Proof.
  apply (@do_dbscan_labels Sample.rng Sample.dbscan_fit Sample.cfg
           (sample_xyz Sample.line_event) [true; true; true; false]
           [0; 0; 0; -1]%Z Sample.w0).
  vm_compute. reflexivity.
Defined.

(** The point of [Sample.unmapped_event] has a [nan] coordinate, on which
    DBSCAN raises. *)
Lemma do_dbscan_raises_sample :
  fst (sample_do_dbscan (sample_xyz Sample.unmapped_event) [true] Sample.w0)
  = None.
Proof.
  apply (proj2 (@do_dbscan_raises Sample.rng Sample.dbscan_fit Sample.cfg
                  (sample_xyz Sample.unmapped_event) [true] Sample.w0)).
  right. left. vm_compute. reflexivity.
Defined.

Lemma keep_inliers_selects_sample :
  (forall v,
      length v = Np.count [true; false; true; true] ->
      exists mask',
        keep_inliers [true; false; true; true] (Some v) = Some mask' /\
        Np.pick [10; 11; 12; 13]%Z mask' =
        Np.pick (Np.pick [10; 11; 12; 13]%Z [true; false; true; true]) v /\
        Np.count mask' = Np.count v) /\
  (exists mask',
      keep_inliers [true; false; true; true] None = Some mask' /\
      Np.pick [10; 11; 12; 13]%Z mask' = []).
Proof.
  apply (@keep_inliers_selects Z [10; 11; 12; 13]%Z [true; false; true; true]).
  reflexivity.
Defined.

Lemma find_tracks_no_valid_hits_sample :
  sample_find_tracks [Sample.empty_event; Sample.empty_event] Sample.w1 =
  (Some [[((-1)%Z, true); ((-1)%Z, true)]; [((-1)%Z, true); ((-1)%Z, true)]],
   Sample.w1).
Proof.
  apply (@find_tracks_no_valid_hits Sample.v_drift Sample.crs_ticks
           Sample.get_z_coordinate Sample.rng Sample.dbscan_fit
           Sample.ransac_fit Sample.cfg
           [Sample.empty_event; Sample.empty_event] Sample.w1).
  intros e [<- | [<- | []]]; reflexivity.
Defined.

Lemma find_tracks_no_iteration_sample :
  find_tracks Sample.v_drift Sample.crs_ticks Sample.get_z_coordinate
              Sample.dbscan_fit Sample.ransac_fit Sample.cfg_idle
              Sample.two_events Sample.w1 =
  (Some [[((-1)%Z, false); ((-1)%Z, false); ((-1)%Z, false); ((-1)%Z, true)];
         [((-1)%Z, true); ((-1)%Z, false); ((-1)%Z, true); ((-1)%Z, true)]],
   Sample.w1).
Proof.
  apply (@find_tracks_no_iteration Sample.v_drift Sample.crs_ticks
           Sample.get_z_coordinate Sample.rng Sample.dbscan_fit
           Sample.ransac_fit Sample.cfg_idle Sample.two_events Sample.w1).
  simpl. lia.
Defined.

Lemma track_ids_contiguous_sample :
  exists n : nat,
    (forall j v m,
        nth_error [(0, false); (0, false); (0, false); (-1, true)]%Z j
        = Some (v, m) ->
        (-1 <= v < Z.of_nat n)%Z) /\
    (forall k, (k < n)%nat ->
               exists j,
                 nth_error [(0, false); (0, false); (0, false); (-1, true)]%Z j
                 = Some (Z.of_nat k, false)) /\
    (n <= Np.count
            (Np.logical_not
               (map snd [(0, false); (0, false); (0, false); (-1, true)]%Z)))%nat.
Proof.
  apply (@track_ids_contiguous Sample.v_drift Sample.crs_ticks
           Sample.get_z_coordinate Sample.rng Sample.dbscan_fit
           Sample.ransac_fit Sample.cfg Sample.two_events
           Sample.two_events_ids Sample.w0) with (i := 0%nat).
  - vm_compute. reflexivity.
  - reflexivity.
Defined.

Lemma dbscan_never_on_empty_sample :
  exists acts,
    log (snd (sample_find_tracks Sample.two_events Sample.w0)) =
    log Sample.w0 ++ acts /\
    forall pts, In pts (dbscan_inputs acts) -> pts <> [].
Proof.
  apply (@dbscan_never_on_empty Sample.v_drift Sample.crs_ticks
           Sample.get_z_coordinate Sample.rng Sample.dbscan_fit
           Sample.ransac_fit Sample.cfg Sample.two_events Sample.w0).
Defined.

Lemma only_unmasked_hits_fitted_sample :
  exists acts,
    log (snd (sample_find_tracks Sample.two_events Sample.w0)) =
    log Sample.w0 ++ acts /\
    forall pts,
      In pts (dbscan_inputs acts) \/ In pts (ransac_inputs acts) ->
      exists e m,
        In e Sample.two_events /\
        length m = length (hits e) /\
        (forall j h, nth_error (hits e) j = Some h ->
                     nth j m false = true -> Hit.masked h = false) /\
        pts = Np.pick (sample_xyz e) m.
Proof.
  apply (@only_unmasked_hits_fitted Sample.v_drift Sample.crs_ticks
           Sample.get_z_coordinate Sample.rng Sample.dbscan_fit
           Sample.ransac_fit Sample.cfg Sample.two_events Sample.w0).
Defined.

Lemma n_tracks_covers_sample :
  (1 <= n_tracks Sample.two_events_ids)%nat /\
  (0 < Z.of_nat (n_tracks Sample.two_events_ids))%Z.
Proof.
  destruct (n_tracks_covers Sample.two_events_ids) as [H1 H2].
  split; [exact H1|].
  apply (H2 [(0, false); (0, false); (0, false); (-1, true)]%Z 0%Z).
  - simpl. auto.
  - simpl. auto.
Defined.

Lemma calc_tracks_shape_sample :
  (length sample_tracks = length Sample.two_events /\
   forall row, In row sample_tracks ->
               length row = n_tracks Sample.two_events_ids) /\
  fst (sample_calc_tracks Sample.two_events [] Sample.w0) = None.
Proof.
  split.
  - apply (proj1 (@calc_tracks_shape Sample.v_drift Sample.crs_ticks
                    Sample.get_z_coordinate Sample.np_sqrt Sample.arctan2
                    Sample.rng Sample.pca_fit Sample.two_events
                    Sample.two_events_ids Sample.w0)).
    vm_compute. reflexivity.
  - apply (proj2 (@calc_tracks_shape Sample.v_drift Sample.crs_ticks
                    Sample.get_z_coordinate Sample.np_sqrt Sample.arctan2
                    Sample.rng Sample.pca_fit Sample.two_events
                    [] Sample.w0)).
    simpl. lia.
Defined.

Lemma track_times_ordered_sample :
  exists tr,
    fst sample_calc_track = Some (Some tr) /\
    exists mask,
      track_mask [(0, false); (0, false); (0, false); (-1, true)]%Z
                 (hits Sample.line_event) (Z.of_nat 0) = Some mask /\
      (exists k h, nth_error (hits Sample.line_event) k = Some h /\
                   nth k mask false = true /\
                   Hit.ts h = Track.ts_start tr) /\
      (exists k h, nth_error (hits Sample.line_event) k = Some h /\
                   nth k mask false = true /\
                   Hit.ts h = Track.ts_end tr) /\
      (forall k h, nth_error (hits Sample.line_event) k = Some h ->
                   nth k mask false = true ->
                   leb (Track.ts_start tr) (Hit.ts h) = true /\
                   leb (Hit.ts h) (Track.ts_end tr) = true).
Proof.
  assert (H : exists tr, fst sample_calc_track = Some (Some tr))
    by (vm_compute; eexists; reflexivity).
  destruct H as [tr H]. exists tr. split; [exact H|].
  apply (@track_times_ordered Sample.np_sqrt Sample.arctan2 Sample.rng
           Sample.pca_fit (sample_xyz Sample.line_event)
           (hits Sample.line_event)
           [(0, false); (0, false); (0, false); (-1, true)]%Z 0 tr Sample.w0).
  - intros h Hh _. simpl in Hh.
    repeat (destruct Hh as [<- | Hh]; [reflexivity|]). destruct Hh.
  - exact H.
Defined.

Lemma projected_limits_in_box_sample :
  projected_limits Sample.centroid Sample.axis_x [] = None /\
  exists r_min r_max,
    projected_limits Sample.centroid Sample.axis_x Sample.off_line
    = Some (r_min, r_max) /\
    v_finite r_min = true /\ v_finite r_max = true /\
    in_box Sample.off_line r_min /\ in_box Sample.off_line r_max.
Proof.
  destruct (projected_limits_in_box Sample.centroid Sample.axis_x
              Sample.off_line) as [H1 H2].
  split; [reflexivity|]. apply H2.
  - reflexivity.
  - reflexivity.
  - reflexivity.
  - discriminate.
Defined.


Lemma residual_nonneg_sample :
  is_finite (vy (track_residual Sample.centroid Sample.axis_x
                                Sample.off_line)) = true /\
  leb zero (vy (track_residual Sample.centroid Sample.axis_x
                               Sample.off_line)) = true.
Proof.
  apply (@residual_nonneg Sample.centroid Sample.axis_x Sample.off_line).
  - reflexivity.
  - reflexivity.
  - reflexivity.
  - discriminate.
  - simpl. auto.
Defined.


Lemma sample_pca_total : pca_total Sample.pca_fit.
Proof.
  intros [|p pts] g Hn Hf; [simpl in Hn; lia|].
  unfold Sample.pca_fit. rewrite Hf. eauto.
Qed.

Lemma sample_cfg_total :
  dbscan_total Sample.dbscan_fit Sample.cfg v_finite /\
  ransac_total Sample.ransac_fit Sample.cfg v_finite.
Proof.
  split.
  - intros [|p pts] Hne Hfin; [contradiction|].
    unfold Sample.dbscan_fit. rewrite Hfin.
    eexists. split; [reflexivity|]. apply repeat_length.
  - intros pts g Hmin _. unfold Sample.ransac_fit. simpl in *.
    assert (E : (2 <=? Z.of_nat (length pts))%Z = true)
      by (apply Z.leb_le; lia).
    rewrite E. simpl. eexists. eexists. split; [reflexivity|].
    intros v [= <-]. apply repeat_length.
Qed.

Lemma sample_two_events_accepted :
  inputs_accepted Sample.v_drift Sample.crs_ticks Sample.get_z_coordinate
                  v_finite Sample.two_events.
Proof.
  intros e h He Hh Hm.
  destruct He as [<- | [<- | []]]; simpl in Hh;
    repeat (destruct Hh as [<- | Hh]; [try discriminate; reflexivity|]);
    destruct Hh.
Qed.

Lemma sample_same_shape :
  same_shape Sample.two_events_ids Sample.two_events.
Proof.
  split; [reflexivity|].
  intros [|[|i]] tids e Ht He; simpl in Ht, He.
  - injection Ht as <-. injection He as <-. reflexivity.
  - injection Ht as <-. injection He as <-. reflexivity.
  - destruct i; discriminate.
Qed.

Lemma calc_tracks_returns_sample :
  exists tracks,
    fst (sample_calc_tracks Sample.two_events Sample.two_events_ids Sample.w0)
    = Some tracks.
Proof.
  apply (@calc_tracks_returns Sample.v_drift Sample.crs_ticks
           Sample.get_z_coordinate Sample.np_sqrt Sample.arctan2 Sample.rng
           Sample.pca_fit Sample.two_events Sample.two_events_ids Sample.w0).
  - exact sample_pca_total.
  - exact sample_same_shape.
  - exact sample_two_events_accepted.
Defined.

Notation "'sample_run_writes'" :=
  (run_writes Sample.v_drift Sample.crs_ticks Sample.get_z_coordinate
              Sample.np_sqrt Sample.arctan2
              Sample.dbscan_fit Sample.ransac_fit Sample.pca_fit Sample.cfg
              Sample.reserve_data Sample.hit_id Sample.source_slice
              Sample.two_events Sample.w0).

Notation "'sample_out'" :=
  (match fst sample_run_writes with
   | Some out => out
   | None => Output (0, 0)%Z [] [] []
   end).

(** The number of tracklets of [Sample.two_events]. *)
Lemma sample_n_tracks (track_ids : list (list (Z * bool)))
    (tracks : list (list (option Track.t))) :
  fst (sample_run Sample.two_events Sample.w0) =
  Some (track_ids, tracks, length (unmasked_tracks tracks)) ->
  length (unmasked_tracks tracks) = 1%nat.
Proof.
  intros H.
  pose proof (f_equal (fun o : option (list (list (Z * bool)) *
                                       list (list (option Track.t)) * nat) =>
                         match o with
                         | Some r => snd r
                         | None => 0%nat
                         end) H) as E.
  cbv beta iota in E. cbn [snd] in E. rewrite <- E.
  vm_compute. reflexivity.
Qed.

Lemma written_ids_follow_slice_sample :
  exists track_ids tracks,
    fst (sample_run Sample.two_events Sample.w0) =
    Some (track_ids, tracks, length (unmasked_tracks tracks)) /\
    tracks_slice sample_out =
    Sample.reserve_data (length (unmasked_tracks tracks)) /\
    map snd (written sample_out) = unmasked_tracks tracks /\
    map fst (written sample_out) = Np.r_ (tracks_slice sample_out) /\
    NoDup (map fst (written sample_out)).
Proof.
  destruct (@written_ids_follow_slice Sample.v_drift Sample.crs_ticks
              Sample.get_z_coordinate Sample.np_sqrt Sample.arctan2
              Sample.rng Sample.dbscan_fit Sample.ransac_fit Sample.pca_fit
              Sample.cfg Sample.reserve_data Sample.hit_id
              Sample.source_slice Sample.two_events sample_out Sample.w0)
    as (track_ids & tracks & Hr & Hs & Hw & Hids).
  { vm_compute. reflexivity. }
  exists track_ids, tracks.
  split; [exact Hr|]. split; [exact Hs|]. split; [exact Hw|].
  apply Hids. rewrite (@sample_n_tracks track_ids tracks Hr).
  unfold reserves, Sample.reserve_data. simpl. lia.
Defined.

Lemma hit_refs_link_members_sample :
  track_hit_ref sample_out = [(100, 0); (100, 1); (100, 2)]%Z /\
  exists track_ids tracks ids,
    fst (sample_run Sample.two_events Sample.w0) =
    Some (track_ids, tracks, length (unmasked_tracks tracks)) /\
    Np.place (map (map Np.is_set) tracks)
             (map Np.u4 (Np.r_ (tracks_slice sample_out))) = Some ids /\
    written sample_out = with_ids ids tracks /\
    forall t h,
      In (t, h) (track_hit_ref sample_out) <->
      exists i k e hit v tids ids_row row tr,
        nth_error Sample.two_events i = Some e /\
        nth_error (hits e) k = Some hit /\ Hit.masked hit = false /\
        nth_error track_ids i = Some tids /\
        nth_error tids k = Some (v, false) /\ (0 <= v)%Z /\
        nth_error ids i = Some ids_row /\
        nth_error ids_row (Z.to_nat v) = Some (Some t) /\
        nth_error tracks i = Some row /\
        nth_error row (Z.to_nat v) = Some (Some tr) /\
        In (t, tr) (written sample_out) /\
        h = Sample.hit_id i k.
Proof.
  split; [vm_compute; reflexivity|].
  apply (@hit_refs_link_members Sample.v_drift Sample.crs_ticks
           Sample.get_z_coordinate Sample.np_sqrt Sample.arctan2
           Sample.rng Sample.dbscan_fit Sample.ransac_fit Sample.pca_fit
           Sample.cfg Sample.reserve_data Sample.hit_id
           Sample.source_slice Sample.two_events sample_out Sample.w0).
  vm_compute. reflexivity.
Defined.

Lemma event_refs_cover_tracks_sample :
  event_track_ref sample_out = [(7, 100)]%Z /\
  map snd (event_track_ref sample_out) = map fst (written sample_out) /\
  exists track_ids tracks ids,
    fst (sample_run Sample.two_events Sample.w0) =
    Some (track_ids, tracks, length (unmasked_tracks tracks)) /\
    Np.place (map (map Np.is_set) tracks)
             (map Np.u4 (Np.r_ (tracks_slice sample_out))) = Some ids /\
    written sample_out = with_ids ids tracks /\
    forall ev t,
      In (ev, t) (event_track_ref sample_out) <->
      exists i ids_row j,
        (i < length Sample.two_events)%nat /\
        ev = (fst Sample.source_slice + Z.of_nat i)%Z /\
        nth_error ids i = Some ids_row /\
        nth_error ids_row j = Some (Some t).
Proof.
  split; [vm_compute; reflexivity|].
  apply (@event_refs_cover_tracks Sample.v_drift Sample.crs_ticks
           Sample.get_z_coordinate Sample.np_sqrt Sample.arctan2
           Sample.rng Sample.dbscan_fit Sample.ransac_fit Sample.pca_fit
           Sample.cfg Sample.reserve_data Sample.hit_id
           Sample.source_slice Sample.two_events sample_out Sample.w0).
  - vm_compute. reflexivity.
  - reflexivity.
Defined.

Lemma run_returns_sample :
  exists out, fst sample_run_writes = Some out.
Proof.
  apply (@run_returns Sample.v_drift Sample.crs_ticks
           Sample.get_z_coordinate Sample.np_sqrt Sample.arctan2
           Sample.rng Sample.dbscan_fit Sample.ransac_fit Sample.pca_fit
           Sample.cfg Sample.reserve_data Sample.hit_id
           Sample.source_slice Sample.two_events Sample.w0).
  - exact (proj1 sample_cfg_total).
  - exact (proj2 sample_cfg_total).
  - exact sample_pca_total.
  - exact sample_two_events_accepted.
  - intros n Hn. unfold Sample.reserve_data. cbn [fst snd]. lia.
  - reflexivity.
Defined.

Lemma pca_only_on_tracks_sample :
  exists acts,
    log (snd (sample_calc_tracks Sample.two_events Sample.two_events_ids
                                 Sample.w0)) =
    log Sample.w0 ++ acts /\
    forall a, In a acts ->
              exists pts, a = CallPca pts /\ (2 <= length pts)%nat.
Proof.
  apply (@pca_only_on_tracks Sample.v_drift Sample.crs_ticks
           Sample.get_z_coordinate Sample.np_sqrt Sample.arctan2 Sample.rng
           Sample.pca_fit Sample.two_events Sample.two_events_ids Sample.w0).
Defined.

(** The one tracklet of [Sample.two_events] has three hits and three
    references. *)
Lemma refs_count_is_nhit_sample :
  exists tr,
    In (100%Z, tr) (written sample_out) /\
    Z.of_nat (length (filter (fun p : Z * Z => (fst p =? 100)%Z)
                             (track_hit_ref sample_out))) = Track.nhit tr /\
    Track.nhit tr = 3%Z.
Proof.
  assert (H : exists tr, written sample_out = [(100%Z, tr)] /\
                         Track.nhit tr = 3%Z)
    by (vm_compute; eexists; split; reflexivity).
  destruct H as (tr & H & Hn). exists tr.
  assert (Hin : In (100%Z, tr) (written sample_out))
    by (rewrite H; now left).
  split; [exact Hin|]. split; [|exact Hn].
  apply (@refs_count_is_nhit Sample.v_drift Sample.crs_ticks
           Sample.get_z_coordinate Sample.np_sqrt Sample.arctan2
           Sample.rng Sample.dbscan_fit Sample.ransac_fit Sample.pca_fit
           Sample.cfg Sample.reserve_data Sample.hit_id
           Sample.source_slice Sample.two_events sample_out Sample.w0).
  - vm_compute. reflexivity.
  - rewrite H. unfold reserves, Sample.reserve_data. cbn [fst snd length].
    lia.
  - exact Hin.
Defined.

Notation "'sample_do_pca'" :=
  (do_pca Sample.np_sqrt Sample.pca_fit (sample_xyz Sample.line_event)
          [true; true; true; false] Sample.w0).

